(** * SODA stencil core: scheduling, reuse buffers and forwardings

    A shallow embedding of [soda/generator/utils.py]: coordinate
    serialization, the construction-time checks of [Stencil.__init__], the
    causal scheduler, the reuse-chain / point synthesizers (unrolled and
    replicated) and the forwarding descriptors, together with the properties
    the specification states about them.

    Conventions.  Python integers are [Z]; [//] and [%] are [Z.div] and
    [Z.modulo] (both floor, as in Python).  A [dict] is a [gmap], a [set] a
    [gset]; the iteration order of a Python [set] of objects is unspecified,
    so wherever the source iterates one, the model iterates a list that the
    theorems quantify over.  A raised exception is a value of [exn]. *)

From Stdlib Require Import Ascii.
From stdpp Require Import base numbers list option strings gmap sorting pretty.

Local Open Scope Z_scope.

(** ** Exceptions *)

Inductive exn : Type :=
  | SemanticError (msg : string)
  | InternalError (msg : string)
  | AttributeError (msg : string)
  | KeyError (key : string)
  | IndexError
  | StopIteration
  | TypeError
  | ValueError
  | ZeroDivisionError
  | SystemExit (code : Z).

Inductive result (A : Type) : Type :=
  | Ok (a : A)
  | Raise (e : exn).
Arguments Ok {A} a.
Arguments Raise {A} e.

Definition rbind {A B} (m : result A) (k : A → result B) : result B :=
  match m with
  | Ok a => k a
  | Raise e => Raise e
  end.

Global Instance result_bind : MBind result := λ A B k m, rbind m k.
Global Instance result_ret : MRet result := λ A a, Ok a.

Definition of_option {A} (e : exn) (o : option A) : result A :=
  match o with
  | Some a => Ok a
  | None => Raise e
  end.

(** [for x in l: acc = f(acc, x)], stopping at the first exception. *)
Fixpoint rfold {A S} (f : S → A → result S) (l : list A) (s : S) : result S :=
  match l with
  | [] => Ok s
  | x :: l' => s' ← f s x ; rfold f l' s'
  end.

(** [[f(x) for x in l]], stopping at the first exception. *)
Fixpoint rmap {A B} (f : A → result B) (l : list A) : result (list B) :=
  match l with
  | [] => Ok []
  | x :: l' => y ← f x ; ys ← rmap f l' ; Ok (y :: ys)
  end.

(** ** Coordinate serialization *)

(** [reduce(operator.mul, l)] without an initial value: a [TypeError] on the
    empty sequence, otherwise the left fold seeded by the first element. *)
Definition reduce_mul (l : list Z) : result Z :=
  match l with
  | [] => Raise TypeError
  | x :: l' => Ok (foldl Z.mul x l')
  end.

(** [Serialize(vec, tile_size)]:
    [sum((vec[i]*reduce(mul, tile_size[:i]) for i in range(1, len(tile_size))),
         next(iter(vec)))].
    The start value [next(iter(vec))] is evaluated first; the generator is
    then consumed left to right by [sum]. *)
Definition Serialize (vec tile_size : list Z) : result Z :=
  start ← of_option StopIteration (head vec) ;
  rfold (λ acc i,
           vi ← of_option IndexError (vec !! i) ;
           p ← reduce_mul (take i tile_size) ;
           Ok (acc + vi * p))
        (seq 1 (length tile_size - 1)) start.

(** [SerializeIterative(iterative, tile_size)]. *)
Definition SerializeIterative (iterative : list (list Z)) (tile_size : list Z)
  : result (list Z) :=
  rmap (λ x, Serialize x tile_size) iterative.

(** The specification's closed form:
    [v[0] + Σ_{i=1}^{dim-1} v[i] * Π_{j<i} T[j]]. *)
Definition prod_list (l : list Z) : Z := foldr Z.mul 1 l.

(** The term of dimension [i]: [v[i] * Π_{j<i} T[j]]. *)
Definition weighted (v T : list Z) (i : nat) : Z :=
  v !!! i * prod_list (take i T).

Definition serialize_spec (v T : list Z) : Z :=
  v !!! 0%nat +
  foldr Z.add 0 ((λ i, v !!! i * prod_list (take i T)) <$> seq 1 (length T - 1)).

(** ** Graph entities *)

(** A load [name(idx...)] inside an expression. *)
Record Load := mkLoad { l_name : string; l_idx : list Z }.

(** One expression alternative of a definition: its store index and the
    loads it performs ([e.idx], [e.loads]). *)
Record StageExpr := mkExpr { e_idx : list Z; e_loads : list Load }.

(** The definition nodes handed over by the front end
    ([soda.grammar.Input], [Local], [Output]). *)
Inductive NodeKind := KInput | KLocal | KOutput.

Record Node := mkNode {
  n_kind : NodeKind;
  n_name : string;
  n_type : string;
  n_chan : Z;
  n_expr : list StageExpr;
  n_preserve_border : option string
}.

(** [class Tensor].  Objects are identified with their names: [parent] and
    the elements of [children] are names of stages, [border] holds the names
    of the stages a preserved border is sent to. *)
Record Tensor := mkTensor {
  t_name : string;
  t_type : string;
  t_chan : Z;
  t_idx : option (list Z);
  t_parent : option string;
  t_children : list string;
  t_offset : Z;
  t_border : option (list string)
}.

(** [class Stage].  [Stage.name] is the name of the output tensor, which is
    also the key of the stage in [Stencil.stages]. *)
Record Stage := mkStage {
  s_name : string;
  s_window : gmap string (list (list Z));
  s_offset : gmap string (list Z);
  s_delay : gmap string Z;
  s_expr : list StageExpr;
  s_inputs : list string;
  s_border : option string
}.

Definition set_offset (off : Z) (t : Tensor) : Tensor :=
  mkTensor (t_name t) (t_type t) (t_chan t) (t_idx t) (t_parent t)
           (t_children t) off (t_border t).

Definition set_parent (p : string) (t : Tensor) : Tensor :=
  mkTensor (t_name t) (t_type t) (t_chan t) (t_idx t) (Some p)
           (t_children t) (t_offset t) (t_border t).

(** [b.children.add(stage)] on a set: no effect when already present. *)
Definition add_child (c : string) (t : Tensor) : Tensor :=
  mkTensor (t_name t) (t_type t) (t_chan t) (t_idx t) (t_parent t)
           (if bool_decide (c ∈ t_children t) then t_children t
            else t_children t ++ [c])
           (t_offset t) (t_border t).

Definition set_delay (d : gmap string Z) (s : Stage) : Stage :=
  mkStage (s_name s) (s_window s) (s_offset s) d (s_expr s) (s_inputs s)
          (s_border s).

(** [Tensor.__init__(node)]. *)
Definition Tensor_init (node : Node) : result Tensor :=
  idx ← match n_kind node with
        | KInput => Ok None
        | KLocal | KOutput =>
            e0 ← of_option StopIteration (head (n_expr node));
            if forallb (λ e, bool_decide (e_idx e = e_idx e0)) (n_expr node)
            then Ok (Some (e_idx e0))
            else Raise (InternalError "Normalization went wrong")
        end;
  Ok (mkTensor (n_name node) (n_type node) (n_chan node) idx None [] 0 None).

(** ** Construction-time checks of [Stencil.__init__] *)

(** The keyword arguments the constructor of [Stencil] pops. *)
Record Args := mkArgs {
  a_iterate : Z;
  a_border : string;
  a_cluster : string;
  a_burst_width : Z;
  a_dram_bank : Z;
  a_app_name : string;
  a_tile_size : list Z;
  a_unroll_factor : Z;
  a_replication_factor : Z;
  a_dram_separate : bool;
  a_dim : Z;
  a_extra_params : list string;
  a_input : Node;
  a_output : Node;
  a_locals : list Node
}.

(** Lines 119-121 and 135-140: the iteration count and the DRAM bank split.
    Returns the bank count to use. *)
Definition check_platform (a : Args) : result Z :=
  if bool_decide (a_iterate a < 1)
  then Raise (SemanticError ("cannot iterate " +:+ pretty (a_iterate a) +:+ " times"))
  else if a_dram_separate a
  then (if bool_decide (a_dram_bank a `mod` 2 ≠ 0)
        then Raise (SystemExit (-1))
        else Ok (a_dram_bank a `div` 2))
  else Ok (a_dram_bank a).

Definition type_mismatch_msg (ti to : string) : string :=
  "input must have the same type as output if iterate > 1 times, current input has type "
  +:+ ti +:+ " but output has type " +:+ to.

Definition chan_mismatch_msg (ci co : Z) : string :=
  "input must have the same number of channel as output if iterate > 1 times, current input has "
  +:+ pretty ci +:+ " chanels but output has " +:+ pretty co +:+ " channels".

(** Lines 148-152: with [iterate > 1] the input and the output must agree on
    scalar type and channel count. *)
Definition check_iterate (a : Args) : result unit :=
  if bool_decide (1 < a_iterate a)
  then
    if bool_decide (n_type (a_input a) ≠ n_type (a_output a))
    then Raise (SemanticError
                  (type_mismatch_msg (n_type (a_input a)) (n_type (a_output a))))
    else if bool_decide (n_chan (a_input a) ≠ n_chan (a_output a))
    then Raise (SemanticError
                  (chan_mismatch_msg (n_chan (a_input a)) (n_chan (a_output a))))
    else Ok ()
  else Ok ().

(** *** Iteration expansion (lines 155-182) *)

(** [NameFromIter = lambda n, i: n+'_iter%d' % i if i > 0 else n]. *)
Definition NameFromIter (n : string) (i : Z) : string :=
  if bool_decide (0 < i) then n +:+ "_iter" +:+ pretty i else n.

(** Modelled from the spec: [node.MutateLoad(cb)] of [soda.grammar], which
    is not part of the sources at hand; it rewrites the name of every load
    of the definition through the callback. *)
Definition MutateLoad (cb : string → string) (n : Node) : Node :=
  mkNode (n_kind n) (n_name n) (n_type n) (n_chan n)
    ((λ e, mkExpr (e_idx e)
             ((λ l, mkLoad (cb (l_name l)) (l_idx l)) <$> e_loads e))
       <$> n_expr n)
    (n_preserve_border n).

(** Modelled from the spec: [node.MutateStore(cb)] of [soda.grammar]; it
    rewrites the name the definition stores to. *)
Definition MutateStore (cb : string → string) (n : Node) : Node :=
  mkNode (n_kind n) (cb (n_name n)) (n_type n) (n_chan n) (n_expr n)
    (n_preserve_border n).

(** Modelled from the spec: [node.PreserveBorder(src)] of [soda.grammar];
    it tags the definition with the tensor its border is preserved from. *)
Definition PreserveBorder (src : string) (n : Node) : Node :=
  mkNode (n_kind n) (n_name n) (n_type n) (n_chan n) (n_expr n) (Some src).

(** Modelled from the spec: [soda.grammar.Local(output_node=...)], the
    output definition cloned as a local one. *)
Definition Local_of_output (n : Node) : Node :=
  mkNode KLocal (n_name n) (n_type n) (n_chan n) (n_expr n)
    (n_preserve_border n).

(** Modelled from the spec: [node.GetLoads()] of [soda.grammar], every load
    of every expression alternative. *)
Definition GetLoads (n : Node) : list Load :=
  concat (e_loads <$> n_expr n).

Definition is_local_name (a : Args) (n : string) : bool :=
  bool_decide (n ∈ n_name <$> a_locals a).

(** The body of [for iteration in range(1, self.iterate)]: the new locals of
    one iteration and the preserved borders it records. *)
Definition expand_iteration (a : Args) (iteration : Z)
  : list Node * list (string * string) :=
  let preserve := bool_decide (a_border a = "preserve") in
  let input_name := n_name (a_input a) in
  let OutputLoadCallBack n :=
    if bool_decide (n = input_name) || is_local_name a n
    then NameFromIter n (iteration - 1) else n in
  let LocalLoadCallBack n :=
    if bool_decide (n = input_name) then NameFromIter n iteration
    else if is_local_name a n then NameFromIter n iteration else n in
  let new_local0 :=
    MutateStore (λ _, NameFromIter input_name iteration)
      (MutateLoad OutputLoadCallBack (Local_of_output (a_output a))) in
  let border_from := NameFromIter input_name (iteration - 1) in
  let new_local := if preserve then PreserveBorder border_from new_local0
                   else new_local0 in
  (new_local ::
     ((λ l, MutateStore (λ n, NameFromIter n iteration)
              (MutateLoad LocalLoadCallBack l)) <$> a_locals a),
   if preserve then [(n_name new_local, border_from)] else []).

(** Lines 155-182: all locals (the given ones followed by the generated
    ones), the rewritten output definition and the preserved borders as a
    list of [(dst, src)] pairs. *)
Definition expand_iterations (a : Args)
  : list Node * Node * list (string * string) :=
  let preserve := bool_decide (a_border a = "preserve") in
  let its := expand_iteration a <$> seqZ 1 (a_iterate a - 1) in
  let new_locals := concat (fst <$> its) in
  let borders := concat (snd <$> its) in
  let border_from := NameFromIter (n_name (a_input a)) (a_iterate a - 1) in
  let output0 := if preserve then PreserveBorder border_from (a_output a)
                 else a_output a in
  let output1 := MutateLoad (λ n, NameFromIter n (a_iterate a - 1)) output0 in
  (a_locals a ++ new_locals, output1,
   if preserve then borders ++ [(n_name (a_output a), border_from)]
   else borders).

(** *** Tensor creation and the name checks (lines 203-213) *)

(** The part of [self] that lines 203-213 read and write: [self.tensors],
    and [self.input] / [self.output], which are unset until assigned. *)
Record Partial := mkPartial {
  p_tensors : gmap string Tensor;
  p_input : option Tensor;
  p_output : option Tensor
}.

(** Reading [self.input] (resp. [self.output]): an [AttributeError] while
    the attribute has not been assigned. *)
Definition get_input (p : Partial) : result Tensor :=
  of_option (AttributeError "'Stencil' object has no attribute 'input'")
            (p_input p).

Definition get_output (p : Partial) : result Tensor :=
  of_option (AttributeError "'Stencil' object has no attribute 'output'")
            (p_output p).

Definition make_tensors (a : Args) (locals : list Node) (output_node : Node)
  : result Partial :=
  let local_names := n_name <$> a_locals a in
  tensors ← rfold (λ m i, t ← Tensor_init i; Ok (<[n_name i := t]> m))
                  locals ∅;
  let self0 := mkPartial tensors None None in
  self1 ← (if bool_decide (n_name (a_input a) ∈ local_names)
           then t ← get_input self0;
                Raise (SemanticError
                         ("input name conflict with tensor: " +:+ t_name t))
           else t ← Tensor_init (a_input a);
                Ok (mkPartial (<[t_name t := t]> (p_tensors self0))
                              (Some t) (p_output self0)));
  if bool_decide (n_name output_node ∈ local_names)
  then t ← get_output self1;
       Raise (SemanticError
                ("output name conflict with tensor: " +:+ t_name t))
  else t ← Tensor_init output_node;
       Ok (mkPartial (<[t_name t := t]> (p_tensors self1))
                     (p_input self1) (Some t)).

(** ** Graph assembly (lines 215-254) *)

(** The names [{x.name for x in node.GetLoads() if x.name not in
    self.extra_params}], in the order the set is iterated. *)
Definition load_names (extra_params : list string) (node : Node) : list string :=
  remove_dups (filter (λ n, n ∉ extra_params) (l_name <$> GetLoads node)).

(** [GetParentTensorsFor(node)]: the keys of the returned dict; the values
    are the tensor objects of those names, looked up in [self.tensors]. *)
Definition GetParentTensorsFor (tensors : gmap string Tensor)
    (extra_params : list string) (node : Node) : result (list string) :=
  rmap (λ x, _ ← of_option (KeyError x) (tensors !! x); Ok x)
       (load_names extra_params node).

(** The order [sorted(..., key=...)] compares keyed elements by. *)
Definition key_le (a b : Z * list Z) : Prop := a.1 ≤ b.1.

Global Instance key_le_dec a b : Decision (key_le a b) := decide (a.1 ≤ b.1).

(** [sorted(idxs, key=lambda x: Serialize(x, tile_size))]. *)
Definition sorted_by_Serialize (tile_size : list Z) (idxs : list (list Z))
  : result (list (list Z)) :=
  keyed ← rmap (λ x, k ← Serialize x tile_size; Ok (k, x)) idxs;
  Ok (snd <$> merge_sort key_le keyed).

(** [GetWindowFor(node)]. *)
Definition GetWindowFor (tile_size : list Z) (extra_params : list string)
    (node : Node) : result (gmap string (list (list Z))) :=
  let loads := GetLoads node in
  rfold (λ m name,
           w ← sorted_by_Serialize tile_size
                 (remove_dups
                    (l_idx <$> filter (λ l, l_name l = name) loads));
           Ok (<[name := w]> m))
        (load_names extra_params node) ∅.

(** [GetExprFor(node)]. *)
Definition GetExprFor (node : Node) : result (list StageExpr) :=
  match n_kind node with
  | KOutput | KLocal => Ok (n_expr node)
  | KInput => Raise (SemanticError "cannot get expression for Input")
  end.

(** [{n: SerializeIterative(w, self.tile_size) for n, w in window.items()}]. *)
Definition serialize_window (tile_size : list Z)
    (window : gmap string (list (list Z))) : result (gmap string (list Z)) :=
  rfold (λ m nw, o ← SerializeIterative nw.2 tile_size; Ok (<[nw.1 := o]> m))
        (map_to_list window) ∅.

(** The [Stage(...)] built for a local or output definition. *)
Definition make_stage (tile_size : list Z) (extra_params : list string)
    (tensors : gmap string Tensor) (node : Node) : result Stage :=
  parent_tensors ← GetParentTensorsFor tensors extra_params node;
  window ← GetWindowFor tile_size extra_params node;
  offset ← serialize_window tile_size window;
  expr ← GetExprFor node;
  Ok (mkStage (n_name node) window offset ∅ expr parent_tensors None).

(** One round of lines 216-230 (resp. 232-244): create the stage of a
    definition and wire it to its output and input tensors. *)
Definition add_stage (tile_size : list Z) (extra_params : list string)
    (g : gmap string Tensor * gmap string Stage) (node : Node)
  : result (gmap string Tensor * gmap string Stage) :=
  _ ← of_option (KeyError (n_name node)) (g.1 !! n_name node);
  this_stage ← make_stage tile_size extra_params g.1 node;
  let tensors1 := alter (set_parent (n_name node)) (n_name node) g.1 in
  let tensors2 := foldl (λ ts b, alter (add_child (n_name node)) b ts)
                        tensors1 (s_inputs this_stage) in
  Ok (tensors2, <[n_name node := this_stage]> g.2).

(** [preserved_borders.setdefault(dst, set()).add(src)] on the dict of
    sets, kept as an association list. *)
Fixpoint border_add (dst src : string) (l : list (string * list string))
  : list (string * list string) :=
  match l with
  | [] => [(dst, [src])]
  | (d, srcs) :: l' =>
      if bool_decide (d = dst)
      then (d, if bool_decide (src ∈ srcs) then srcs else srcs ++ [src]) :: l'
      else (d, srcs) :: border_add dst src l'
  end.

Definition set_t_border (b : option (list string)) (t : Tensor) : Tensor :=
  mkTensor (t_name t) (t_type t) (t_chan t) (t_idx t) (t_parent t)
           (t_children t) (t_offset t) b.

Definition set_s_border (b : option string) (s : Stage) : Stage :=
  mkStage (s_name s) (s_window s) (s_offset s) (s_delay s) (s_expr s)
          (s_inputs s) b.

(** Lines 247-254.  The [if] statements sit after the inner [for], so they
    use the last [src] that loop visited. *)
Definition resolve_borders (g : gmap string Tensor * gmap string Stage)
    (preserved_borders : list (string * list string))
  : result (gmap string Tensor * gmap string Stage) :=
  rfold (λ g ds,
           src ← of_option (InternalError "unbound src") (last ds.2);
           t ← of_option (KeyError src) (g.1 !! src);
           s ← of_option (KeyError ds.1) (g.2 !! ds.1);
           let stages_to := default [] (t_border t) in
           let t' := set_t_border
                       (Some (if bool_decide (ds.1 ∈ stages_to) then stages_to
                              else stages_to ++ [ds.1])) t in
           let s' := match s_border s with
                     | None => set_s_border (Some src) s
                     | Some _ => s
                     end in
           Ok (<[src := t']> g.1, <[ds.1 := s']> g.2))
        preserved_borders g.

(** ** The causal scheduler (lines 256-363) *)

Record Sched := mkSched {
  sc_tensors : gmap string Tensor;
  sc_stages : gmap string Stage;
  sc_queue : list string;
  sc_processed : gset string;
  sc_chrono : list string
}.

Definition Zmax_list (x : Z) (l : list Z) : Z := foldl Z.max x l.
Definition Zmin_list (x : Z) (l : list Z) : Z := foldl Z.min x l.

(** [max(l)] and [min(l)] of a list: a [ValueError] when it is empty. *)
Definition py_max (l : list Z) : result Z :=
  match l with
  | [] => Raise ValueError
  | x :: l' => Ok (Zmax_list x l')
  end.

Definition py_min (l : list Z) : result Z :=
  match l with
  | [] => Raise ValueError
  | x :: l' => Ok (Zmin_list x l')
  end.

(** The [loads] dictionary [Sync] builds for its log messages (lines
    284-294): per loaded name the serialized load indices, reduced to
    [[stage_offset - max, stage_offset - min]]. *)
Definition Sync_loads (tile_size : list Z) (stage : Stage) (stage_offset : Z)
  : result (gmap string (list Z)) :=
  let loads : gmap string (list (list Z)) :=
    foldl (λ m l, <[l_name l := default [] (m !! l_name l) ++ [l_idx l]]> m)
          ∅ (concat (e_loads <$> s_expr stage)) in
  rfold (λ m nl,
           l ← SerializeIterative nl.2 tile_size;
           hi ← py_max l;
           lo ← py_min l;
           Ok (<[nl.1 := match l with
                         | [_] => [stage_offset - lo]
                         | _ => [stage_offset - hi; stage_offset - lo]
                         end]> m))
        (map_to_list loads) ∅.

(** [Serialize(stage.expr[0].idx, self.tile_size)], the store offset of a
    stage. *)
Definition stage_store_offset (tile_size : list Z) (stage : Stage) : result Z :=
  e0 ← of_option IndexError (head (s_expr stage));
  Serialize (e_idx e0) tile_size.

(** [Sync(stage, offset)] (lines 279-320). *)
Definition Sync (tile_size : list Z) (tensors : gmap string Tensor)
    (stage : Stage) (offset : Z) : result Z :=
  stage_offset ← stage_store_offset tile_size stage;
  loads ← Sync_loads tile_size stage stage_offset;
  rfold (λ offset x,
           tensor ← of_option (KeyError x) (tensors !! x);
           offs ← of_option (KeyError x) (s_offset stage !! x);
           stage_distance ← of_option IndexError (last offs);
           l ← of_option (KeyError x) (loads !! x);
           _ ← of_option IndexError (head l);
           let tensor_offset := t_offset tensor + stage_distance - stage_offset in
           Ok (if bool_decide (offset < tensor_offset) then tensor_offset
               else offset))
        (s_inputs stage) offset.

(** The [# add delay] loop (lines 328-348). *)
Definition add_delay (tensors : gmap string Tensor) (stage : Stage)
    (stage_offset output_offset : Z) : result (gmap string Z) :=
  rfold (λ dl x,
           xt ← of_option (KeyError x) (tensors !! x);
           offs ← of_option (KeyError x) (s_offset stage !! x);
           lst ← of_option IndexError (last offs);
           let delay := output_offset - (t_offset xt + lst - stage_offset) in
           Ok (<[x := Z.max delay 0]> dl))
        (s_inputs stage) (s_delay stage).

(** The body of [for s in b.children] (lines 266-363). *)
Definition visit_stage (tile_size : list Z) (st : Sched) (sn : string)
  : result Sched :=
  s ← of_option (KeyError sn) (sc_stages st !! sn);
  if bool_decide (Forall (λ x, x ∈ sc_processed st) (s_inputs s))
     && bool_decide (sn ∉ sc_processed st)
  then
    stage_offset ← stage_store_offset tile_size s;
    out ← of_option (KeyError sn) (sc_tensors st !! sn);
    new_offset ← Sync tile_size (sc_tensors st) s (t_offset out);
    let tensors' := <[sn := set_offset new_offset out]> (sc_tensors st) in
    delay ← add_delay tensors' s stage_offset new_offset;
    Ok (mkSched tensors' (<[sn := set_delay delay s]> (sc_stages st))
                (sc_queue st ++ [sn]) ({[sn]} ∪ sc_processed st)
                (sc_chrono st ++ [sn]))
  else
    Ok (mkSched (sc_tensors st) (sc_stages st)
                (sc_queue st ++ filter (λ x, x ∉ sc_processed st) (s_inputs s))
                (sc_processed st) (sc_chrono st)).

(** One round of the [while] loop: pop a tensor and visit its children. *)
Definition visit_tensor (tile_size : list Z) (st : Sched) (bn : string)
  : result Sched :=
  b ← of_option (KeyError bn) (sc_tensors st !! bn);
  rfold (visit_stage tile_size) (t_children b) st.

(** [while len(processing_queue) > 0].  The loop need not terminate (a
    tensor can be re-queued for ever), hence the fuel: [None] means the
    queue was still non-empty after [fuel] rounds. *)
Fixpoint schedule_loop (fuel : nat) (tile_size : list Z) (st : Sched)
  : option (result Sched) :=
  match sc_queue st with
  | [] => Some (Ok st)
  | bn :: q =>
      match fuel with
      | O => None
      | S fuel' =>
          match visit_tensor tile_size
                  (mkSched (sc_tensors st) (sc_stages st) q
                           (sc_processed st) (sc_chrono st)) bn with
          | Raise e => Some (Raise e)
          | Ok st' => schedule_loop fuel' tile_size st'
          end
      end
  end.

(** The state the loop starts from (lines 258-260). *)
Definition schedule_init (input : string) (tensors : gmap string Tensor)
    (stages : gmap string Stage) : Sched :=
  mkSched tensors stages [input] {[input]} [input].

Definition schedule (fuel : nat) (tile_size : list Z) (input : string)
    (tensors : gmap string Tensor) (stages : gmap string Stage)
  : option (result Sched) :=
  schedule_loop fuel tile_size (schedule_init input tensors stages).

(** ** The constructed [Stencil] *)

Record Stencil := mkStencil {
  iterate : Z;
  tile_size : list Z;
  unroll_factor : Z;
  replication_factor : Z;
  dim : Z;
  dram_bank : Z;
  extra_params : list string;
  input : string;
  output : string;
  tensors : gmap string Tensor;
  stages : gmap string Stage;
  chronological_tensors : list string
}.

(** Lines 119-254 of [Stencil.__init__]: checks, iteration expansion,
    tensors, stages and borders. *)
Definition Stencil_assemble (a : Args)
  : result (Z * Partial * (gmap string Tensor * gmap string Stage)) :=
  bank ← check_platform a;
  _ ← check_iterate a;
  let '(locals, output_node, borders) := expand_iterations a in
  self ← make_tensors a locals output_node;
  g ← rfold (add_stage (a_tile_size a) (a_extra_params a))
            (locals ++ [output_node]) (p_tensors self, ∅);
  g' ← resolve_borders g (foldl (λ l ds, border_add ds.1 ds.2 l) [] borders);
  Ok (bank, self, g').

(** [Stencil.__init__] up to the end of the scheduling loop (line 363).
    The statements after it (border windows under [border == 'preserve'],
    pixel widths, the dataflow graph) leave tensor offsets,
    [chronological_tensors] and the delay entries written by the scheduler
    as they are. *)
Definition Stencil_init (fuel : nat) (a : Args) : option (result Stencil) :=
  match Stencil_assemble a with
  | Raise e => Some (Raise e)
  | Ok (bank, self, g) =>
      match schedule fuel (a_tile_size a) (n_name (a_input a)) g.1 g.2 with
      | None => None
      | Some (Raise e) => Some (Raise e)
      | Some (Ok st) =>
          Some (Ok (mkStencil (a_iterate a) (a_tile_size a)
                      (a_unroll_factor a) (a_replication_factor a) (a_dim a)
                      bank (a_extra_params a) (n_name (a_input a))
                      (n_name (a_output a)) (sc_tensors st) (sc_stages st)
                      (sc_chrono st)))
      end
  end.

(** [GetProducerTensors()] and [get_producer_tensors()]: the tensors with at
    least one child. *)
Definition GetProducerTensors (st : Stencil) : list Tensor :=
  filter (λ b, t_children b ≠ []) (map_to_list (tensors st)).*2.

(** The stage objects in [b.children]. *)
Definition children_of (st : Stencil) (b : Tensor) : result (list Stage) :=
  rmap (λ n, of_option (KeyError n) (stages st !! n)) (t_children b).

(** ** Reuse chains, buffers and points (unrolled variants) *)

(** [set.union] applied to an unpacked list of sets: a [TypeError] when the
    list is empty. *)
Definition py_set_union (sets : list (gset Z)) : result (gset Z) :=
  match sets with
  | [] => Raise TypeError
  | _ => Ok (⋃ sets)
  end.

(** [{max(offsets)+i-x+s.delay[b.name] for x in offsets}]: the element
    expression is evaluated once per [x]. *)
Definition lane_set (offsets : list Z) (delay : result Z) (i : Z)
  : result (gset Z) :=
  rfold (λ acc x, m ← py_max offsets; d ← delay; Ok (acc ∪ {[m + i - x + d]}))
        offsets ∅.

Definition stage_delay (b_name : string) (s : Stage) : result Z :=
  of_option (KeyError b_name) (s_delay s !! b_name).

(** The contribution of one consuming stage to [A_dag] in [_GetChains]. *)
Definition stage_A_dag (tile_size : list Z) (b_name : string) (U : Z)
    (s : Stage) : result (gset Z) :=
  w ← of_option (KeyError b_name) (s_window s !! b_name);
  offsets ← SerializeIterative w tile_size;
  sets ← rmap (lane_set offsets (stage_delay b_name s)) (seqZ 0 U);
  py_set_union sets.

(** [A_dag] of [_GetChains] (line 655). *)
Definition A_dag (tile_size : list Z) (b_name : string)
    (children : list Stage) (U : Z) : result (gset Z) :=
  sets ← rmap (stage_A_dag tile_size b_name U) children;
  py_set_union sets.

(** [sorted(...)] on integers. *)
Definition py_sorted (l : list Z) : list Z := merge_sort Z.le l.

(** [sorted(x for x in A_dag if x % U == i)]. *)
Definition chain_of (A : gset Z) (U i : Z) : list Z :=
  py_sorted (filter (λ x, x `mod` U = i) (elements A)).

(** [sum(reversed([((chain i),) for i in range(U)]), ())] (line 657). *)
Definition chains_of (A : gset Z) (U : Z) : list (list Z) :=
  reverse (chain_of A U <$> seqZ 0 U).

(** [_GetChains(tile_size, b, unroll_factor)]. *)
Definition _GetChains (tile_size : list Z) (b_name : string)
    (children : list Stage) (U : Z) : result (list (list Z)) :=
  A ← A_dag tile_size b_name children U;
  Ok (chains_of A U).

(** [(chain[j], chain[j+1]) for j in range(len(chain)-1)]. *)
Definition chain_links (chain : list Z) : list (Z * Z) :=
  zip chain (tail chain).

(** The reuse buffer [[length, (start, end), ...]] as a pair. *)
Definition Buffer : Type := Z * list (Z * Z).

(** The loop of [_GetBuffer]: [chain[0]] is an [IndexError] on an empty
    chain. *)
Definition buffer_step (acc : list (Z * Z) * list Z) (chain : list Z)
  : result (list (Z * Z) * list Z) :=
  c0 ← of_option IndexError (head chain);
  Ok (acc.1 ++ (c0, c0) :: chain_links chain, acc.2 ++ c0 :: tail chain).

(** [_GetBuffer(tile_size, b, unroll_factor)]. *)
Definition _GetBuffer (tile_size : list Z) (b_name : string)
    (children : list Stage) (U : Z) : result Buffer :=
  chains ← _GetChains tile_size b_name children U;
  acc ← rfold buffer_step chains ([], []);
  m ← py_max acc.2;
  Ok (m + 1, acc.1).

(** The body of [for start, end in reuse_buffer[1:]] in [GetReuseBuffers]
    (lines 443-449), on the pair of [first] and [reuse_buffer_length]. *)
Definition length_step (U : Z) (st : list bool * gmap Z Z) (link : Z * Z)
  : result (list bool * gmap Z Z) :=
  if bool_decide (U = 0) then Raise ZeroDivisionError
  else
    let r := Z.to_nat (link.1 `mod` U) in
    f ← of_option IndexError (st.1 !! r);
    if f : bool
    then
      if bool_decide (link.1 >= U)
      then Ok (<[r := false]> st.1, <[link.2 := link.2 `div` U]> st.2)
      else Ok (<[r := false]> st.1,
               <[link.2 := (link.2 - link.1) `div` U]> st.2)
    else Ok (st.1, <[link.2 := (link.2 - link.1) `div` U]> st.2).

(** [reuse_buffer_lengths[b.name]] for one reuse buffer. *)
Definition buffer_lengths (U : Z) (buf : Buffer) : result (gmap Z Z) :=
  st ← rfold (length_step U) buf.2 (replicate (Z.to_nat U) true, ∅);
  Ok st.2.

(** One round of the loop of [GetReuseBuffers] (lines 438-449): the reuse
    buffer of [b] and the lengths of its taps. *)
Definition buffer_of (st : Stencil) (b : Tensor) : result (Buffer * gmap Z Z) :=
  children ← children_of st b;
  buf ← _GetBuffer (tile_size st) (t_name b) children (unroll_factor st);
  len ← buffer_lengths (unroll_factor st) buf;
  Ok (buf, len).

Definition reuse_buffers_step (st : Stencil)
    (acc : gmap string Buffer * gmap string (gmap Z Z)) (b : Tensor)
  : result (gmap string Buffer * gmap string (gmap Z Z)) :=
  bl ← buffer_of st b;
  Ok (<[t_name b := bl.1]> acc.1, <[t_name b := bl.2]> acc.2).

(** [GetReuseBuffers()]: [self.reuse_buffers] and
    [self.reuse_buffer_lengths]. *)
Definition GetReuseBuffers (st : Stencil)
  : result (gmap string Buffer * gmap string (gmap Z Z)) :=
  rfold (reuse_buffers_step st) (GetProducerTensors st) (∅, ∅).

(** [{name: {offset: {unroll_index: point_index}}}]. *)
Abbreviation Points := (gmap Z (gmap Z nat)).

(** [all_points[s.name]] as filled by [_GetPoints] for one stage. *)
Definition stage_points (tile_size : list Z) (b_name : string) (U : Z)
    (s : Stage) : result Points :=
  w ← of_option (KeyError b_name) (s_window s !! b_name);
  offsets ← SerializeIterative w tile_size;
  max_offset ← py_max offsets;
  rfold (λ m unroll_index,
           rfold (λ m io,
                    d ← stage_delay b_name s;
                    let tap := max_offset - io.2 + d + unroll_index in
                    Ok (<[tap := <[U - 1 - unroll_index := io.1]>
                                   (default ∅ (m !! tap))]> m))
                 (imap pair offsets) m)
        (seqZ 0 U) ∅.

(** [_GetPoints(tile_size, b, unroll_factor)]. *)
Definition _GetPoints (tile_size : list Z) (b_name : string)
    (children : list Stage) (U : Z) : result (gmap string Points) :=
  rfold (λ ap s, p ← stage_points tile_size b_name U s; Ok (<[s_name s := p]> ap))
        children ∅.

(** [all_points[b.name]] (line 456). *)
Definition points_of (st : Stencil) (b : Tensor) : result (gmap string Points) :=
  children ← children_of st b;
  _GetPoints (tile_size st) (t_name b) children (unroll_factor st).

Definition all_points_step (st : Stencil)
    (acc : gmap string (gmap string Points)) (b : Tensor)
  : result (gmap string (gmap string Points)) :=
  p ← points_of st b;
  Ok (<[t_name b := p]> acc).

(** [GetAllPoints()]. *)
Definition GetAllPoints (st : Stencil)
  : result (gmap string (gmap string Points)) :=
  rfold (all_points_step st) (GetProducerTensors st) ∅.

(** [next_fifo[name]] for one reuse buffer (lines 464-466). *)
Definition next_fifo_of (buf : Buffer) : gmap Z Z :=
  foldl (λ m link, if bool_decide (link.1 < link.2) then <[link.1 := link.2]> m
                   else m) ∅ buf.2.

(** [GetNextFIFO()]. *)
Definition GetNextFIFO (st : Stencil) : result (gmap string (gmap Z Z)) :=
  rbind (GetReuseBuffers st)
        (λ bl, Ok (next_fifo_of <$> (bl.1 : gmap string Buffer))).

(** ** Replicated variants *)

(** [A_dag] of [_get_replicated_reuse_chains] (lines 693-697). *)
Definition replicated_A_dag (tile_size : list Z) (tensor_name : string)
    (children : list Stage) : result (gset Z) :=
  rfold (λ A stage,
           w ← of_option (KeyError tensor_name) (s_window stage !! tensor_name);
           offsets ← SerializeIterative w tile_size;
           new ← rfold (λ acc offset,
                          m ← py_max offsets;
                          d ← stage_delay tensor_name stage;
                          Ok (acc ∪ {[m - offset + d]}))
                       offsets ∅;
           Ok (A ∪ new))
        children ∅.

(** [_get_replicated_reuse_chains(tile_size, tensor, replication_factor)]. *)
Definition _get_replicated_reuse_chains (tile_size : list Z)
    (tensor_name : string) (children : list Stage) (R : Z)
  : result (list (list Z)) :=
  A ← replicated_A_dag tile_size tensor_name children;
  Ok (chains_of A R).

(** [all_points[stage.name]] of [_get_replicated_points] for one stage:
    [{offset: point_index}]. *)
Definition replicated_stage_points (tile_size : list Z) (tensor_name : string)
    (stage : Stage) : result (gmap Z nat) :=
  w ← of_option (KeyError tensor_name) (s_window stage !! tensor_name);
  offsets ← SerializeIterative w tile_size;
  max_offset ← py_max offsets;
  rfold (λ m io,
           d ← stage_delay tensor_name stage;
           Ok (<[max_offset - io.2 + d := io.1]> m))
        (imap pair offsets) ∅.

(** [_get_replicated_points(tile_size, tensor)]. *)
Definition _get_replicated_points (tile_size : list Z) (tensor_name : string)
    (children : list Stage) : result (gmap string (gmap Z nat)) :=
  rfold (λ ap s, p ← replicated_stage_points tile_size tensor_name s;
                 Ok (<[s_name s := p]> ap))
        children ∅.

(** The loop of [_get_replicated_reuse_buffer]: empty chains are skipped. *)
Definition replicated_buffer_step (acc : list (Z * Z) * list Z)
    (chain : list Z) : list (Z * Z) * list Z :=
  match chain with
  | [] => acc
  | c0 :: rest => (acc.1 ++ (c0, c0) :: chain_links chain, acc.2 ++ c0 :: rest)
  end.

(** [_get_replicated_reuse_buffer(tile_size, tensor, replication_factor)]. *)
Definition _get_replicated_reuse_buffer (tile_size : list Z)
    (tensor_name : string) (children : list Stage) (R : Z) : result Buffer :=
  chains ← _get_replicated_reuse_chains tile_size tensor_name children R;
  let acc := foldl replicated_buffer_step ([], []) chains in
  m ← py_max acc.2;
  Ok (m + 1, acc.1).

(** ** Forwarding descriptors *)

(** The temporary parameter of a descriptor: the reuse-buffer length, or the
    ['%d-%d'] string of the border case. *)
Inductive TempParam :=
  | TempLength (n : Z)
  | TempString (s : string).

(** [[func_name, outputs, inputs, params, temp_param]]. *)
Record Forwarding := mkForwarding {
  f_func_name : string;
  f_outputs : list string;
  f_inputs : list string;
  f_params : list string;
  f_temp_param : option TempParam
}.

(** ['/* output */ from_%s_to_%s_param_%d_chan_%%d_pe_%d']. *)
Definition pe_port (src_name dst_name : string) (point_index : nat)
    (unroll_index : Z) : string :=
  "/* output */ from_" +:+ src_name +:+ "_to_" +:+ dst_name +:+ "_param_"
  +:+ pretty point_index +:+ "_chan_%d_pe_" +:+ pretty unroll_index.

(** ['/* output */ %s_offset_%d_chan_%%d'] and its input counterpart. *)
Definition offset_port (direction src_name : string) (offset : Z) : string :=
  direction +:+ src_name +:+ "_offset_" +:+ pretty offset +:+ "_chan_%d".

(** [tensor.PreserveBorderTo()] used as a condition. *)
Definition PreserveBorderTo_true (t : Tensor) : bool :=
  match t_border t with
  | Some (_ :: _) => true
  | _ => false
  end.

(** [tensor.IsInput()]: no parent, or a parent stage without inputs. *)
Definition Tensor_IsInput (stages : gmap string Stage) (t : Tensor)
  : result bool :=
  match t_parent t with
  | None => Ok true
  | Some p => s ← of_option (KeyError p) (stages !! p);
              Ok (bool_decide (s_inputs s = []))
  end.

Section forwardings.

(** Lines 547-591, the border case of a descriptor: from the aggregated
    border window of the source tensor it computes the ['%d-%d'] length
    string, the border input ports and the bound / size parameters.  It
    reads the graph and the leftover [unroll_index]; it does not touch
    the output ports. *)
Variable border_part :
  Stencil → string → Z → Z → result (string * list string * list string).

(** The body of [for offset, points in dst_point_dicts.items()] (lines
    519-595). *)
Definition forwarding_step (st : Stencil) (src_name dst_name : string)
    (next_fifo lengths : gmap Z Z)
    (fw : gmap Z Forwarding) (op : Z * gmap Z nat)
  : result (gmap Z Forwarding) :=
  let d := default (mkForwarding EmptyString [] [] [] None) (fw !! op.1) in
  let outputs :=
    foldl (λ outs up, pe_port src_name dst_name up.2 up.1 :: outs)
          (f_outputs d) (map_to_list op.2) in
  if bool_decide (f_func_name d ≠ EmptyString)
  then Ok (<[op.1 := mkForwarding (f_func_name d) outputs (f_inputs d)
                       (f_params d) (f_temp_param d)]> fw)
  else
    let outputs' :=
      match next_fifo !! op.1 with
      | Some nxt => outputs ++ [offset_port "/* output */ " src_name nxt]
      | None => outputs
      end in
    let inputs := f_inputs d ++ [offset_port "/*  input */ " src_name op.1] in
    len ← of_option (KeyError src_name) (lengths !! op.1);
    src ← of_option (KeyError src_name) (tensors st !! src_name);
    is_input ← (if bool_decide (op.1 < unroll_factor st)
                   && PreserveBorderTo_true src
                then Tensor_IsInput (stages st) src
                else Ok true);
    if is_input : bool
    then Ok (<[op.1 := mkForwarding "forward" outputs' inputs
                         (f_params d ++ ["/*  param */ epoch_num"])
                         (Some (TempLength len))]> fw)
    else
      unroll_index ← of_option (InternalError "unroll_index unbound")
                        (last (map_to_list op.2).*1);
      bp ← border_part st src_name op.1 unroll_index;
      Ok (<[op.1 := mkForwarding ("forward" +:+ "_" +:+ src_name) outputs'
                      (inputs ++ bp.1.2)
                      (f_params d ++ bp.2 ++ ["/*  param */ epoch_num"])
                      (Some (TempString bp.1.1))]> fw).

(** The two nested loops of [GetForwardings] over [dsts]. *)
Definition forwardings_of (st : Stencil) (src_name : string)
    (dsts : gmap string Points) (next_fifo lengths : gmap Z Z)
  : result (gmap Z Forwarding) :=
  rfold (λ fw dp,
           rfold (forwarding_step st src_name dp.1 next_fifo lengths)
                 (map_to_list dp.2) fw)
        (map_to_list dsts) ∅.

(** [GetForwardings(src_name)]. *)
Definition GetForwardings (st : Stencil) (src_name : string)
  : result (gmap Z Forwarding) :=
  next_fifo ← GetNextFIFO st;
  all_points ← GetAllPoints st;
  dsts ← of_option (KeyError src_name) (all_points !! src_name);
  bl ← GetReuseBuffers st;
  _ ← of_option (KeyError src_name) (bl.1 !! src_name);
  nf ← of_option (KeyError src_name) (next_fifo !! src_name);
  len ← of_option (KeyError src_name) (bl.2 !! src_name);
  forwardings_of st src_name dsts nf len.

End forwardings.

(** The number of [(stage, lane)] pairs that have a point recorded at tap
    [offset] in [all_points[src_name]]. *)
Definition readers (dsts : gmap string Points) (offset : Z) : nat :=
  sum_list ((λ dp, size (default ∅ (dp.2 !! offset))) <$> map_to_list dsts).

(** ** Vocabulary of the specification *)

(** What a consuming stage [s] contributes for the producer [b]: the
    serialized window [offsets(s, b)], its largest element [max_offset(s, b)]
    and [delay[s][b]].  Defined when the stage has a non-empty window and a
    delay entry for [b]. *)
Definition consumer_view (tile_size : list Z) (b_name : string) (s : Stage)
  : option (list Z * Z * Z) :=
  match s_window s !! b_name, s_delay s !! b_name with
  | Some w, Some d =>
      match SerializeIterative w tile_size with
      | Ok (o :: os) => Some (o :: os, Zmax_list o os, d)
      | _ => None
      end
  | _, _ => None
  end.

(** Membership in the union over consuming stages [s] and lanes
    [u ∈ [0, U)] of [{max_offset(s,b) + u - x + delay[s][b] : x ∈ offsets(s,b)}]. *)
Definition in_A_dag (tile_size : list Z) (b_name : string)
    (children : list Stage) (U : Z) (y : Z) : Prop :=
  ∃ s offsets m d u x,
    s ∈ children ∧ consumer_view tile_size b_name s = Some (offsets, m, d) ∧
    0 ≤ u < U ∧ x ∈ offsets ∧ y = m + u - x + d.

(** The same union without lanes: over consuming stages of
    [{max_offset(s,b) - x + delay[s][b] : x ∈ offsets(s,b)}]. *)
Definition in_replicated_A_dag (tile_size : list Z) (b_name : string)
    (children : list Stage) (y : Z) : Prop :=
  ∃ s offsets m d x,
    s ∈ children ∧ consumer_view tile_size b_name s = Some (offsets, m, d) ∧
    x ∈ offsets ∧ y = m - x + d.

(** [c] is the residue class [r] of [A] modulo [U], sorted ascending. *)
Definition residue_chain (A : gset Z) (U r : Z) (c : list Z) : Prop :=
  StronglySorted Z.lt c ∧ ∀ x, x ∈ c ↔ x ∈ A ∧ x `mod` U = r.

(** The links of one chain: a self-link at its smallest element, then the
    links between neighbours. *)
Definition links_of_chain (chain : list Z) : list (Z * Z) :=
  match chain with
  | [] => []
  | v :: _ => (v, v) :: zip chain (tail chain)
  end.

(** The length recorded for a link: [end // U] for a self-link that starts
    at [U] or later, [(end - start) // U] otherwise. *)
Definition expected_length (U : Z) (link : Z * Z) : Z :=
  if bool_decide (link.1 = link.2 ∧ U ≤ link.1) then link.2 `div` U
  else (link.2 - link.1) `div` U.

Definition record_length (U : Z) (L : gmap Z Z) (link : Z * Z) : gmap Z Z :=
  <[link.2 := expected_length U link]> L.

(** Chains with pairwise distinct residues, each non-empty, strictly
    ascending and within its residue class. *)
Definition chains_wf (U : Z) (rs : list Z) (chains : list (list Z)) : Prop :=
  Forall2 (λ r c, c ≠ [] ∧ StronglySorted Z.lt c ∧ Forall (λ x, x `mod` U = r) c)
          rs chains
  ∧ NoDup rs ∧ Forall (λ r, 0 ≤ r < U) rs.

(** Causality at a scheduled stage [sn]: every input [x] is available no
    later than required, and the delay stored for it is the slack
    [output.offset - (x.offset + offset[x][-1] - stage_offset)] itself, the
    clamp to zero having had no effect.  [offset[x][-1]] is also
    [max(offset[x])]. *)
Definition causal_at (tile_size : list Z) (tensors : gmap string Tensor)
    (stages : gmap string Stage) (sn : string) : Prop :=
  ∃ s out so,
    stages !! sn = Some s ∧ tensors !! sn = Some out ∧
    stage_store_offset tile_size s = Ok so ∧
    ∀ x, x ∈ s_inputs s →
      ∃ xt offs m,
        tensors !! x = Some xt ∧ s_offset s !! x = Some offs ∧
        last offs = Some m ∧ py_max offs = Ok m ∧
        t_offset xt + m - so ≤ t_offset out ∧
        s_delay s !! x = Some (t_offset out - (t_offset xt + m - so)).

(** The serialized windows of every stage are ascending, as [GetWindowFor]
    sorts them. *)
Definition offsets_sorted (stages : gmap string Stage) : Prop :=
  ∀ sn s x offs, stages !! sn = Some s → s_offset s !! x = Some offs →
                 Sorted Z.le offs.

(** What holds of every state the scheduling loop reaches: the
    chronological list starts with the input, has no duplicates and lists
    the processed tensors; every scheduled stage had all its inputs
    processed and is causal. *)
Record sched_inv (tile_size : list Z) (input : string) (st : Sched) : Prop := {
  inv_head : head (sc_chrono st) = Some input;
  inv_nodup : NoDup (sc_chrono st);
  inv_processed : ∀ n, n ∈ sc_chrono st ↔ n ∈ sc_processed st;
  inv_sorted : offsets_sorted (sc_stages st);
  inv_inputs : ∀ sn s, sn ∈ tail (sc_chrono st) → sc_stages st !! sn = Some s →
                       Forall (λ x, x ∈ sc_processed st) (s_inputs s);
  inv_causal : ∀ sn, sn ∈ tail (sc_chrono st) →
                     causal_at tile_size (sc_tensors st) (sc_stages st) sn
}.


(** [all_points[src_name]] as the sequence of [(dst_name, (offset, points))]
    the two loops of [GetForwardings] visit. *)
Definition flat_points (dsts : gmap string Points)
  : list (string * (Z * gmap Z nat)) :=
  concat ((λ dp, pair dp.1 <$> map_to_list dp.2) <$> map_to_list dsts).

(** The number of lanes recorded at [tap] along such a sequence. *)
Definition tap_count (flat : list (string * (Z * gmap Z nat))) (tap : Z) : nat :=
  sum_list ((λ t, if decide (t.2.1 = tap) then size t.2.2 else 0%nat) <$> flat).

(** One more output port when the tap has a successor in [next_fifo]. *)
Definition next_port (nf : gmap Z Z) (tap : Z) : nat :=
  match nf !! tap with Some _ => 1%nat | None => 0%nat end.

(** Every descriptor of the map has been given its function name. *)
Definition names_set (fw : gmap Z Forwarding) : Prop :=
  ∀ tap d, fw !! tap = Some d → f_func_name d ≠ EmptyString.

(** The distinct [(stage, lane)] pairs that read tap [offset] according to
    [all_points[src_name]]. *)
Definition reader_pairs (dsts : gmap string Points) (offset : Z)
  : gset (string * Z) :=
  ⋃ ((λ dp, set_map (pair dp.1) (dom (default ∅ (dp.2 !! offset))))
       <$> map_to_list dsts).

(** Every tensor is stored under its own name, as [self.tensors] is built. *)
Definition tensors_named (st : Stencil) : Prop :=
  map_Forall (λ k t, t_name t = k) (tensors st).

(** ** Example inputs *)

Definition ex_input : Node := mkNode KInput "input" "uint16" 1 [] None.

Definition ex_tmp : Node :=
  mkNode KLocal "tmp" "uint16" 1
    [mkExpr [0; 0] [mkLoad "input" [-1; 0]; mkLoad "input" [0; 0];
                    mkLoad "input" [1; 0]]] None.

Definition ex_output : Node :=
  mkNode KOutput "output" "uint16" 1
    [mkExpr [0; 0] [mkLoad "tmp" [0; -1]; mkLoad "tmp" [0; 0];
                    mkLoad "tmp" [0; 1]]] None.

(** The blur kernel of the test suite, with a smaller tile. *)
Definition blur_args (iterate : Z) : Args :=
  mkArgs iterate "ignore" "none" 512 1 "blur" [8; 0] 2 1 false 2 []
         ex_input ex_output [ex_tmp].

(** A local definition named like the input. *)
Definition clash_local : Node :=
  mkNode KLocal "input" "uint16" 1
    [mkExpr [0; 0] [mkLoad "input" [0; 0]]] None.

Definition clash_local_args : Args :=
  mkArgs 1 "ignore" "none" 512 1 "blur" [8; 0] 2 1 false 2 []
         ex_input ex_output [clash_local; ex_tmp].

(** An output definition named like the input. *)
Definition clash_output : Node :=
  mkNode KOutput "input" "uint16" 1
    [mkExpr [0; 0] [mkLoad "tmp" [0; 0]]] None.

Definition clash_output_args : Args :=
  mkArgs 1 "ignore" "none" 512 1 "blur" [8; 0] 2 1 false 2 []
         ex_input clash_output [ex_tmp].




(** Two paths of different depth into the output: [a] is ready at once, [b]
    five cells later, so the output waits for [b] and delays [a]. *)
Definition skew_a : Node :=
  mkNode KLocal "a" "uint16" 1 [mkExpr [0; 0] [mkLoad "input" [0; 0]]] None.

Definition skew_b : Node :=
  mkNode KLocal "b" "uint16" 1 [mkExpr [0; 0] [mkLoad "input" [5; 0]]] None.

Definition skew_output : Node :=
  mkNode KOutput "output" "uint16" 1
    [mkExpr [0; 0] [mkLoad "a" [0; 0]; mkLoad "b" [0; 0]]] None.

Definition skew_args (unroll : Z) : Args :=
  mkArgs 1 "ignore" "none" 512 1 "skew" [8; 0] unroll 2 false 2 []
         ex_input skew_output [skew_a; skew_b].







(** The stencil a construction yields, for use in examples. *)
Definition empty_stencil : Stencil :=
  mkStencil 1 [] 1 1 0 0 [] EmptyString EmptyString ∅ ∅ [].

Definition built (fuel : nat) (a : Args) : Stencil :=
  match Stencil_init fuel a with
  | Some (Ok st) => st
  | _ => empty_stencil
  end.

(** The stage objects in [tensors[name].children]. *)
Definition consumers (st : Stencil) (name : string) : list Stage :=
  match tensors st !! name with
  | Some b => match children_of st b with Ok l => l | Raise _ => [] end
  | None => []
  end.

Definition blur1 : Stencil := built 20 (blur_args 1).
Definition skew1 : Stencil := built 20 (skew_args 1).

(** * Further code: windows, text output, accessors *)

(** ** Stencil windows (lines 831-857) *)

(** [[point[dim] for point in A]]: an [IndexError] at the first point that
    is too short. *)
Definition column (A : list (list Z)) (d : nat) : result (list Z) :=
  rmap (λ point, of_option IndexError (point !! d)) A.

(** [range(len(next(iter(A))))]: the dimensions of the first point the
    iteration yields; [StopIteration] when there is none. *)
Definition window_dims (A : list (list Z)) : result (list nat) :=
  p0 ← of_option StopIteration (head A);
  Ok (seq 0 (length p0)).

(** [GetStencilWindowOffset(stencil_window)]. *)
Definition GetStencilWindowOffset (stencil_window : list (list Z))
  : result (list Z) :=
  dims ← window_dims stencil_window;
  rmap (λ d, col ← column stencil_window d; m ← py_min col; Ok (- m)) dims.

(** [GetStencilDim(A)]: the list of maxima is built first, then the list of
    minima, then the differences. *)
Definition GetStencilDim (A : list (list Z)) : result (list Z) :=
  dims ← window_dims A;
  maxs ← rmap (λ d, col ← column A d; py_max col) dims;
  dims' ← window_dims A;
  mins ← rmap (λ d, col ← column A d; py_min col) dims';
  Ok (zip_with (λ max_index min_index, max_index - min_index + 1) maxs mins).

(** [GetStencilDistance(stencil_window, tile_size)]: the left operand of
    [+] is evaluated first. *)
Definition GetStencilDistance (stencil_window : list (list Z))
    (tile_size : list Z) : result Z :=
  offsets ← SerializeIterative stencil_window tile_size;
  m ← py_max offsets;
  o ← GetStencilWindowOffset stencil_window;
  so ← Serialize o tile_size;
  Ok (m + so).

(** Every point of the window has [n] coordinates. *)
Definition uniform (n : nat) (A : list (list Z)) : Prop :=
  Forall (λ p, length p = n) A.

(** The smallest and the largest coordinate of dimension [d] over the
    window. *)
Definition column_min (A : list (list Z)) (d : nat) : Z :=
  match (λ p : list Z, p !!! d) <$> A with
  | [] => 0
  | x :: l => Zmin_list x l
  end.

Definition column_max (A : list (list Z)) (d : nat) : Z :=
  match (λ p : list Z, p !!! d) <$> A with
  | [] => 0
  | x :: l => Zmax_list x l
  end.

(** ** Text output (lines 739-823) *)

(** Python strings as lists of characters, for slicing. *)
Definition chars (s : string) : list ascii := String.list_ascii_of_string s.
Definition text (l : list ascii) : string := String.string_of_list_ascii l.

(** [s[-n:]] and [s[:-n]] for [n > 0]: a string shorter than [n] is its own
    suffix, and nothing is left before it. *)
Definition py_last (n : nat) (s : string) : string :=
  text (drop (length (chars s) - n) (chars s)).

Definition py_but_last (n : nat) (s : string) : string :=
  text (take (length (chars s) - n) (chars s)).

(** [s * n]: the empty string when [n <= 0]. *)
Fixpoint str_repeat (s : string) (n : nat) : string :=
  match n with
  | O => EmptyString
  | S n' => s +:+ str_repeat s n'
  end.

Definition py_str_mul (s : string) (n : Z) : string := str_repeat s (Z.to_nat n).

(** [sep.join(l)]. *)
Definition py_join (sep : string) (l : list string) : string :=
  match l with
  | [] => EmptyString
  | x :: l' => foldl (λ acc y, acc +:+ sep +:+ y) x l'
  end.

Definition newline : string := String "010"%char EmptyString.

(** [class Printer]: [out] is the sequence of strings written so far. *)
Record Printer := mkPrinter {
  pr_out : list string;
  pr_indent : Z;
  pr_assign : Z;
  pr_comments : list string
}.

(** [Printer.__init__] on a fresh output. *)
Definition Printer_init : Printer := mkPrinter [] 0 0 [].

(** [PrintLine(line, local_indent)]; the defaults are [''] and [-1]. *)
Definition PrintLine (line : string) (local_indent : Z) (p : Printer) : Printer :=
  let local_indent :=
    if bool_decide (local_indent < 0) then pr_indent p else local_indent in
  let written :=
    if bool_decide (line ≠ EmptyString)
    then py_str_mul (py_str_mul " " local_indent) 4 +:+ line +:+ newline
    else newline in
  mkPrinter (pr_out p ++ [written]) (pr_indent p) (pr_assign p) (pr_comments p).

Definition DoIndent (p : Printer) : Printer :=
  mkPrinter (pr_out p) (pr_indent p + 1) (pr_assign p) (pr_comments p).

Definition UnIndent (p : Printer) : Printer :=
  mkPrinter (pr_out p) (pr_indent p - 1) (pr_assign p) (pr_comments p).

(** [DoScope(comment)]; the default comment is ['']. *)
Definition DoScope (comment : string) (p : Printer) : Printer :=
  let p1 := DoIndent (PrintLine "{" (-1) p) in
  mkPrinter (pr_out p1) (pr_indent p1) (pr_assign p1) (pr_comments p1 ++ [comment]).

(** [UnScope(comment)]: [self.comments.pop()] is an [IndexError] on the
    empty list. *)
Definition UnScope (comment : string) (p : Printer) : result Printer :=
  let p1 := UnIndent p in
  popped_comment ← of_option IndexError (last (pr_comments p1));
  let p2 := mkPrinter (pr_out p1) (pr_indent p1) (pr_assign p1)
                      (removelast (pr_comments p1)) in
  if bool_decide (comment ≠ EmptyString)
  then Ok (PrintLine ("} // " +:+ comment) (-1) p2)
  else if bool_decide (popped_comment ≠ EmptyString)
  then Ok (PrintLine ("} // " +:+ popped_comment) (-1) p2)
  else Ok (PrintLine "}" (-1) p2).

(** [LastVar(offset)]; the default offset is [-1]. *)
Definition LastVar (offset : Z) (p : Printer) : string :=
  "assign_" +:+ pretty (pr_assign p + offset).

(** [NewVar()]: the printer after the call and the name returned. *)
Definition NewVar (p : Printer) : Printer * string :=
  let p1 := mkPrinter (pr_out p) (pr_indent p) (pr_assign p + 1) (pr_comments p) in
  (p1, LastVar (-1) p1).

(** The loop of [PrintFunc] on [lines], which is never empty: it is kept as
    the pair of [lines[:-1]] and [lines[-1]]. *)
Definition PrintFunc_step (indent align : Z) (lines : list string * string)
    (param : string) : list string * string :=
  if bool_decide ((indent + Z.min 1 (Z.of_nat (length lines.1))) * 4
                  + Z.of_nat (String.length lines.2)
                  + Z.of_nat (String.length (param +:+ ", ")) > align)
  then (lines.1 ++ [lines.2], param +:+ ", ")
  else (lines.1, lines.2 +:+ param +:+ ", ").

(** [lines] as [PrintFunc] has it before printing (lines 784-792). *)
Definition PrintFunc_lines (indent : Z) (name : string) (params : list string)
    (suffix : string) (align : Z) : list string :=
  let lines := foldl (PrintFunc_step indent align) ([], name +:+ "(") params in
  let last_line :=
    if bool_decide (py_last 2 lines.2 = ", ")
    then py_but_last 2 lines.2 +:+ ")" +:+ suffix
    else lines.2 in
  lines.1 ++ [last_line].

(** [PrintFunc(name, params, suffix, align)]; the defaults are [''] and
    [80]. *)
Definition PrintFunc (name : string) (params : list string) (suffix : string)
    (align : Z) (p : Printer) : Printer :=
  match PrintFunc_lines (pr_indent p) name params suffix align with
  | [] => p
  | line :: lines =>
      let p1 := PrintLine line (-1) p in
      match lines with
      | [] => p1
      | _ => UnIndent (foldl (λ q l, PrintLine l (-1) q) (DoIndent p1) lines)
      end
  end.

(** ** Type names (lines 19, 801-810) *)

Definition type_width : gmap string Z :=
  list_to_map
    [("uint8_t", 8); ("uint16_t", 16); ("uint32_t", 32); ("uint64_t", 64);
     ("int8_t", 8); ("int16_t", 16); ("int32_t", 32); ("int64_t", 64);
     ("float", 32); ("double", 64)].

Definition soda_int_types : list string :=
  ["uint8"; "uint16"; "uint32"; "uint64"; "int8"; "int16"; "int32"; "int64"].

Definition GetCType (soda_type : string) : string :=
  if bool_decide (soda_type ∈ soda_int_types) then soda_type +:+ "_t"
  else soda_type.

Definition GetSodaType (c_type : string) : string :=
  if bool_decide (py_last 2 c_type = "_t") then py_but_last 2 c_type
  else c_type.

Definition IsFloat (soda_type : string) : bool :=
  bool_decide (soda_type ∈ ["float"; "double"]).

(** [str.replace(old, new)] for one-character [old] and [new]. *)
Definition replace_char (old new : ascii) (s : string) : string :=
  text ((λ c, if decide (c = old) then new else c) <$> chars s).

(** [GetIndicesId(indices)]. *)
Definition GetIndicesId (indices : list Z) : string :=
  py_join "_" ((λ idx, replace_char "-" "m" (pretty idx)) <$> indices).

(** ** More accessors of [Stencil] *)

(** [GetConsumerTensors()]: the tensors with a parent stage. *)
Definition GetConsumerTensors (st : Stencil) : list Tensor :=
  filter (λ b, is_Some (t_parent b)) (map_to_list (tensors st)).*2.


(** [GetReuseBufferLength(name, offset)]; a missing integer key is reported
    by its decimal notation. *)
Definition GetReuseBufferLength (st : Stencil) (name : string) (offset : Z)
  : result Z :=
  bl ← GetReuseBuffers st;
  len ← of_option (KeyError name) (bl.2 !! name);
  of_option (KeyError (pretty offset)) (len !! offset).

(** One round of the loop of [get_replicated_reuse_buffers] (lines
    622-637): the loop over the links is the one of [GetReuseBuffers], run
    with the replication factor. *)
Definition replicated_buffer_of (st : Stencil) (tensor : Tensor)
  : result (Buffer * gmap Z Z) :=
  children ← children_of st tensor;
  buf ← _get_replicated_reuse_buffer (tile_size st) (t_name tensor) children
           (replication_factor st);
  len ← buffer_lengths (replication_factor st) buf;
  Ok (buf, len).

(** [get_replicated_reuse_buffers()]: [self.replicated_reuse_buffers] and
    [self.replicated_reuse_buffer_lengths]. *)
Definition get_replicated_reuse_buffers (st : Stencil)
  : result (gmap string Buffer * gmap string (gmap Z Z)) :=
  rfold (λ acc tensor,
           bl ← replicated_buffer_of st tensor;
           Ok (<[t_name tensor := bl.1]> acc.1, <[t_name tensor := bl.2]> acc.2))
        (GetProducerTensors st) (∅, ∅).

(** [get_replicated_next_fifo()]. *)
Definition get_replicated_next_fifo (st : Stencil)
  : result (gmap string (gmap Z Z)) :=
  rbind (get_replicated_reuse_buffers st)
        (λ bl, Ok (next_fifo_of <$> (bl.1 : gmap string Buffer))).

(** [get_replicated_reuse_buffer_length(name, offset)]. *)
Definition get_replicated_reuse_buffer_length (st : Stencil) (name : string)
    (offset : Z) : result Z :=
  bl ← get_replicated_reuse_buffers st;
  len ← of_option (KeyError name) (bl.2 !! name);
  of_option (KeyError (pretty offset)) (len !! offset).

(** ** Vocabulary for the further properties *)

(** [y] follows [x] in its residue class of [A] modulo [U]: both are in
    [A], congruent, [x < y], and no element of the class lies between. *)
Definition next_in_lane (A : gset Z) (U x y : Z) : Prop :=
  x ∈ A ∧ y ∈ A ∧ x < y ∧ x `mod` U = y `mod` U ∧
  ∀ z, z ∈ A → z `mod` U = x `mod` U → ¬ (x < z < y).

(** The links of a reuse buffer that have a successor. *)
Definition proper_links (links : list (Z * Z)) : list (Z * Z) :=
  filter (λ link, link.1 < link.2) links.

(** What the graph assembly (lines 203-254) hands to the scheduler: every
    tensor at offset 0, every stage stored under its name and without
    delays. *)
Definition assembled_fresh (g : gmap string Tensor * gmap string Stage) : Prop :=
  (∀ n t, g.1 !! n = Some t → t_offset t = 0) ∧
  (∀ sn s, g.2 !! sn = Some s → s_name s = sn ∧ s_delay s = ∅).

(** The chronological list is a topological order: the inputs of a
    scheduled stage are listed before its output. *)
Definition chrono_topo (st : Sched) : Prop :=
  ∀ i sn s, sc_chrono st !! i = Some sn → (0 < i)%nat →
            sc_stages st !! sn = Some s →
            Forall (λ x, ∃ j, (j < i)%nat ∧ sc_chrono st !! j = Some x)
                   (s_inputs s).

(** Offsets and delays are never negative, and the input stays at 0. *)
Definition sched_nonneg (input : string) (st : Sched) : Prop :=
  (∀ n t, sc_tensors st !! n = Some t → 0 ≤ t_offset t) ∧
  (∀ t, sc_tensors st !! input = Some t → t_offset t = 0) ∧
  (∀ sn s x d, sc_stages st !! sn = Some s → s_delay s !! x = Some d → 0 ≤ d).

(** A stage holds a delay exactly for the inputs it was scheduled with, and
    is stored under its name. *)
Definition delay_keys (st : Sched) : Prop :=
  ∀ sn s, sc_stages st !! sn = Some s →
          s_name s = sn ∧
          ∀ x, is_Some (s_delay s !! x) ↔
               sn ∈ tail (sc_chrono st) ∧ x ∈ s_inputs s.

(** The state with another processing queue. *)
Definition requeue (q : list string) (st : Sched) : Sched :=
  mkSched (sc_tensors st) (sc_stages st) q (sc_processed st) (sc_chrono st).

(** The tensors and stages are wired to each other: every tensor is stored
    under its name; every child of a tensor is a stage that has the tensor
    among its inputs; every stage has an output tensor and, for each input,
    a non-empty window that serializes. *)
Definition graph_wired (tile : list Z)
    (g : gmap string Tensor * gmap string Stage) : Prop :=
  (∀ n t, g.1 !! n = Some t → t_name t = n) ∧
  (∀ b t sn, g.1 !! b = Some t → sn ∈ t_children t →
             ∃ s, g.2 !! sn = Some s ∧ b ∈ s_inputs s) ∧
  (∀ sn s, g.2 !! sn = Some s →
           is_Some (g.1 !! sn) ∧
           ∀ x, x ∈ s_inputs s →
                ∃ w o os, s_window s !! x = Some w ∧
                          SerializeIterative w tile = Ok (o :: os)).

(** The names of the definitions the constructor turns into tensors: the
    input, the locals of every iteration and the output. *)
Definition definition_names (a : Args) : list string :=
  n_name (a_input a)
  :: (n_name <$> (expand_iterations a).1.1)
  ++ [n_name (expand_iterations a).1.2].

(** One round of the inner loop of [_GetPoints] for lane [t.1] and the
    window point [t.2.1] at serialized offset [t.2.2]:
    [points.setdefault(max_offset - offset + delay + lane, {})[U-1-lane] = idx]. *)
Definition record_point (U m d : Z) (P : Points) (t : Z * (nat * Z)) : Points :=
  let tap := m - t.2.2 + d + t.1 in
  <[tap := <[U - 1 - t.1 := t.2.1]> (default ∅ (P !! tap))]> P.

(** The rounds of the two loops of [_GetPoints] for one stage, in order. *)
Definition point_rounds (U : Z) (offsets : list Z) : list (Z * (nat * Z)) :=
  concat ((λ u, pair u <$> imap pair offsets) <$> seqZ 0 U).

(** A tensor has a parent exactly when a stage is stored under its name,
    and the parent is then that stage. *)
Definition parents_wired (g : gmap string Tensor * gmap string Stage) : Prop :=
  ∀ n t, g.1 !! n = Some t →
         (t_parent t = None ∧ g.2 !! n = None)
         ∨ (t_parent t = Some n ∧ is_Some (g.2 !! n)).


(** * Facts about the embedding *)

(** ** The example stencils *)



Lemma blur1_built : Stencil_init 20 (blur_args 1) = Some (Ok blur1).
Proof. vm_compute. reflexivity. Qed.

Lemma tensors_named_blur : tensors_named blur1.
Proof.
  unfold tensors_named. apply map_Forall_to_list.
  vm_compute. repeat constructor.
Qed.

Lemma blur1_buffers : ∃ bufs lens, GetReuseBuffers blur1 = Ok (bufs, lens).
Proof.
  assert (match GetReuseBuffers blur1 with Ok _ => True | Raise _ => False end)
    as H by (vm_compute; exact I).
  destruct (GetReuseBuffers blur1) as [[bufs lens]|e]; [by eauto|destruct H].
Qed.

Lemma blur1_points : ∃ ap, GetAllPoints blur1 = Ok ap.
Proof.
  assert (match GetAllPoints blur1 with Ok _ => True | Raise _ => False end)
    as H by (vm_compute; exact I).
  destruct (GetAllPoints blur1) as [ap|e]; [by eauto|destruct H].
Qed.

Lemma blur1_tmp_producer :
  ∃ b, b ∈ GetProducerTensors blur1 ∧ t_name b = "tmp" ∧
       PreserveBorderTo_true b = false.
Proof.
  assert (match GetProducerTensors blur1 !! 1%nat with
          | Some b => t_name b = "tmp" ∧ PreserveBorderTo_true b = false
          | None => False
          end) as H by (vm_compute; split; reflexivity).
  destruct (GetProducerTensors blur1 !! 1%nat) as [b|] eqn:Hb; [|destruct H].
  exists b. split; [by eapply list_elem_of_lookup_2|done].
Qed.

Ltac rsimpl := repeat (unfold mbind, result_bind; simpl).

(** ** Generic facts on the result monad *)

Lemma rbind_Ok {A B} (m : result A) (k : A → result B) b :
  m ≫= k = Ok b ↔ ∃ a, m = Ok a ∧ k a = Ok b.
Proof.
  destruct m as [a|e]; rsimpl.
  - split; [by eauto|]. by intros (? & [= <-] & ?).
  - split; [done|]. by intros (? & ? & ?).
Qed.

Lemma rmap_Ok {A B} (f : A → result B) l ys :
  rmap f l = Ok ys ↔ Forall2 (λ x y, f x = Ok y) l ys.
Proof.
  revert ys. induction l as [|x l IH]; intros ys; simpl.
  - split; [intros [= <-]; constructor|by inversion 1].
  - split.
    + intros (y & Hy & (ys' & Hys & [= <-])%rbind_Ok)%rbind_Ok.
      constructor; [done|by apply IH].
    + inversion 1 as [|? y ? ys' Hy Hys]; subst.
      apply rbind_Ok. exists y. split; [done|].
      apply rbind_Ok. exists ys'. split; [by apply IH|done].
Qed.

Lemma rmap_total {A B} (f : A → result B) l :
  Forall (λ x, ∃ y, f x = Ok y) l → ∃ ys, rmap f l = Ok ys.
Proof.
  induction 1 as [|x l [y Hy] _ [ys Hys]]; simpl; [by eauto|].
  exists (y :: ys). rewrite Hy. rsimpl. by rewrite Hys.
Qed.

Lemma rfold_app {A S} (f : S → A → result S) l1 l2 s :
  rfold f (l1 ++ l2) s = (rfold f l1 s ≫= rfold f l2).
Proof.
  revert s. induction l1 as [|x l1 IH]; intros s; simpl; [done|].
  destruct (f s x); rsimpl; [apply IH|done].
Qed.

(** ** Maxima *)

Lemma Zmax_list_spec x l :
  Zmax_list x l ∈ x :: l ∧ ∀ y, y ∈ x :: l → y ≤ Zmax_list x l.
Proof.
  unfold Zmax_list. revert x. induction l as [|z l IH]; intros x; simpl.
  - split; [left|]. intros y ->%list_elem_of_singleton. lia.
  - destruct (IH (Z.max x z)) as [Hin Hle]. split.
    + apply elem_of_cons in Hin as [Heq|Hin].
      * rewrite Heq. destruct (Z.max_spec x z) as [[_ ->]|[_ ->]];
          [right; left|left].
      * by do 2 right.
    + intros y Hy. apply elem_of_cons in Hy as [->|Hy].
      * specialize (Hle (Z.max x z) (list_elem_of_here _ _)). lia.
      * apply elem_of_cons in Hy as [->|Hy].
        -- specialize (Hle (Z.max x z) (list_elem_of_here _ _)). lia.
        -- apply Hle. by right.
Qed.

Lemma py_max_spec l m :
  py_max l = Ok m ↔ m ∈ l ∧ ∀ y, y ∈ l → y ≤ m.
Proof.
  destruct l as [|x l]; simpl.
  - split; [done|]. by intros [?%elem_of_nil _].
  - destruct (Zmax_list_spec x l) as [Hin Hle]. split.
    + by intros [= <-].
    + intros [Hm Hmax]. f_equal.
      specialize (Hle _ Hm). specialize (Hmax _ Hin). lia.
Qed.

Lemma py_max_total l : l ≠ [] → ∃ m, py_max l = Ok m.
Proof. destruct l; [done|]. simpl. eauto. Qed.

Lemma consumer_view_Some tile b s offsets m d :
  consumer_view tile b s = Some (offsets, m, d) ↔
  ∃ w, s_window s !! b = Some w ∧ SerializeIterative w tile = Ok offsets ∧
       py_max offsets = Ok m ∧ s_delay s !! b = Some d.
Proof.
  unfold consumer_view. split.
  - destruct (s_window s !! b) as [w|]; [|done].
    destruct (s_delay s !! b) as [d'|]; [|done].
    destruct (SerializeIterative w tile) as [[|o os]|] eqn:Hs; [done| |done].
    intros Heq. simplify_eq. exists w. repeat split; done.
  - intros (w & -> & -> & Hm & ->).
    destruct offsets as [|o os]; [done|]. simpl in Hm. by simplify_eq.
Qed.


(** ** The set A† *)

Lemma lane_set_inv offsets delay i S :
  lane_set offsets delay i = Ok S →
  ∀ y, y ∈ S ↔ ∃ x m d, x ∈ offsets ∧ py_max offsets = Ok m ∧ delay = Ok d ∧
                        y = m + i - x + d.
Proof.
  unfold lane_set.
  assert (∀ l (acc S : gset Z),
    rfold (λ acc x, m ← py_max offsets; d ← delay; Ok (acc ∪ {[m + i - x + d]}))
          l acc = Ok S →
    ∀ y, y ∈ S ↔ y ∈ acc ∨ ∃ x m d, x ∈ l ∧ py_max offsets = Ok m ∧
                                     delay = Ok d ∧ y = m + i - x + d) as Hfold.
  { induction l as [|x l IH]; intros acc S'; simpl.
    - intros [= <-] y. split; [by left|]. intros [?|(x & ? & ? & ?%elem_of_nil & _)]; done.
    - intros (acc' & Hstep & Hrest)%rbind_Ok y.
      apply rbind_Ok in Hstep as (m & Hm & (d & Hd & [= <-])%rbind_Ok).
      rewrite (IH _ _ Hrest y), elem_of_union, elem_of_singleton. split.
      + intros [[?| ->]|(x' & m' & d' & ? & ? & ? & ->)].
        * by left.
        * right. exists x, m, d. by repeat split; [left|..].
        * right. exists x', m', d'. by repeat split; [right|..].
      + intros [?|(x' & m' & d' & [-> |?]%elem_of_cons & Hm' & Hd' & ->)].
        * by left; left.
        * left; right. rewrite Hm in Hm'. rewrite Hd in Hd'. by simplify_eq.
        * right. by exists x', m', d'. }
  intros HS y. rewrite (Hfold _ _ _ HS y). split.
  - intros [?%elem_of_empty|?]; done.
  - by right.
Qed.

Lemma lane_set_total offsets m d i :
  py_max offsets = Ok m → ∃ S, lane_set offsets (Ok d) i = Ok S.
Proof.
  intros Hm. unfold lane_set. rsimpl. rewrite Hm. simpl. clear Hm.
  generalize (∅ : gset Z) as acc.
  induction offsets as [|x l IH]; intros acc; simpl; eauto.
Qed.

Lemma py_set_union_Ok sets S :
  py_set_union sets = Ok S ↔ sets ≠ [] ∧ S = ⋃ sets.
Proof.
  destruct sets as [|X sets]; simpl; [naive_solver|].
  split; [by intros [= <-]|by intros [_ ->]].
Qed.

Lemma of_option_Ok {A} e (o : option A) a : of_option e o = Ok a ↔ o = Some a.
Proof. destruct o; simpl; naive_solver. Qed.

Lemma seqZ_nil_inv m n : seqZ m n = [] → n ≤ 0.
Proof.
  intros H. apply (f_equal length) in H. rewrite length_seqZ in H.
  simpl in H. lia.
Qed.

Lemma stage_A_dag_inv tile b U s S :
  stage_A_dag tile b U s = Ok S →
  1 ≤ U ∧
  ∀ y, y ∈ S ↔ ∃ offsets m d u x,
                 consumer_view tile b s = Some (offsets, m, d) ∧
                 0 ≤ u < U ∧ x ∈ offsets ∧ y = m + u - x + d.
Proof.
  unfold stage_A_dag.
  intros (w & Hw%of_option_Ok & (offsets & Hoffs & (sets & Hsets & HS)%rbind_Ok)
            %rbind_Ok)%rbind_Ok.
  apply py_set_union_Ok in HS as [Hne ->].
  apply rmap_Ok in Hsets.
  assert (1 ≤ U) as HU.
  { destruct (decide (1 ≤ U)); [done|]. exfalso. apply Hne.
    destruct (seqZ 0 U) eqn:Hseq; [by apply Forall2_nil_inv_l in Hsets|].
    apply (f_equal length) in Hseq. rewrite length_seqZ in Hseq. simpl in Hseq. lia. }
  split; [done|]. intros y. rewrite elem_of_union_list. split.
  - intros (X & HX & Hy).
    apply list_elem_of_lookup in HX as [k Hk].
    destruct (Forall2_lookup_r _ _ _ _ _ Hsets Hk) as (u & Hu & HuX).
    apply lookup_seqZ in Hu as [-> Hk'].
    apply (lane_set_inv _ _ _ _ HuX) in Hy as (x & m & d & Hx & Hm & Hd & ->).
    apply of_option_Ok in Hd.
    exists offsets, m, d, (0 + Z.of_nat k), x. repeat split; [|lia|lia|done].
    apply consumer_view_Some. by exists w.
  - intros (offs & m & d & u & x & (w' & Hw' & Hoffs' & Hm & Hd)%consumer_view_Some
              & Hu & Hx & ->).
    rewrite Hw in Hw'. injection Hw' as <-.
    rewrite Hoffs in Hoffs'. injection Hoffs' as <-.
    assert (seqZ 0 U !! Z.to_nat u = Some u) as Hlk.
    { apply lookup_seqZ. lia. }
    destruct (Forall2_lookup_l _ _ _ _ _ Hsets Hlk) as (X & HX & HuX).
    exists X. split; [by eapply list_elem_of_lookup_2|].
    apply (lane_set_inv _ _ _ _ HuX). exists x, m, d. repeat split; try done.
    unfold stage_delay. by rewrite Hd.
Qed.

Lemma stage_A_dag_total tile b U s :
  1 ≤ U → is_Some (consumer_view tile b s) → ∃ S, stage_A_dag tile b U s = Ok S.
Proof.
  intros HU [[[offs m] d] (w & Hw & Hoffs & Hm & Hd)%consumer_view_Some].
  unfold stage_A_dag, stage_delay. rewrite Hw, Hd. rsimpl. rewrite Hoffs. rsimpl.
  destruct (rmap_total (lane_set offs (Ok d)) (seqZ 0 U)) as [sets Hsets].
  { apply Forall_forall. intros i _. by eapply lane_set_total. }
  rewrite Hsets. rsimpl. exists (⋃ sets). apply py_set_union_Ok. split; [|done].
  intros ->. apply rmap_Ok, Forall2_nil_inv_r, seqZ_nil_inv in Hsets. lia.
Qed.

Lemma A_dag_inv tile b children U A :
  A_dag tile b children U = Ok A →
  1 ≤ U ∧ children ≠ [] ∧ ∀ y, y ∈ A ↔ in_A_dag tile b children U y.
Proof.
  unfold A_dag. intros (sets & Hsets%rmap_Ok & [Hne ->]%py_set_union_Ok)%rbind_Ok.
  assert (children ≠ []) as Hch.
  { intros ->. by apply Forall2_nil_inv_l in Hsets. }
  assert (1 ≤ U) as HU.
  { destruct children as [|s0 ch]; [done|].
    apply Forall2_cons_inv_l in Hsets as (X & sets' & HsX & _ & _).
    by apply stage_A_dag_inv in HsX as [? _]. }
  repeat split; try done.
  - rewrite elem_of_union_list. intros (X & HX & Hy).
    apply list_elem_of_lookup in HX as [k Hk].
    destruct (Forall2_lookup_r _ _ _ _ _ Hsets Hk) as (s & Hs & HsX).
    apply stage_A_dag_inv in HsX as [_ Hmem].
    destruct (proj1 (Hmem y) Hy) as (offs & m & d & u & x & Hv & Hu & Hx & ->).
    exists s, offs, m, d, u, x. split; [by eapply list_elem_of_lookup_2|done].
  - intros (s & offs & m & d & u & x & Hin & Hv & Hu & Hx & ->).
    apply list_elem_of_lookup in Hin as [k Hk].
    destruct (Forall2_lookup_l _ _ _ _ _ Hsets Hk) as (X & HX & HsX).
    apply elem_of_union_list. exists X. split; [by eapply list_elem_of_lookup_2|].
    apply stage_A_dag_inv in HsX as [_ Hmem]. apply Hmem.
    by exists offs, m, d, u, x.
Qed.

Lemma A_dag_total tile b children U :
  1 ≤ U → children ≠ [] →
  Forall (λ s, is_Some (consumer_view tile b s)) children →
  ∃ A, A_dag tile b children U = Ok A.
Proof.
  intros HU Hne Hall. unfold A_dag.
  destruct (rmap_total (stage_A_dag tile b U) children) as [sets Hsets].
  { eapply Forall_impl; [exact Hall|]. intros s Hs. by apply stage_A_dag_total. }
  rewrite Hsets. rsimpl. exists (⋃ sets). apply py_set_union_Ok. split; [|done].
  intros ->. by apply rmap_Ok, Forall2_nil_inv_r in Hsets.
Qed.

(** ** Chains *)

Lemma Sorted_le_NoDup_lt (l : list Z) :
  Sorted Z.le l → NoDup l → StronglySorted Z.lt l.
Proof.
  intros Hs%Sorted_StronglySorted Hnd; [|apply _].
  induction Hs as [|x l Hs IH Hall]; [constructor|].
  apply NoDup_cons in Hnd as [Hx Hnd].
  constructor; [by apply IH|].
  apply Forall_forall. intros y Hy.
  pose proof (proj1 (Forall_forall _ _) Hall y Hy).
  assert (x ≠ y) by (intros ->; done). lia.
Qed.

Lemma chain_of_elem A U r x : x ∈ chain_of A U r ↔ x ∈ A ∧ x `mod` U = r.
Proof.
  unfold chain_of, py_sorted.
  rewrite merge_sort_Permutation, list_elem_of_filter, elem_of_elements. tauto.
Qed.

Lemma chain_of_sorted A U r : StronglySorted Z.lt (chain_of A U r).
Proof.
  unfold chain_of, py_sorted. apply Sorted_le_NoDup_lt.
  - apply Sorted_merge_sort. apply _.
  - rewrite merge_sort_Permutation. apply NoDup_filter, NoDup_elements.
Qed.

Lemma chain_of_residue A U r : residue_chain A U r (chain_of A U r).
Proof. split; [apply chain_of_sorted|intros x; apply chain_of_elem]. Qed.

Lemma elem_of_concat {A} (x : A) (ls : list (list A)) :
  x ∈ concat ls ↔ ∃ l, l ∈ ls ∧ x ∈ l.
Proof.
  induction ls as [|l ls IH]; simpl.
  - split; [by intros ?%elem_of_nil|by intros (? & ?%elem_of_nil & _)].
  - rewrite elem_of_app, IH. split.
    + intros [?|(l' & ? & ?)]; [exists l; split; [left|done]|].
      exists l'. split; [by right|done].
    + intros (l' & [-> |?]%elem_of_cons & ?); [by left|right; eauto].
Qed.

Lemma chains_of_fmap A U : chains_of A U = chain_of A U <$> reverse (seqZ 0 U).
Proof. unfold chains_of. by rewrite fmap_reverse. Qed.

Lemma elem_of_chains_of A U x :
  1 ≤ U → x ∈ concat (chains_of A U) ↔ x ∈ A.
Proof.
  intros HU. rewrite chains_of_fmap, elem_of_concat. split.
  - intros (c & (r & -> & Hr)%list_elem_of_fmap & Hx).
    by apply chain_of_elem in Hx as [? _].
  - intros Hx. exists (chain_of A U (x `mod` U)). split.
    + apply list_elem_of_fmap. exists (x `mod` U). split; [done|].
      apply elem_of_reverse, elem_of_seqZ.
      pose proof (Z.mod_pos_bound x U). lia.
    + by apply chain_of_elem.
Qed.

Lemma buffer_fold_Ok chains acc :
  Forall (λ c, c ≠ []) chains →
  rfold buffer_step chains acc
  = Ok (acc.1 ++ concat (links_of_chain <$> chains), acc.2 ++ concat chains).
Proof.
  intros Hne. revert acc. induction Hne as [|c chains Hc _ IH]; intros acc; simpl.
  - by rewrite !app_nil_r, <-surjective_pairing.
  - destruct c as [|c0 rest]; [done|]. unfold buffer_step at 1. rsimpl.
    rewrite IH. simpl. by rewrite <-!app_assoc.
Qed.

Lemma buffer_fold_inv chains acc r :
  rfold buffer_step chains acc = Ok r → Forall (λ c, c ≠ []) chains.
Proof.
  revert acc. induction chains as [|c chains IH]; intros acc; simpl; [done|].
  intros (acc' & Hstep & Hrest)%rbind_Ok.
  constructor; [|by eapply IH].
  intros ->. by unfold buffer_step in Hstep.
Qed.

Lemma GetBuffer_inv tile b children U buf :
  _GetBuffer tile b children U = Ok buf →
  ∃ A, A_dag tile b children U = Ok A ∧
       Forall (λ c, c ≠ []) (chains_of A U) ∧
       buf.2 = concat (links_of_chain <$> chains_of A U) ∧
       py_max (concat (chains_of A U)) = Ok (buf.1 - 1).
Proof.
  unfold _GetBuffer, _GetChains.
  intros (chains & (A & HA & [= <-])%rbind_Ok &
          (acc & Hacc & (m & Hm & [= <-])%rbind_Ok)%rbind_Ok)%rbind_Ok.
  exists A. split; [done|].
  pose proof (buffer_fold_inv _ _ _ Hacc) as Hne.
  rewrite (buffer_fold_Ok _ _ Hne) in Hacc. injection Hacc as <-.
  simpl in *. repeat split; try done.
  rewrite Hm. f_equal. lia.
Qed.

Lemma GetBuffer_total tile b children U A :
  A_dag tile b children U = Ok A →
  Forall (λ c, c ≠ []) (chains_of A U) →
  ∃ buf, _GetBuffer tile b children U = Ok buf.
Proof.
  intros HA Hne. unfold _GetBuffer, _GetChains. rewrite HA. rsimpl.
  rewrite (buffer_fold_Ok _ _ Hne). rsimpl.
  destruct (py_max_total (concat (chains_of A U))) as [m Hm].
  - apply A_dag_inv in HA as (HU & _ & _).
    rewrite chains_of_fmap in *.
    destruct (reverse (seqZ 0 U)) as [|r rs] eqn:Hrev.
    { apply (f_equal length) in Hrev.
      rewrite length_reverse, length_seqZ in Hrev. simpl in Hrev. lia. }
    apply Forall_cons in Hne as [Hc _]. simpl.
    by destruct (chain_of A U r).
  - rewrite Hm. rsimpl. eauto.
Qed.

Lemma A_dag_lane tile b children U A s offsets m d i :
  A_dag tile b children U = Ok A →
  s ∈ children → consumer_view tile b s = Some (offsets, m, d) →
  0 ≤ i < U → d + i ∈ A.
Proof.
  intros (HU & _ & Hmem)%A_dag_inv Hs Hv Hi. apply Hmem.
  exists s, offsets, m, d, i, m. repeat split; try done; try lia.
  apply consumer_view_Some in Hv as (w & _ & _ & Hm & _).
  by apply py_max_spec in Hm as [? _].
Qed.

Lemma A_dag_residues tile b children U A :
  A_dag tile b children U = Ok A →
  Forall (λ s, is_Some (consumer_view tile b s)) children →
  ∀ r, 0 ≤ r < U → ∃ x, x ∈ A ∧ x `mod` U = r.
Proof.
  intros HA Hall r Hr.
  pose proof (A_dag_inv _ _ _ _ _ HA) as (HU & Hne & _).
  destruct children as [|s ch]; [done|].
  apply Forall_cons in Hall as [[[[offs m] d] Hv] _].
  exists (d + (r - d) `mod` U). split.
  - eapply A_dag_lane; [done|left|done|]. apply Z.mod_pos_bound. lia.
  - rewrite Z.add_mod_idemp_r by lia.
    replace (d + (r - d)) with r by lia. apply Z.mod_small. lia.
Qed.

Lemma chains_nonempty tile b children U A :
  A_dag tile b children U = Ok A →
  Forall (λ s, is_Some (consumer_view tile b s)) children →
  Forall (λ c, c ≠ []) (chains_of A U).
Proof.
  intros HA Hall. rewrite chains_of_fmap. apply Forall_fmap, Forall_forall.
  intros r Hr%elem_of_reverse%elem_of_seqZ. simpl.
  destruct (A_dag_residues _ _ _ _ _ HA Hall r) as (x & Hx & Hxr); [lia|].
  intros Hnil. assert (x ∈ chain_of A U r) as Hin by (by apply chain_of_elem).
  rewrite Hnil in Hin. by apply elem_of_nil in Hin.
Qed.

Lemma chains_of_length A U : length (chains_of A U) = Z.to_nat U.
Proof. unfold chains_of. by rewrite length_reverse, length_fmap, length_seqZ. Qed.

(** ** Lengths of the taps *)

Lemma chain_links_sorted c a b :
  StronglySorted Z.lt c → (a, b) ∈ chain_links c → a ∈ c ∧ b ∈ c ∧ a < b.
Proof.
  unfold chain_links. induction 1 as [|x l Hs IH Hall]; simpl.
  - by intros ?%elem_of_nil.
  - destruct l as [|y l]; simpl; [by intros ?%elem_of_nil|].
    intros [[= -> ->]|Hin]%elem_of_cons.
    + split; [left|]. split; [right; left|].
      by apply Forall_cons in Hall as [? _].
    + destruct (IH Hin) as (? & ? & ?). split; [by right|]. split; [by right|done].
Qed.

Lemma links_of_chain_snd c : (links_of_chain c).*2 = c.
Proof.
  destruct c as [|v rest]; [done|]. simpl. f_equal.
  change (zip (v :: rest) rest) with (chain_links (v :: rest)).
  unfold chain_links. simpl. generalize v. clear v.
  induction rest as [|y rest IH]; intros v; simpl; [done|]. f_equal. apply IH.
Qed.

Section lengths.
Context (U : Z) (HU : 1 ≤ U).

Lemma length_step_first first L a b :
  first !! Z.to_nat (a `mod` U) = Some true →
  length_step U (first, L) (a, b)
  = Ok (<[Z.to_nat (a `mod` U) := false]> first,
        <[b := if bool_decide (a >= U) then b `div` U else (b - a) `div` U]> L).
Proof.
  intros Hf. unfold length_step. cbn [fst snd].
  rewrite bool_decide_eq_false_2 by lia. rewrite Hf. rsimpl.
  by case_bool_decide.
Qed.

Lemma length_step_later first L a b :
  first !! Z.to_nat (a `mod` U) = Some false →
  length_step U (first, L) (a, b) = Ok (first, <[b := (b - a) `div` U]> L).
Proof.
  intros Hf. unfold length_step. cbn [fst snd].
  rewrite bool_decide_eq_false_2 by lia. by rewrite Hf.
Qed.

Lemma length_steps_later r first L links :
  0 ≤ r →
  first !! Z.to_nat r = Some false →
  Forall (λ l : Z * Z, l.1 `mod` U = r ∧ l.1 ≠ l.2) links →
  rfold (length_step U) links (first, L)
  = Ok (first, foldl (record_length U) L links).
Proof.
  intros Hr Hf Hall. revert L.
  induction Hall as [|[a b] links [Ha Hab] _ IH]; intros L; simpl; [done|].
  cbn [fst snd] in *. rewrite length_step_later by (by rewrite Ha). rsimpl.
  rewrite IH. do 2 f_equal. unfold record_length, expected_length. simpl.
  rewrite bool_decide_eq_false_2; [done|]. by intros [? _].
Qed.

Lemma length_steps_chain r first L c :
  0 ≤ r →
  first !! Z.to_nat r = Some true →
  c ≠ [] → StronglySorted Z.lt c → Forall (λ x, x `mod` U = r) c →
  rfold (length_step U) (links_of_chain c) (first, L)
  = Ok (<[Z.to_nat r := false]> first,
        foldl (record_length U) L (links_of_chain c)).
Proof.
  intros Hr Hf Hne Hs Hres. destruct c as [|v rest]; [done|]. simpl.
  pose proof (proj1 (Forall_forall _ _) Hres v (list_elem_of_here _ _)) as Hv.
  simpl in Hv.
  rewrite length_step_first by (by rewrite Hv). rewrite Hv. rsimpl.
  assert (∀ L', rfold (length_step U) (zip (v :: rest) rest)
                  (<[Z.to_nat r := false]> first, L')
                = Ok (<[Z.to_nat r := false]> first,
                      foldl (record_length U) L' (zip (v :: rest) rest))) as Hrest.
  { intros L'. apply (length_steps_later r); [done| |].
    - apply list_lookup_insert_eq. by eapply lookup_lt_Some.
    - apply Forall_forall. intros [a b] Hin.
      destruct (chain_links_sorted (v :: rest) a b Hs Hin) as (Ha & _ & Hlt).
      simpl. split; [|lia]. by apply (proj1 (Forall_forall _ _) Hres). }
  rewrite Hrest. do 3 f_equal. unfold record_length, expected_length. simpl.
  f_equal. case_bool_decide as Hge.
  - rewrite bool_decide_eq_true_2; [done|]. split; [done|lia].
  - rewrite bool_decide_eq_false_2; [done|]. intros [_ ?]. lia.
Qed.

Lemma length_steps_chains rs chains first L :
  chains_wf U rs chains →
  Forall (λ r, first !! Z.to_nat r = Some true) rs →
  ∃ first',
    rfold (length_step U) (concat (links_of_chain <$> chains)) (first, L)
    = Ok (first', foldl (record_length U) L (concat (links_of_chain <$> chains))).
Proof.
  intros (Hall & Hnd & Hrs). revert first L Hnd Hrs.
  induction Hall as [|r c rs chains (Hne & Hs & Hres) _ IH];
    intros first L Hnd Hrs Hfirst; simpl; [by eauto|].
  apply NoDup_cons in Hnd as [Hr Hnd].
  apply Forall_cons in Hrs as [Hr0 Hrs].
  apply Forall_cons in Hfirst as [Hfr Hfirst].
  rewrite rfold_app, foldl_app.
  simpl in Hr0, Hfr.
  rewrite (length_steps_chain r); [|lia || done..]. rsimpl.
  apply IH; [done|done|].
  apply Forall_forall. intros r' Hr'.
  rewrite list_lookup_insert_ne.
  - by apply (proj1 (Forall_forall _ _) Hfirst).
  - pose proof (proj1 (Forall_forall _ _) Hrs r' Hr') as Hr'0. simpl in Hr'0.
    intros Heq. apply Z2Nat.inj in Heq; [|lia..]. by subst.
Qed.

Lemma chains_wf_NoDup rs chains : chains_wf U rs chains → NoDup (concat chains).
Proof.
  intros (Hall & Hnd & _). revert Hnd.
  induction Hall as [|r c rs chains (Hne & Hs & Hres) Hall IH]; intros Hnd; simpl.
  - constructor.
  - apply NoDup_cons in Hnd as [Hr Hnd]. apply NoDup_app. split; [|split].
    + clear -Hs. induction Hs as [|x l _ IH Hx]; constructor; [|done].
      intros Hin. pose proof (proj1 (Forall_forall _ _) Hx x Hin). lia.
    + intros x Hx (c' & Hc' & Hxc')%elem_of_concat.
      apply list_elem_of_lookup in Hc' as [k Hk].
      destruct (Forall2_lookup_r _ _ _ _ _ Hall Hk) as (r' & Hr' & _ & _ & Hres').
      pose proof (proj1 (Forall_forall _ _) Hres x Hx) as H1.
      pose proof (proj1 (Forall_forall _ _) Hres' x Hxc') as H2. simpl in *.
      apply Hr. rewrite <-H1, H2. by eapply list_elem_of_lookup_2.
    + by apply IH.
Qed.

Lemma record_lengths_lookup (links : list (Z * Z)) L link :
  NoDup links.*2 → link ∈ links →
  foldl (record_length U) L links !! link.2 = Some (expected_length U link).
Proof.
  revert L. induction links as [|l links IH]; intros L Hnd Hin; simpl.
  - by apply elem_of_nil in Hin.
  - simpl in Hnd. apply NoDup_cons in Hnd as [Hl Hnd].
    apply elem_of_cons in Hin as [->|Hin]; [|by apply IH].
    clear IH. revert L Hl. induction links as [|l' links IH]; intros L Hl; simpl.
    + unfold record_length. by rewrite lookup_insert_eq.
    + simpl in Hl, Hnd. apply not_elem_of_cons in Hl as [Hne Hl].
      apply NoDup_cons in Hnd as [_ Hnd].
      unfold record_length at 2 3.
      rewrite insert_insert_ne by done. by apply IH.
Qed.
End lengths.

(** ** From one tensor to the whole stencil *)

Lemma producers_NoDup st :
  tensors_named st → NoDup (t_name <$> GetProducerTensors st).
Proof.
  intros Hnamed. unfold GetProducerTensors.
  eapply sublist_NoDup; [|apply fmap_sublist, sublist_filter].
  assert (t_name <$> (map_to_list (tensors st)).*2 = (map_to_list (tensors st)).*1)
    as ->; [|apply NoDup_fst_map_to_list].
  rewrite <-list_fmap_compose. apply list_fmap_ext.
  intros i [k t] Hkt. simpl.
  apply list_elem_of_lookup_2, elem_of_map_to_list in Hkt. by apply Hnamed in Hkt.
Qed.

Lemma GetReuseBuffers_fold st l acc acc' :
  NoDup (t_name <$> l) →
  rfold (reuse_buffers_step st) l acc = Ok acc' →
  (∀ b, b ∈ l → ∃ buf len, buffer_of st b = Ok (buf, len) ∧
                 acc'.1 !! t_name b = Some buf ∧ acc'.2 !! t_name b = Some len)
  ∧ (∀ n, n ∉ t_name <$> l → acc'.1 !! n = acc.1 !! n ∧ acc'.2 !! n = acc.2 !! n).
Proof.
  revert acc. induction l as [|b l IH]; intros acc Hnd; simpl.
  - intros [= <-]. split; [by intros ? ?%elem_of_nil|done].
  - apply NoDup_cons in Hnd as [Hb Hnd].
    intros (acc1 & Hstep & Hrest)%rbind_Ok.
    apply rbind_Ok in Hstep as ([buf len] & Hbl & [= <-]).
    destruct (IH _ Hnd Hrest) as [IH1 IH2]. simpl in *. split.
    + intros b' [->|Hin]%elem_of_cons; [|by apply IH1].
      exists buf, len. destruct (IH2 _ Hb) as [-> ->].
      by rewrite !lookup_insert_eq.
    + intros n [Hn1 Hn2]%not_elem_of_cons.
      destruct (IH2 _ Hn2) as [-> ->]. by rewrite !lookup_insert_ne.
Qed.

Lemma GetReuseBuffers_lookup st bufs lens b :
  tensors_named st →
  GetReuseBuffers st = Ok (bufs, lens) →
  b ∈ GetProducerTensors st →
  ∃ buf len, buffer_of st b = Ok (buf, len) ∧
             bufs !! t_name b = Some buf ∧ lens !! t_name b = Some len.
Proof.
  intros Hnamed Hget Hb.
  by apply (GetReuseBuffers_fold st _ _ _ (producers_NoDup st Hnamed) Hget).
Qed.

Lemma chains_of_wf A U :
  1 ≤ U → Forall (λ c, c ≠ []) (chains_of A U) →
  chains_wf U (reverse (seqZ 0 U)) (chains_of A U).
Proof.
  intros HU Hne. rewrite chains_of_fmap in *. split; [|split].
  - apply Forall2_fmap_r, Forall_Forall2_diag, Forall_forall.
    intros r Hr. split; [|split].
    + apply (proj1 (Forall_forall _ _) Hne). apply list_elem_of_fmap. eauto.
    + apply chain_of_sorted.
    + apply Forall_forall. intros x Hx. by apply chain_of_elem in Hx as [_ ?].
  - rewrite reverse_Permutation. apply NoDup_seqZ.
  - apply Forall_forall. intros r Hr%elem_of_reverse%elem_of_seqZ. lia.
Qed.

Lemma concat_links_snd chains :
  (concat (links_of_chain <$> chains)).*2 = concat chains.
Proof.
  induction chains as [|c chains IH]; csimpl; [done|].
  by rewrite fmap_app, links_of_chain_snd, IH.
Qed.

(** Per tensor: the lengths recorded for the links of a reuse buffer. *)
Lemma buffer_lengths_spec tile b children U buf :
  _GetBuffer tile b children U = Ok buf →
  ∃ len, buffer_lengths U buf = Ok len ∧
         ∀ link, link ∈ buf.2 → len !! link.2 = Some (expected_length U link).
Proof.
  intros (A & HA & Hne & Hlinks & Hmax)%GetBuffer_inv.
  pose proof (A_dag_inv _ _ _ _ _ HA) as (HU & _ & _).
  pose proof (chains_of_wf A U HU Hne) as Hwf.
  destruct (length_steps_chains U HU _ _ (replicate (Z.to_nat U) true) ∅ Hwf)
    as [first' Hfold].
  { apply Forall_forall. intros r Hr%elem_of_reverse%elem_of_seqZ.
    apply lookup_replicate_2. lia. }
  unfold buffer_lengths. rewrite Hlinks, Hfold. rsimpl.
  eexists. split; [done|]. intros link Hin.
  apply record_lengths_lookup; [|done].
  rewrite concat_links_snd. by eapply chains_wf_NoDup.
Qed.

Lemma py_max_concat_chains A U m :
  1 ≤ U → py_max (concat (chains_of A U)) = Ok m →
  m ∈ A ∧ ∀ y, y ∈ A → y ≤ m.
Proof.
  intros HU [Hin Hle]%py_max_spec. split.
  - by apply elem_of_chains_of in Hin.
  - intros y Hy. apply Hle. by apply elem_of_chains_of.
Qed.

(** C4 (reuse buffer).  For every producer tensor [b] of a stencil with
    unroll factor [U], the reuse buffer [GetReuseBuffers()[b.name]] starts
    with [max(A_dag) + 1], where [A_dag] is the union over the consuming
    stages [s] and the lanes [u] of [[0, U)] of
    [{max_offset(s,b) + u - x + delay[s][b] : x in the serialized window}];
    it continues with the links of the residue classes of [A_dag] modulo
    [U], in descending residue order: for each class, sorted ascending, a
    self-link [(v, v)] at its smallest element [v] and then the links
    between neighbours. *)
Theorem GetReuseBuffers_structure (st : Stencil) bufs lens (b : Tensor) :
  tensors_named st →
  GetReuseBuffers st = Ok (bufs, lens) →
  b ∈ GetProducerTensors st →
  ∃ children A chains buf,
    children_of st b = Ok children ∧
    bufs !! t_name b = Some buf ∧
    A_dag (tile_size st) (t_name b) children (unroll_factor st) = Ok A ∧
    (∀ y, y ∈ A ↔
          in_A_dag (tile_size st) (t_name b) children (unroll_factor st) y) ∧
    (buf.1 - 1 ∈ A ∧ ∀ y, y ∈ A → y ≤ buf.1 - 1) ∧
    Forall2 (λ r c, residue_chain A (unroll_factor st) r c ∧ c ≠ [])
            (reverse (seqZ 0 (unroll_factor st))) chains ∧
    buf.2 = concat (links_of_chain <$> chains).
Proof.
  intros Hnamed Hget Hb.
  destruct (GetReuseBuffers_lookup _ _ _ _ Hnamed Hget Hb)
    as (buf & len & Hbl & Hbuf & _).
  unfold buffer_of in Hbl.
  apply rbind_Ok in Hbl as (children & Hch & Hbl).
  apply rbind_Ok in Hbl as (buf' & Hgb & Hbl).
  apply rbind_Ok in Hbl as (len' & _ & [= <- <-]).
  destruct (GetBuffer_inv _ _ _ _ _ Hgb) as (A & HA & Hne & Hlinks & Hmax).
  pose proof (A_dag_inv _ _ _ _ _ HA) as (HU & _ & Hmem).
  exists children, A, (chains_of A (unroll_factor st)), buf'.
  split_and!; try done.
  - by apply (py_max_concat_chains A (unroll_factor st)).
  - by apply (py_max_concat_chains A (unroll_factor st)).
  - rewrite chains_of_fmap in *. apply Forall2_fmap_r, Forall_Forall2_diag, Forall_forall.
    intros r Hr. split; [apply chain_of_residue|].
    apply (proj1 (Forall_forall _ _) Hne). apply list_elem_of_fmap. eauto.
Qed.

(** The reuse buffer of tensor [tmp] of the blur stencil. *)
Lemma GetReuseBuffers_structure_witness :
  ∃ bufs lens b,
    tensors_named blur1 ∧ GetReuseBuffers blur1 = Ok (bufs, lens) ∧
    b ∈ GetProducerTensors blur1 ∧
    ∃ children A chains buf,
      children_of blur1 b = Ok children ∧
      bufs !! t_name b = Some buf ∧
      A_dag (tile_size blur1) (t_name b) children (unroll_factor blur1) = Ok A ∧
      (∀ y, y ∈ A ↔
            in_A_dag (tile_size blur1) (t_name b) children (unroll_factor blur1) y) ∧
      (buf.1 - 1 ∈ A ∧ ∀ y, y ∈ A → y ≤ buf.1 - 1) ∧
      Forall2 (λ r c, residue_chain A (unroll_factor blur1) r c ∧ c ≠ [])
              (reverse (seqZ 0 (unroll_factor blur1))) chains ∧
      buf.2 = concat (links_of_chain <$> chains).
Proof.
  destruct blur1_buffers as (bufs & lens & Hget).
  destruct blur1_tmp_producer as (b & Hin & _).
  exists bufs, lens, b.
  split; [exact tensors_named_blur|]. split; [exact Hget|]. split; [exact Hin|].
  exact (GetReuseBuffers_structure blur1 bufs lens b tensors_named_blur Hget Hin).
Defined.

(** C5 (tap lengths).  For every producer tensor [b] and every link
    [(start, end)] of its reuse buffer, [reuse_buffer_lengths[b.name][end]]
    is [end // U] when the link is the self-link opening a lane and
    [start >= U], and [(end - start) // U] for every other link, [U] being
    the unroll factor. *)
Theorem reuse_buffer_lengths_spec (st : Stencil) bufs lens (b : Tensor) :
  tensors_named st →
  GetReuseBuffers st = Ok (bufs, lens) →
  b ∈ GetProducerTensors st →
  ∃ buf len,
    bufs !! t_name b = Some buf ∧ lens !! t_name b = Some len ∧
    ∀ start end_, (start, end_) ∈ buf.2 →
      len !! end_ = Some (expected_length (unroll_factor st) (start, end_)).
Proof.
  intros Hnamed Hget Hb.
  destruct (GetReuseBuffers_lookup _ _ _ _ Hnamed Hget Hb)
    as (buf & len & Hbl & Hbuf & Hlen).
  exists buf, len. split_and!; try done.
  unfold buffer_of in Hbl.
  apply rbind_Ok in Hbl as (children & Hch & Hbl).
  apply rbind_Ok in Hbl as (buf' & Hgb & Hbl).
  apply rbind_Ok in Hbl as (len' & Hlen' & [= <- <-]).
  destruct (buffer_lengths_spec _ _ _ _ _ Hgb) as (len'' & Hl & Hspec).
  rewrite Hlen' in Hl. injection Hl as <-.
  intros start end_ Hin. by apply (Hspec (start, end_)).
Qed.

(** The tap lengths of tensor [tmp] of the blur stencil. *)
Lemma reuse_buffer_lengths_spec_witness :
  ∃ bufs lens b,
    tensors_named blur1 ∧ GetReuseBuffers blur1 = Ok (bufs, lens) ∧
    b ∈ GetProducerTensors blur1 ∧
    ∃ buf len,
      bufs !! t_name b = Some buf ∧ lens !! t_name b = Some len ∧
      ∀ start end_, (start, end_) ∈ buf.2 →
        len !! end_ = Some (expected_length (unroll_factor blur1) (start, end_)).
Proof.
  destruct blur1_buffers as (bufs & lens & Hget).
  destruct blur1_tmp_producer as (b & Hin & _).
  exists bufs, lens, b.
  split; [exact tensors_named_blur|]. split; [exact Hget|]. split; [exact Hin|].
  exact (reuse_buffer_lengths_spec blur1 bufs lens b tensors_named_blur Hget Hin).
Defined.

(** Tensor [a] of the skewed stencil, at unroll factor 1, has the reuse
    buffer [[6, (5, 5)]]: the link starts at [5 >= U], and the length
    recorded at 5 is [5 // 1], not [(5 - 5) // 1]. *)
Lemma first_link_length_uses_end :
  ∃ bufs lens len,
    GetReuseBuffers skew1 = Ok (bufs, lens) ∧ unroll_factor skew1 = 1 ∧
    bufs !! "a" = Some (6, [(5, 5)]) ∧ lens !! "a" = Some len ∧
    ¬ 5 < unroll_factor skew1 ∧
    len !! 5 = Some (5 `div` 1) ∧ len !! 5 ≠ Some ((5 - 5) `div` 1).
Proof.
  assert (match GetReuseBuffers skew1 with
          | Ok (bufs, lens) =>
              bufs !! "a" = Some (6, [(5, 5)]) ∧
              (lens !! "a") ≫= (.!! 5) = Some 5
          | Raise _ => False
          end) as H.
  { vm_compute. split; reflexivity. }
  assert (unroll_factor skew1 = 1) as HU by (vm_compute; reflexivity).
  destruct (GetReuseBuffers skew1) as [[bufs lens]|e] eqn:Hg; [|destruct H].
  destruct H as [Hb Hl].
  destruct (lens !! "a") as [len|] eqn:Hla; [|discriminate Hl]. simpl in Hl.
  exists bufs, lens, len.
  split; [reflexivity|]. split; [exact HU|]. split; [exact Hb|].
  split; [exact Hla|]. rewrite HU. split; [lia|]. rewrite Hl.
  split; [reflexivity|discriminate].
Qed.

(** C10 (no empty chain).  For a producer [b] with at least one consuming
    stage, each holding a window and a delay for [b], and an unroll factor
    [U >= 1], the set [A_dag] of [_GetChains] contains for each consuming
    stage the [U] consecutive integers [delay, ..., delay + U - 1]; every
    residue class modulo [U] is inhabited, [_GetChains] returns [U] chains
    none of which is empty, and [_GetBuffer], which indexes [chain[0]]
    unguarded, returns a buffer. *)
Theorem GetChains_every_lane_inhabited tile b (children : list Stage) U :
  1 ≤ U → children ≠ [] →
  Forall (λ s, is_Some (consumer_view tile b s)) children →
  ∃ A chains buf,
    A_dag tile b children U = Ok A ∧
    (∀ s offsets m d i, s ∈ children →
       consumer_view tile b s = Some (offsets, m, d) → 0 ≤ i < U → d + i ∈ A) ∧
    (∀ r, 0 ≤ r < U → ∃ x, x ∈ A ∧ x `mod` U = r) ∧
    _GetChains tile b children U = Ok chains ∧
    length chains = Z.to_nat U ∧
    Forall (λ c, c ≠ []) chains ∧
    _GetBuffer tile b children U = Ok buf.
Proof.
  intros HU Hne Hall.
  destruct (A_dag_total _ _ _ _ HU Hne Hall) as [A HA].
  pose proof (chains_nonempty _ _ _ _ _ HA Hall) as Hcne.
  destruct (GetBuffer_total _ _ _ _ _ HA Hcne) as [buf Hbuf].
  exists A, (chains_of A U), buf. split_and!; try done.
  - intros s offsets m d i Hs Hv Hi. by eapply A_dag_lane.
  - by apply (A_dag_residues _ _ _ _ _ HA Hall).
  - unfold _GetChains. by rewrite HA.
  - apply chains_of_length.
Qed.

(** The chains of the input of the blur stencil at unroll factor 2. *)
Lemma GetChains_every_lane_inhabited_witness :
  let children := consumers blur1 "input" in
  1 ≤ 2 ∧ children ≠ [] ∧
  Forall (λ s, is_Some (consumer_view [8; 0] "input" s)) children ∧
  ∃ A chains buf,
    A_dag [8; 0] "input" children 2 = Ok A ∧
    (∀ s offsets m d i, s ∈ children →
       consumer_view [8; 0] "input" s = Some (offsets, m, d) → 0 ≤ i < 2 →
       d + i ∈ A) ∧
    (∀ r, 0 ≤ r < 2 → ∃ x, x ∈ A ∧ x `mod` 2 = r) ∧
    _GetChains [8; 0] "input" children 2 = Ok chains ∧
    length chains = Z.to_nat 2 ∧
    Forall (λ c, c ≠ []) chains ∧
    _GetBuffer [8; 0] "input" children 2 = Ok buf.
Proof.
  intros children.
  assert (1 ≤ 2) as H1 by lia.
  assert (children ≠ []) as H2 by (vm_compute; discriminate).
  assert (Forall (λ s, is_Some (consumer_view [8; 0] "input" s)) children) as H3.
  { vm_compute. repeat constructor. eexists. reflexivity. }
  split; [exact H1|]. split; [exact H2|]. split; [exact H3|].
  exact (GetChains_every_lane_inhabited [8; 0] "input" children 2 H1 H2 H3).
Defined.

(** The unguarded loop of [_GetBuffer] fails on an empty chain. *)
Lemma buffer_step_empty_chain chains acc :
  [] ∈ chains → rfold buffer_step chains acc = Raise IndexError.
Proof.
  revert acc. induction chains as [|c chains IH]; intros acc Hin.
  - by apply elem_of_nil in Hin.
  - apply elem_of_cons in Hin as [<-|Hin]; [done|].
    simpl. destruct c as [|c0 rest]; [done|]. rsimpl. by apply IH.
Qed.

(** The replicated chains have no lane union: for tensor [a] of the skewed
    stencil and replication factor 2 the chain of residue 0 is empty, the
    unguarded loop would raise [IndexError] on it, and the guarded loop of
    [_get_replicated_reuse_buffer] skips it. *)
Lemma replicated_chain_may_be_empty :
  let children := consumers skew1 "a" in
  _get_replicated_reuse_chains [8; 0] "a" children 2 = Ok [[5]; []] ∧
  rfold buffer_step [[5]; []] ([], []) = Raise IndexError ∧
  _get_replicated_reuse_buffer [8; 0] "a" children 2 = Ok (6, [(5, 5)]).
Proof. intros children. split_and!; vm_compute; reflexivity. Qed.

(** ** Serialization *)

Section serialize.

Lemma foldl_mul_prod x l : foldl Z.mul x l = x * prod_list l.
Proof.
  revert x. induction l as [|y l IH]; intros x; simpl.
  - lia.
  - rewrite IH. unfold prod_list. simpl. lia.
Qed.

Lemma reduce_mul_prod l : l ≠ [] → reduce_mul l = Ok (prod_list l).
Proof.
  destruct l as [|x l]; [done|]. intros _. simpl.
  by rewrite foldl_mul_prod.
Qed.


Lemma Serialize_loop v T l acc :
  T ≠ [] →
  Forall (λ i, (1 ≤ i < length v)%nat) l →
  rfold (λ acc i,
           vi ← of_option IndexError (v !! i) ;
           p ← reduce_mul (take i T) ;
           Ok (acc + vi * p)) l acc
  = Ok (acc + foldr Z.add 0 (weighted v T <$> l)).
Proof.
  intros HT Hl. revert acc. induction Hl as [|i l [Hi1 Hi2] _ IH]; intros acc; csimpl.
  - f_equal. lia.
  - destruct (lookup_lt_is_Some_2 v i Hi2) as [vi Hvi].
    rewrite Hvi. simpl.
    rewrite reduce_mul_prod.
    2:{ destruct T; [done|]. destruct i; [exfalso; lia|done]. }
    simpl. rewrite IH. apply (f_equal Ok). unfold weighted at 2.
    rewrite (list_lookup_total_correct _ _ _ Hvi). 
    change (list_fmap nat Z (weighted v T) l) with (weighted v T <$> l). lia.
Qed.

Lemma Serialize_closed_form v T :
  length v = length T → v ≠ [] → Serialize v T = Ok (serialize_spec v T).
Proof.
  intros Hlen Hv. unfold Serialize, serialize_spec.
  destruct v as [|v0 v']; [done|]. simpl head. simpl of_option.
  change (Ok v0 ≫= ?k) with (k v0). cbv beta.
  rewrite Serialize_loop.
  - done.
  - destruct T; [done|done].
  - apply Forall_forall. intros i Hi. apply elem_of_seq in Hi. lia.
Qed.

End serialize.

Lemma serialize_spec_weighted v T :
  T ≠ [] →
  serialize_spec v T = foldr Z.add 0 (weighted v T <$> seq 0 (length T)).
Proof.
  intros HT. unfold serialize_spec.
  destruct T as [|t T']; [done|]. simpl length.
  rewrite Nat.sub_succ, Nat.sub_0_r.
  change (seq 0 (S (length T'))) with (0%nat :: seq 1 (length T')).
  rewrite fmap_cons. cbn [foldr]. unfold weighted at 1.
  change (prod_list (take 0 (t :: T'))) with 1. rewrite Z.mul_1_r. done.
Qed.

Lemma weighted_sum_diff v w T i l :
  NoDup l →
  (∀ j, j ∈ l → j ≠ i → v !!! j = w !!! j) →
  foldr Z.add 0 (weighted w T <$> l) - foldr Z.add 0 (weighted v T <$> l)
  = if bool_decide (i ∈ l) then (w !!! i - v !!! i) * prod_list (take i T) else 0.
Proof.
  intros Hnd. induction Hnd as [|j l Hj Hnd IH]; intros Heq; csimpl.
  - done.
  - specialize (IH (λ k Hk, Heq k (list_elem_of_further _ _ _ Hk))).
    destruct (decide (j = i)) as [->|Hne].
    + rewrite bool_decide_eq_true_2 by left.
      rewrite bool_decide_eq_false_2 in IH by done.
      unfold weighted at 1 3. lia.
    + assert (v !!! j = w !!! j) as Hvw by (apply Heq; [left|done]).
      unfold weighted at 1 3. rewrite Hvw.
      destruct (decide (i ∈ l)).
      * rewrite bool_decide_eq_true_2 by (by right).
        rewrite bool_decide_eq_true_2 in IH by done. lia.
      * rewrite bool_decide_eq_false_2.
        2:{ intros [?|?]%elem_of_cons; done. }
        rewrite bool_decide_eq_false_2 in IH by done. lia.
Qed.

Lemma prod_list_pos l : Forall (λ t, 0 < t) l → 0 < prod_list l.
Proof.
  induction 1 as [|t l Ht _ IH]; unfold prod_list in *; simpl; [lia|nia].
Qed.

Lemma serialize_spec_zero n T :
  T ≠ [] → (length T ≤ n)%nat → serialize_spec (replicate n 0) T = 0.
Proof.
  intros HT Hn. rewrite serialize_spec_weighted by done.
  assert (Forall (λ i, i < n)%nat (seq 0 (length T))) as Hall.
  { apply Forall_forall. intros i Hi%elem_of_seq. lia. }
  induction Hall as [|i l Hi _ IH]; csimpl; [done|].
  rewrite IH. unfold weighted.
  rewrite (list_lookup_total_correct _ _ 0); [lia|]. by apply lookup_replicate_2.
Qed.

Lemma serialize_spec_increasing v w T i :
  T ≠ [] →
  (i < length T)%nat →
  Forall (λ t, 0 < t) (take i T) →
  (∀ j, j ≠ i → v !!! j = w !!! j) →
  v !!! i < w !!! i →
  serialize_spec v T < serialize_spec w T.
Proof.
  intros HT Hi Hpos Heq Hlt.
  rewrite !serialize_spec_weighted by done.
  pose proof (weighted_sum_diff v w T i (seq 0 (length T))
                (NoDup_seq _ _) (λ j _ Hj, Heq j Hj)) as Hd.
  rewrite bool_decide_eq_true_2 in Hd by (apply elem_of_seq; lia).
  pose proof (prod_list_pos _ Hpos). nia.
Qed.

(** C6 (serialization).  For a tile-size vector [T] and a non-empty index
    vector [v] of the same length, [Serialize(v, T)] returns
    [v[0] + sum_{i=1}^{dim-1} v[i] * prod_{j<i} T[j]]; the all-zero vector
    serializes to 0; and raising the component of dimension [i] alone
    strictly raises the result, provided the tile sizes of the dimensions
    below [i] are positive. *)
Theorem Serialize_linear (T v : list Z) :
  length v = length T → v ≠ [] →
  Serialize v T = Ok (serialize_spec v T)
  ∧ Serialize (replicate (length T) 0) T = Ok 0
  ∧ ∀ (w : list Z) (i : nat),
      length w = length T →
      (i < length T)%nat →
      Forall (λ t, 0 < t) (take i T) →
      (∀ j, j ≠ i → v !! j = w !! j) →
      v !!! i < w !!! i →
      ∃ a b, Serialize v T = Ok a ∧ Serialize w T = Ok b ∧ a < b.
Proof.
  intros Hlen Hv.
  assert (T ≠ []) as HT by (destruct v, T; done).
  split; [by apply Serialize_closed_form|]. split.
  - rewrite Serialize_closed_form.
    + by rewrite serialize_spec_zero.
    + by rewrite length_replicate.
    + destruct T; done.
  - intros w i Hw Hi Hpos Heq Hlt.
    exists (serialize_spec v T), (serialize_spec w T).
    split; [by apply Serialize_closed_form|].
    split; [apply Serialize_closed_form; [done|destruct w, T; done]|].
    apply (serialize_spec_increasing v w T i); try done.
    intros j Hj. rewrite !list_lookup_total_alt. by rewrite Heq.
Qed.

Lemma Serialize_linear_witness :
  Serialize [1; 2] [233; 0] = Ok (serialize_spec [1; 2] [233; 0])
  ∧ Serialize (replicate (length [233; 0]) 0) [233; 0] = Ok 0
  ∧ ∀ (w : list Z) (i : nat),
      length w = length [233; 0] →
      (i < length [233; 0])%nat →
      Forall (λ t, 0 < t) (take i [233; 0]) →
      (∀ j, j ≠ i → [1; 2] !! j = w !! j) →
      [1; 2] !!! i < w !!! i →
      ∃ a b, Serialize [1; 2] [233; 0] = Ok a ∧ Serialize w [233; 0] = Ok b ∧ a < b.
Proof. apply (Serialize_linear [233; 0] [1; 2]); [reflexivity|discriminate]. Defined.

Lemma Serialize_not_increasing_for_all_tile_sizes :
  ¬ (∀ (T v w : list Z) (i : nat),
       length v = length T → length w = length T → (i < length T)%nat →
       (∀ j, j ≠ i → v !! j = w !! j) →
       v !!! i < w !!! i →
       ∃ a b, Serialize v T = Ok a ∧ Serialize w T = Ok b ∧ a < b).
Proof.
  intros H.
  destruct (H [233; 0; 0] [0; 0; 0] [0; 0; 1] 2%nat) as (a & b & Ha & Hb & Hab);
    try done.
  - simpl. lia.
  - intros j Hj. do 3 (destruct j as [|j]; try done).
  - vm_compute in Ha, Hb. simplify_eq. lia.
Qed.

(** ** Construction-time checks *)

Ltac rsimpl_all := repeat (unfold mbind, result_bind in *; simpl in * ).

Lemma Tensor_init_no_SemanticError node msg :
  Tensor_init node ≠ Raise (SemanticError msg).
Proof.
  unfold Tensor_init.
  destruct (n_kind node); rsimpl_all; [done| |].
  all: destruct (head (n_expr node)); rsimpl_all; [|done].
  all: by destruct (forallb _ _); rsimpl_all.
Qed.

Lemma make_tensors_no_SemanticError a locals output_node msg :
  make_tensors a locals output_node ≠ Raise (SemanticError msg).
Proof.
  unfold make_tensors.
  destruct (rfold _ locals ∅) as [ts|e] eqn:Hts; rsimpl_all.
  2:{ intros [= ->]. revert Hts. generalize (∅ : gmap string Tensor).
      induction locals as [|i locals IH]; intros m; rsimpl_all; [done|].
      destruct (Tensor_init i) as [t|e] eqn:Ht; rsimpl_all; [by eauto|].
      intros [= ->]. by eapply Tensor_init_no_SemanticError. }
  case_bool_decide; rsimpl_all; [done|].
  destruct (Tensor_init (a_input a)) as [t|e] eqn:Ht; rsimpl_all.
  2:{ intros [= ->]. by eapply Tensor_init_no_SemanticError. }
  case_bool_decide; rsimpl_all; [done|].
  destruct (Tensor_init output_node) as [t'|e] eqn:Ht'; rsimpl_all; [done|].
  intros [= ->]. by eapply Tensor_init_no_SemanticError.
Qed.

(** C8 (name collision).  A local definition named like the input does not
    end the construction with a [SemanticError]: formatting the message
    reads [self.input] before it is assigned, so an [AttributeError] leaves
    the constructor.  An output named like the input is not rejected at
    all, its name being looked up among the local names only, and the
    scheduler runs. *)
Theorem name_clash_raises_AttributeError :
  Stencil_assemble clash_local_args
  = Raise (AttributeError "'Stencil' object has no attribute 'input'")
  ∧ Stencil_init 10 clash_local_args
    = Some (Raise (AttributeError "'Stencil' object has no attribute 'input'"))
  ∧ ∃ st, Stencil_init 10 clash_output_args = Some (Ok st)
          ∧ chronological_tensors st = ["input"; "tmp"].
Proof.
  split; [by vm_compute|]. split; [by vm_compute|].
  eexists. split; [by vm_compute|]. reflexivity.
Qed.




(** ** The scheduler *)

Section scheduler.
Context (tile : list Z).

Lemma Sync_spec tensors s off0 off :
  Sync tile tensors s off0 = Ok off →
  ∃ so, stage_store_offset tile s = Ok so ∧ off0 ≤ off ∧
    ∀ x, x ∈ s_inputs s →
      ∃ xt offs lst, tensors !! x = Some xt ∧ s_offset s !! x = Some offs ∧
                     last offs = Some lst ∧ t_offset xt + lst - so ≤ off.
Proof.
  unfold Sync.
  intros (so & Hso & (loads & _ & Hfold)%rbind_Ok)%rbind_Ok.
  exists so. split; [done|].
  revert off0 Hfold. induction (s_inputs s) as [|x l IH]; intros off0; simpl.
  - intros [= <-]. split; [lia|]. by intros ? ?%elem_of_nil.
  - intros (off1 & Hstep & Hrest)%rbind_Ok.
    apply rbind_Ok in Hstep as (xt & Hxt%of_option_Ok & Hstep).
    apply rbind_Ok in Hstep as (offs & Hoffs%of_option_Ok & Hstep).
    apply rbind_Ok in Hstep as (lst & Hlst%of_option_Ok & Hstep).
    apply rbind_Ok in Hstep as (ld & _ & Hstep).
    apply rbind_Ok in Hstep as (? & _ & [= <-]).
    destruct (IH _ Hrest) as [Hle Hall].
    split; [case_bool_decide; lia|].
    intros y [-> |Hy]%elem_of_cons; [|by apply Hall].
    exists xt, offs, lst. split_and!; try done.
    case_bool_decide; lia.
Qed.

Lemma add_delay_spec tensors s so off delay :
  add_delay tensors s so off = Ok delay →
  ∀ x, x ∈ s_inputs s →
    ∃ xt offs lst, tensors !! x = Some xt ∧ s_offset s !! x = Some offs ∧
                   last offs = Some lst ∧
                   delay !! x = Some (Z.max (off - (t_offset xt + lst - so)) 0).
Proof.
  unfold add_delay. generalize (s_delay s).
  induction (s_inputs s) as [|x l IH]; intros d0; simpl.
  - by intros _ ? ?%elem_of_nil.
  - intros (d1 & Hstep & Hrest)%rbind_Ok.
    apply rbind_Ok in Hstep as (xt & Hxt%of_option_Ok & Hstep).
    apply rbind_Ok in Hstep as (offs & Hoffs%of_option_Ok & Hstep).
    apply rbind_Ok in Hstep as (lst & Hlst%of_option_Ok & [= <-]).
    intros y Hy. destruct (decide (y ∈ l)) as [Hin|Hnin].
    + by apply (IH _ Hrest).
    + apply elem_of_cons in Hy as [-> |?]; [|done].
      exists xt, offs, lst. split_and!; try done.
      clear IH. revert Hrest Hnin. generalize (Z.max (off - (t_offset xt + lst - so)) 0).
      intros v. revert d0. induction l as [|z l IH]; intros d0; simpl.
      * intros [= <-] _. by rewrite lookup_insert_eq.
      * intros (d2 & Hstep & Hrest)%rbind_Ok [Hne Hnin]%not_elem_of_cons.
        apply rbind_Ok in Hstep as (? & _ & Hstep).
        apply rbind_Ok in Hstep as (? & _ & Hstep).
        apply rbind_Ok in Hstep as (? & _ & [= <-]).
        rewrite insert_insert_ne in Hrest by done.
        by apply (IH _ Hrest).
Qed.

Lemma sorted_last_max l m :
  Sorted Z.le l → last l = Some m → py_max l = Ok m.
Proof.
  intros Hs%Sorted_StronglySorted Hl; [|apply _].
  apply last_Some in Hl as [l' ->]. apply py_max_spec. split.
  - apply elem_of_app. right. left.
  - intros y [Hy| ->%list_elem_of_singleton]%elem_of_app; [|lia].
    eapply (StronglySorted_app_1_elem_of Z.le); [exact Hs|done|left].
Qed.

Lemma sched_inv_init input tensors stages :
  offsets_sorted stages → sched_inv tile input (schedule_init input tensors stages).
Proof.
  intros Hs. split; simpl; try done.
  - apply NoDup_singleton.
  - intros n. set_solver.
  - by intros ? ? ?%elem_of_nil.
  - by intros ? ?%elem_of_nil.
Qed.

Lemma elem_of_tail {A} (l : list A) x : x ∈ tail l → x ∈ l.
Proof. destruct l; simpl; [done|by right]. Qed.

Lemma tail_snoc {A} (l : list A) x :
  l ≠ [] → tail (l ++ [x]) = tail l ++ [x].
Proof. by destruct l. Qed.

Lemma visit_stage_inv input st sn st' :
  sched_inv tile input st → visit_stage tile st sn = Ok st' → sched_inv tile input st'.
Proof.
  intros [Hhead Hnd Hproc Hsorted Hinputs Hcausal]. unfold visit_stage.
  intros (s & Hs%of_option_Ok & Hbody)%rbind_Ok.
  destruct (bool_decide (Forall _ _) && bool_decide _) eqn:Hcond.
  2:{ injection Hbody as <-. by split. }
  apply andb_prop in Hcond as [Hin%bool_decide_eq_true Hsn%bool_decide_eq_true].
  apply rbind_Ok in Hbody as (so & Hso & Hbody).
  apply rbind_Ok in Hbody as (out & Hout%of_option_Ok & Hbody).
  apply rbind_Ok in Hbody as (noff & Hsync & Hbody).
  apply rbind_Ok in Hbody as (delay & Hdelay & [= <-]).
  assert (sc_chrono st ≠ []) as Hne by (by destruct (sc_chrono st)).
  assert (sn ∉ sc_chrono st) as Hsn' by (by rewrite Hproc).
  assert (∀ x, x ∈ s_inputs s → x ≠ sn) as Hxsn.
  { intros x Hx ->. by apply Hsn, (proj1 (Forall_forall _ _) Hin). }
  split; simpl.
  - by destruct (sc_chrono st).
  - apply NoDup_app. split; [done|]. split; [|apply NoDup_singleton].
    by intros x Hx ->%list_elem_of_singleton.
  - intros n. rewrite elem_of_app, list_elem_of_singleton, Hproc. set_solver.
  - intros sn' s' x offs Hs' Hoffs.
    destruct (decide (sn' = sn)) as [-> |Hne'].
    + rewrite lookup_insert_eq in Hs'. injection Hs' as <-. simpl in Hoffs.
      by eapply Hsorted.
    + rewrite lookup_insert_ne in Hs' by done. by eapply Hsorted.
  - rewrite tail_snoc by done. intros sn' s' Hsn'' Hs'.
    apply elem_of_app in Hsn'' as [Hold| ->%list_elem_of_singleton].
    + rewrite lookup_insert_ne in Hs'.
      2:{ intros ->. apply Hsn'. by apply elem_of_tail. }
      eapply Forall_impl; [by eapply Hinputs|]. simpl. set_solver.
    + rewrite lookup_insert_eq in Hs'. injection Hs' as <-. simpl.
      eapply Forall_impl; [exact Hin|]. simpl. set_solver.
  - rewrite tail_snoc by done. intros sn' Hsn''.
    apply elem_of_app in Hsn'' as [Hold| ->%list_elem_of_singleton].
    + assert (sn' ≠ sn) as Hne'.
      { intros ->. apply Hsn'. by apply elem_of_tail. }
      destruct (Hcausal _ Hold) as (s' & out' & so' & Hs' & Hout' & Hso' & Hall).
      exists s', out', so'. rewrite !lookup_insert_ne by done.
      split_and!; try done. intros x Hx.
      destruct (Hall x Hx) as (xt & offs & m & Hxt & ?).
      exists xt, offs, m. rewrite lookup_insert_ne; [done|].
      intros <-. apply Hsn.
      by apply (proj1 (Forall_forall _ _) (Hinputs _ _ Hold Hs')).
    + exists (set_delay delay s), (set_offset noff out), so.
      rewrite !lookup_insert_eq. split_and!; try done.
      simpl. intros x Hx.
      destruct (Sync_spec _ _ _ _ Hsync) as (so' & Hso' & Hle & Hall).
      rewrite Hso in Hso'. injection Hso' as <-.
      destruct (Hall x Hx) as (xt & offs & lst & Hxt & Hoffs & Hlst & Hcaus).
      destruct (add_delay_spec _ _ _ _ _ Hdelay x Hx)
        as (xt' & offs' & lst' & Hxt' & Hoffs' & Hlst' & Hd).
      rewrite lookup_insert_ne in Hxt' by (by apply not_eq_sym, Hxsn).
      rewrite Hxt in Hxt'. injection Hxt' as <-.
      rewrite Hoffs in Hoffs'. injection Hoffs' as <-.
      rewrite Hlst in Hlst'. injection Hlst' as <-.
      exists xt, offs, lst.
      rewrite lookup_insert_ne by (by apply not_eq_sym, Hxsn).
      split_and!; try done.
      * apply sorted_last_max; [|done]. by eapply Hsorted.
      * rewrite Hd. f_equal. lia.
Qed.

Lemma rfold_inv {A S} (P : S → Prop) (f : S → A → result S) l s s' :
  (∀ s x s', P s → f s x = Ok s' → P s') →
  P s → rfold f l s = Ok s' → P s'.
Proof.
  intros Hstep. revert s. induction l as [|x l IH]; intros s Hs; simpl.
  - by intros [= <-].
  - intros (s1 & Hf & Hrest)%rbind_Ok. eapply IH; [|done]. by eapply Hstep.
Qed.

Lemma visit_tensor_inv input st bn st' :
  sched_inv tile input st → visit_tensor tile st bn = Ok st' → sched_inv tile input st'.
Proof.
  intros Hinv. unfold visit_tensor.
  intros (b & _ & Hfold)%rbind_Ok.
  refine (rfold_inv (sched_inv tile input) _ _ _ _ _ Hinv Hfold).
  intros ? ? ?. apply visit_stage_inv.
Qed.

Lemma schedule_loop_inv input fuel st st' :
  sched_inv tile input st → schedule_loop fuel tile st = Some (Ok st') →
  sched_inv tile input st'.
Proof.
  revert st. induction fuel as [|fuel IH]; intros st Hinv; simpl.
  - destruct (sc_queue st) eqn:Hq; [|done]. by intros [= <-].
  - destruct (sc_queue st) as [|bn q] eqn:Hq; [by intros [= <-]|].
    destruct (visit_tensor _ _ _) as [st1|e] eqn:Hvisit; [|done].
    apply IH. eapply visit_tensor_inv; [|exact Hvisit].
    destruct Hinv. by split.
Qed.
End scheduler.

(** ** Windows are sorted by construction *)

Global Instance key_le_total : Total key_le.
Proof. intros [a ?] [b ?]. unfold key_le. simpl. lia. Qed.

Lemma sorted_by_Serialize_sorted tile idxs w offs :
  sorted_by_Serialize tile idxs = Ok w →
  SerializeIterative w tile = Ok offs →
  Sorted Z.le offs.
Proof.
  unfold sorted_by_Serialize.
  intros (keyed & Hkeyed%rmap_Ok & [= <-])%rbind_Ok Hoffs.
  assert (Forall (λ kx : Z * list Z, Serialize kx.2 tile = Ok kx.1) keyed) as Hall.
  { clear Hoffs. induction Hkeyed as [|x kx idxs keyed Hx _ IH]; constructor; [|done].
    by apply rbind_Ok in Hx as (k & Hk & [= <-]). }
  rewrite <-(merge_sort_Permutation key_le) in Hall.
  pose proof (Sorted_merge_sort key_le keyed) as Hsorted.
  revert Hall Hsorted Hoffs. generalize (merge_sort key_le keyed). clear.
  intros l Hall Hsorted Hoffs.
  assert (offs = l.*1) as ->.
  { clear Hsorted. revert offs Hoffs. unfold SerializeIterative.
    induction Hall as [|[k x] l Hkx _ IH]; intros offs; csimpl.
    - by intros [= <-].
    - simpl in Hkx. rewrite Hkx.
      intros (y & [= <-] & (ys & Hys & [= <-])%rbind_Ok)%rbind_Ok.
      f_equal. by apply IH. }
  eapply (Sorted_fmap _ key_le); [|done]. by intros [] [].
Qed.

Lemma rfold_insert_lookup_inv {A V} (F : A → result V) (key : A → string)
    (l : list A) (m0 m : gmap string V) k v :
  rfold (λ m a, v ← F a; Ok (<[key a := v]> m)) l m0 = Ok m →
  m !! k = Some v →
  (∃ a, a ∈ l ∧ key a = k ∧ F a = Ok v) ∨ m0 !! k = Some v.
Proof.
  revert m0. induction l as [|a l IH]; intros m0; simpl.
  - intros [= <-] ?. by right.
  - intros (m1 & (v' & Hv' & [= <-])%rbind_Ok & Hrest)%rbind_Ok Hlk.
    destruct (IH _ Hrest Hlk) as [(a' & ? & ? & ?)|Hl].
    + left. exists a'. split; [by right|done].
    + destruct (decide (key a = k)) as [Heq|Hne].
      * rewrite Heq, lookup_insert_eq in Hl. injection Hl as ->.
        left. exists a. split; [left|done].
      * rewrite lookup_insert_ne in Hl by done. by right.
Qed.

Lemma make_stage_sorted tile extra tensors node s x offs :
  make_stage tile extra tensors node = Ok s →
  s_offset s !! x = Some offs → Sorted Z.le offs.
Proof.
  unfold make_stage.
  intros (parents & _ & (window & Hwin & (offset & Hoff & (expr & _ & [= <-])
            %rbind_Ok)%rbind_Ok)%rbind_Ok)%rbind_Ok Hx.
  simpl in Hx. unfold serialize_window in Hoff.
  destruct (rfold_insert_lookup_inv (λ nw, SerializeIterative nw.2 tile) fst
              _ _ _ _ _ Hoff Hx) as [([n w] & Hin & Hn & Hser)|Hempty]; [|done].
  simpl in *. subst n. apply elem_of_map_to_list in Hin.
  unfold GetWindowFor in Hwin.
  destruct (rfold_insert_lookup_inv
              (λ name, sorted_by_Serialize tile
                         (remove_dups (l_idx <$> filter (λ l, l_name l = name)
                                                  (GetLoads node)))) id
              _ _ _ _ _ Hwin Hin) as [(n & _ & _ & Hsorted)|Hempty]; [|done].
  by eapply sorted_by_Serialize_sorted.
Qed.

Lemma add_stage_sorted tile extra g node g' :
  offsets_sorted g.2 → add_stage tile extra g node = Ok g' → offsets_sorted g'.2.
Proof.
  intros Hs. unfold add_stage.
  intros (t0 & _ & (s & Hmk & [= <-])%rbind_Ok)%rbind_Ok. simpl.
  intros sn s' x offs Hlk Hoffs.
  destruct (decide (n_name node = sn)) as [Heq|Hne].
  - rewrite Heq, lookup_insert_eq in Hlk. injection Hlk as <-.
    by eapply make_stage_sorted.
  - rewrite lookup_insert_ne in Hlk by done. by eapply Hs.
Qed.

Lemma resolve_borders_sorted g borders g' :
  offsets_sorted g.2 → resolve_borders g borders = Ok g' → offsets_sorted g'.2.
Proof.
  unfold resolve_borders.
  apply (rfold_inv (λ g : gmap string Tensor * gmap string Stage,
                      offsets_sorted g.2)).
  clear. intros g [dst srcs] g' Hs.
  intros (src & _ & (t & _ & (s & Hlk%of_option_Ok & [= <-])%rbind_Ok)%rbind_Ok)
    %rbind_Ok. simpl in *.
  intros sn s' x offs Hs' Hoffs.
  destruct (decide (dst = sn)) as [Heq|Hne].
  - rewrite Heq, lookup_insert_eq in Hs'. injection Hs' as <-. subst dst.
    eapply (Hs sn s); [done|]. by destruct (s_border s).
  - rewrite lookup_insert_ne in Hs' by done. by eapply Hs.
Qed.

Lemma Stencil_assemble_sorted a bank self g :
  Stencil_assemble a = Ok (bank, self, g) → offsets_sorted g.2.
Proof.
  unfold Stencil_assemble.
  intros (bank' & _ & (u & _ & Hrest)%rbind_Ok)%rbind_Ok.
  destruct (expand_iterations a) as [[locals output_node] borders].
  apply rbind_Ok in Hrest as (self' & _ & Hrest).
  apply rbind_Ok in Hrest as (g0 & Hg0 & Hrest).
  apply rbind_Ok in Hrest as (g1 & Hg1 & [= <- <- <-]).
  eapply resolve_borders_sorted; [|exact Hg1].
  eapply (rfold_inv (λ g, offsets_sorted g.2)); [| |exact Hg0].
  - intros ? ? ?. apply add_stage_sorted.
  - intros sn s x offs Hlk. simpl in Hlk. by rewrite lookup_empty in Hlk.
Qed.

(** ** Tensors are never removed *)

Lemma visit_stage_dom tile n st sn st' :
  is_Some (sc_tensors st !! n) → visit_stage tile st sn = Ok st' →
  is_Some (sc_tensors st' !! n).
Proof.
  intros Hn. unfold visit_stage.
  intros (s & _ & Hbody)%rbind_Ok.
  destruct (_ && _).
  - apply rbind_Ok in Hbody as (so & _ & Hbody).
    apply rbind_Ok in Hbody as (out & _ & Hbody).
    apply rbind_Ok in Hbody as (noff & _ & Hbody).
    apply rbind_Ok in Hbody as (delay & _ & [= <-]). simpl.
    destruct (decide (sn = n)) as [->|Hne].
    + rewrite lookup_insert_eq. eauto.
    + by rewrite lookup_insert_ne.
  - by injection Hbody as <-.
Qed.

Lemma schedule_loop_dom tile n fuel st st' :
  is_Some (sc_tensors st !! n) → schedule_loop fuel tile st = Some (Ok st') →
  is_Some (sc_tensors st' !! n).
Proof.
  revert st. induction fuel as [|fuel IH]; intros st Hn; simpl.
  - destruct (sc_queue st); [|done]. by intros [= <-].
  - destruct (sc_queue st) as [|bn q]; [by intros [= <-]|].
    destruct (visit_tensor _ _ _) as [st1|e] eqn:Hvisit; [|done].
    apply IH. unfold visit_tensor in Hvisit.
    apply rbind_Ok in Hvisit as (b & _ & Hfold).
    refine (rfold_inv (λ st, is_Some (sc_tensors st !! n)) _ _ _ _ _ _ Hfold);
      [|exact Hn].
    intros ? ? ?. apply visit_stage_dom.
Qed.

Lemma schedule_input_dom tile fuel input tensors stages st :
  schedule fuel tile input tensors stages = Some (Ok st) →
  is_Some (sc_tensors st !! input).
Proof.
  unfold schedule. destruct fuel as [|fuel]; [done|]. simpl.
  destruct (visit_tensor _ _ _) as [st1|e] eqn:Hvisit; [|done].
  intros Hloop. eapply schedule_loop_dom; [|exact Hloop].
  unfold visit_tensor in Hvisit. simpl in Hvisit.
  apply rbind_Ok in Hvisit as (b & Hb%of_option_Ok & Hfold).
  eapply (rfold_inv (λ st, is_Some (sc_tensors st !! input))); [| |exact Hfold].
  - intros ? ? ?. apply visit_stage_dom.
  - simpl. eauto.
Qed.

Lemma Stencil_init_inv fuel a st :
  Stencil_init fuel a = Some (Ok st) →
  ∃ sc, sched_inv (a_tile_size a) (n_name (a_input a)) sc ∧
        is_Some (sc_tensors sc !! n_name (a_input a)) ∧
        tile_size st = a_tile_size a ∧ input st = n_name (a_input a) ∧
        tensors st = sc_tensors sc ∧ stages st = sc_stages sc ∧
        chronological_tensors st = sc_chrono sc.
Proof.
  unfold Stencil_init.
  destruct (Stencil_assemble a) as [[[bank self] g]|e] eqn:Hasm; [|done].
  destruct (schedule _ _ _ _ _) as [[sc|e]|] eqn:Hsched; [|done..].
  intros [= <-]. exists sc. split_and!; try done.
  - eapply schedule_loop_inv; [|exact Hsched].
    apply sched_inv_init. by eapply Stencil_assemble_sorted.
  - by eapply schedule_input_dom.
Qed.







(** ** Replicated variants *)

Lemma rfold_ext {A S} (f g : S → A → result S) l s :
  (∀ s x, f s x = g s x) → rfold f l s = rfold g l s.
Proof.
  intros Hfg. revert s. induction l as [|x l IH]; intros s; simpl; [done|].
  rewrite Hfg. destruct (g s x); rsimpl; [apply IH|done].
Qed.

(** The inner comprehension of the replicated variant is the lane set of
    lane 0. *)
Lemma replicated_lane offsets delay :
  rfold (λ (acc : gset Z) offset,
           m ← py_max offsets; d ← delay; Ok (acc ∪ {[m - offset + d]}))
        offsets ∅
  = lane_set offsets delay 0.
Proof.
  unfold lane_set. apply rfold_ext. intros acc x.
  destruct (py_max offsets); rsimpl; [|done].
  destruct delay; rsimpl; [|done]. do 3 f_equal. lia.
Qed.

Lemma stage_A_dag_one_lane tile b s :
  stage_A_dag tile b 1 s
  = (w ← of_option (KeyError b) (s_window s !! b);
     offsets ← SerializeIterative w tile;
     lane_set offsets (stage_delay b s) 0).
Proof.
  unfold stage_A_dag.
  destruct (of_option _ _); rsimpl; [|done].
  destruct (SerializeIterative _ _) as [offsets|]; rsimpl; [|done].
  change (Z.of_nat 0 + 0) with 0.
  destruct (lane_set offsets _ 0) as [S|]; rsimpl; [|done].
  f_equal. set_solver.
Qed.

Lemma union_fold_rmap {A} (F : A → result (gset Z)) l (A0 : gset Z) :
  rfold (λ acc s, new ← F s; Ok (acc ∪ new)) l A0
  = (sets ← rmap F l; Ok (A0 ∪ ⋃ sets)).
Proof.
  revert A0. induction l as [|s l IH]; intros A0; simpl.
  - rsimpl. f_equal. set_solver.
  - destruct (F s) as [S|]; rsimpl; [|done].
    rewrite IH. destruct (rmap F l) as [sets|]; rsimpl; [|done].
    f_equal. set_solver.
Qed.

Lemma replicated_A_dag_one_lane tile b children :
  children ≠ [] →
  replicated_A_dag tile b children = A_dag tile b children 1.
Proof.
  intros Hne. unfold replicated_A_dag, A_dag.
  rewrite (rfold_ext _ (λ acc s, new ← stage_A_dag tile b 1 s; Ok (acc ∪ new))).
  - rewrite union_fold_rmap.
    destruct (rmap _ children) as [sets|] eqn:Hsets; rsimpl; [|done].
    destruct sets as [|X sets].
    + apply rmap_Ok, Forall2_nil_inv_r in Hsets. done.
    + simpl. f_equal. set_solver.
  - intros acc s. rewrite stage_A_dag_one_lane.
    destruct (of_option _ _); rsimpl; [|done].
    destruct (SerializeIterative _ _) as [offsets|]; rsimpl; [|done].
    f_equal. apply replicated_lane.
Qed.

Lemma replicated_A_dag_inv tile b children A :
  replicated_A_dag tile b children = Ok A →
  ∀ y, y ∈ A ↔ in_replicated_A_dag tile b children y.
Proof.
  intros HA y. destruct (decide (children = [])) as [->|Hne].
  { injection HA as <-. split; [by intros ?%elem_of_empty|].
    by intros (s & ? & ? & ? & ? & ?%elem_of_nil & _). }
  rewrite replicated_A_dag_one_lane in HA by done.
  apply A_dag_inv in HA as (_ & _ & Hmem). rewrite Hmem.
  unfold in_A_dag, in_replicated_A_dag. split.
  - intros (s & offs & m & d & u & x & Hs & Hv & Hu & Hx & ->).
    exists s, offs, m, d, x. split_and!; try done. lia.
  - intros (s & offs & m & d & x & Hs & Hv & Hx & ->).
    exists s, offs, m, d, 0, x. split_and!; try done; lia.
Qed.

(** ** Replicated points *)

Lemma foldl_insert_lookup {V} (kvs : list (Z * V)) (m0 : gmap Z V) k v :
  foldl (λ m kv, <[kv.1 := kv.2]> m) m0 kvs !! k = Some v →
  (k, v) ∈ kvs ∨ m0 !! k = Some v.
Proof.
  revert m0. induction kvs as [|[k' v'] kvs IH]; intros m0; simpl; [by right|].
  intros [Hin|Hm]%IH; [left; by right|].
  destruct (decide (k' = k)) as [->|Hne].
  - rewrite lookup_insert_eq in Hm. injection Hm as ->. left; left.
  - rewrite lookup_insert_ne in Hm by done. by right.
Qed.

Lemma foldl_insert_is_Some {V} (kvs : list (Z * V)) (m0 : gmap Z V) k :
  k ∈ kvs.*1 ∨ is_Some (m0 !! k) →
  is_Some (foldl (λ m kv, <[kv.1 := kv.2]> m) m0 kvs !! k).
Proof.
  revert m0. induction kvs as [|[k' v'] kvs IH]; intros m0; simpl.
  - by intros [?%elem_of_nil|?].
  - intros [[->|Hin]%elem_of_cons|Hm]; apply IH.
    + right. rewrite lookup_insert_eq. eauto.
    + by left.
    + right. destruct (decide (k' = k)) as [->|Hne].
      * rewrite lookup_insert_eq. eauto.
      * by rewrite lookup_insert_ne.
Qed.

Lemma replicated_stage_points_inv tile b s p :
  replicated_stage_points tile b s = Ok p →
  ∃ offsets m d,
    consumer_view tile b s = Some (offsets, m, d) ∧
    (∀ tap idx, p !! tap = Some idx →
       ∃ off, offsets !! idx = Some off ∧ tap = m - off + d) ∧
    (∀ idx off, offsets !! idx = Some off →
       ∃ idx', p !! (m - off + d) = Some idx' ∧ offsets !! idx' = Some off).
Proof.
  unfold replicated_stage_points.
  intros (w & Hw%of_option_Ok & (offsets & Hoffs & (m & Hm & Hfold)%rbind_Ok)
            %rbind_Ok)%rbind_Ok.
  assert (offsets ≠ []) as Hne by (intros ->; done).
  assert (∃ d, s_delay s !! b = Some d) as [d Hd].
  { destruct offsets as [|o os]; [done|]. rewrite imap_cons in Hfold.
    simpl in Hfold. apply rbind_Ok in Hfold as (? & Hstep & _).
    apply rbind_Ok in Hstep as (d & Hd%of_option_Ok & _). eauto. }
  exists offsets, m, d. split.
  { apply consumer_view_Some. by exists w. }
  assert (p = foldl (λ m' kv, <[kv.1 := kv.2]> m') ∅
                ((λ io : nat * Z, (m - io.2 + d, io.1)) <$> imap pair offsets))
    as ->.
  { revert Hfold. generalize (∅ : gmap Z nat). generalize (imap pair offsets).
    unfold stage_delay. rewrite Hd. rsimpl.
    intros l. induction l as [|io l IH]; intros m0; simpl; [by intros [= <-]|].
    apply IH. }
  split.
  - intros tap idx [Hin|Hempty]%foldl_insert_lookup; [|done].
    apply list_elem_of_fmap in Hin as ([i off] & [= -> ->] & Hin).
    apply elem_of_lookup_imap in Hin as (i' & off' & [= -> ->] & Hlk). eauto.
  - intros idx off Hlk.
    destruct (foldl_insert_is_Some
                ((λ io : nat * Z, (m - io.2 + d, io.1)) <$> imap pair offsets)
                ∅ (m - off + d)) as [idx' Hidx'].
    { left. apply list_elem_of_fmap. exists (m - off + d, idx). split; [done|].
      apply list_elem_of_fmap. exists (idx, off). split; [done|].
      by apply (elem_of_lookup_imap_2 pair). }
    exists idx'. split; [done|].
    apply foldl_insert_lookup in Hidx' as [Hin|Hempty]; [|done].
    apply list_elem_of_fmap in Hin as ([i off'] & [= Heq ->] & Hin).
    apply elem_of_lookup_imap in Hin as (i' & off'' & [= -> ->] & Hlk'). simpl in *.
    replace off with off'' by lia. done.
Qed.

Lemma replicated_points_lookup tile b children pts n p :
  _get_replicated_points tile b children = Ok pts →
  pts !! n = Some p →
  ∃ s, s ∈ children ∧ s_name s = n ∧ replicated_stage_points tile b s = Ok p.
Proof.
  unfold _get_replicated_points.
  assert (∀ (ap0 : gmap string (gmap Z nat)),
    rfold (λ ap s, p ← replicated_stage_points tile b s; Ok (<[s_name s := p]> ap))
          children ap0 = Ok pts →
    pts !! n = Some p →
    (∃ s, s ∈ children ∧ s_name s = n ∧ replicated_stage_points tile b s = Ok p)
    ∨ ap0 !! n = Some p) as Hgen.
  { induction children as [|s children IH]; intros ap0; simpl.
    - intros [= <-] ?. by right.
    - intros (ap1 & (p' & Hp' & [= <-])%rbind_Ok & Hrest)%rbind_Ok Hlk.
      destruct (IH _ Hrest Hlk) as [(s' & ? & ? & ?)|Hl].
      + left. exists s'. split; [by right|done].
      + destruct (decide (s_name s = n)) as [Heq|Hne].
        * rewrite Heq, lookup_insert_eq in Hl. injection Hl as ->.
          left. exists s. split; [left|done].
        * rewrite lookup_insert_ne in Hl by done. by right. }
  intros H1 H2. by destruct (Hgen ∅ H1 H2) as [?|?].
Qed.

(** C3 (replicated variants).  The replicated variants follow the unrolled
    algorithm for a single lane and keep the delay term: the set [A_dag] of
    [_get_replicated_reuse_chains] is the union over the consuming stages [s]
    of [{max(offsets) - x + s.delay[b] : x in offsets}], which is the set of
    [_GetChains] at unroll factor 1; and [_get_replicated_points] records
    the window rank [idx] at tap [max(offsets) - offsets[idx] + s.delay[b]]. *)
Theorem replicated_variants_keep_delay tile b (children : list Stage) :
  (∀ A, replicated_A_dag tile b children = Ok A →
        ∀ y, y ∈ A ↔ in_replicated_A_dag tile b children y)
  ∧ (children ≠ [] →
     replicated_A_dag tile b children = A_dag tile b children 1)
  ∧ (∀ pts n p, _get_replicated_points tile b children = Ok pts →
       pts !! n = Some p →
       ∃ s offsets m d,
         s ∈ children ∧ s_name s = n ∧
         consumer_view tile b s = Some (offsets, m, d) ∧
         (∀ tap idx, p !! tap = Some idx →
            ∃ off, offsets !! idx = Some off ∧ tap = m - off + d) ∧
         (∀ idx off, offsets !! idx = Some off →
            ∃ idx', p !! (m - off + d) = Some idx' ∧ offsets !! idx' = Some off)).
Proof.
  split_and!.
  - apply replicated_A_dag_inv.
  - apply replicated_A_dag_one_lane.
  - intros pts n p Hpts Hp.
    destruct (replicated_points_lookup _ _ _ _ _ _ Hpts Hp) as (s & Hs & Hn & Hsp).
    destruct (replicated_stage_points_inv _ _ _ _ Hsp) as (offs & m & d & ? & ? & ?).
    by exists s, offs, m, d.
Qed.

(** The replicated set of tensor [a] of the skewed stencil is the unrolled
    one at unroll factor 1. *)
Lemma replicated_variants_keep_delay_witness :
  let children := consumers skew1 "a" in
  children ≠ [] ∧
  replicated_A_dag [8; 0] "a" children = A_dag [8; 0] "a" children 1.
Proof.
  intros children.
  assert (children ≠ []) as Hne by (vm_compute; discriminate).
  split; [exact Hne|].
  exact (proj1 (proj2 (replicated_variants_keep_delay [8; 0] "a" children)) Hne).
Defined.

(** Tensor [a] of the skewed stencil is read by the output stage through
    the window [[0]] with delay 5: the replicated set is [{0 - 0 + 5}] and
    the point of rank 0 is recorded at tap [0 - 0 + 5]; nothing is at
    [0 - 0]. *)
Lemma replicated_chains_include_delay :
  let children := consumers skew1 "a" in
  s_name <$> children = ["output"] ∧
  consumer_view [8; 0] "a" <$> children = [Some ([0], 0, 5)] ∧
  ∃ A p,
    replicated_A_dag [8; 0] "a" children = Ok A ∧
    (0 - 0 + 5) ∈ A ∧ ((0 - 0) ∉ A) ∧
    _get_replicated_points [8; 0] "a" children = Ok {["output" := p]} ∧
    p !! (0 - 0 + 5) = Some 0%nat ∧ p !! (0 - 0) = None.
Proof.
  intros children. split; [vm_compute; reflexivity|].
  split; [vm_compute; reflexivity|].
  exists {[5]}, {[5 := 0%nat]}. split_and!.
  - vm_compute; reflexivity.
  - apply elem_of_singleton; reflexivity.
  - rewrite elem_of_singleton; discriminate.
  - vm_compute; reflexivity.
  - vm_compute; reflexivity.
  - vm_compute; reflexivity.
Qed.

(** ** Readers of a tap *)

Lemma size_lane_pairs (dst : string) (pts : gmap Z nat) :
  size (set_map (pair dst) (dom pts) : gset (string * Z)) = size pts.
Proof.
  unfold set_map. rewrite size_list_to_set.
  - rewrite length_fmap. rewrite <-size_dom. done.
  - apply NoDup_fmap_2; [|apply NoDup_elements]. by intros ? ? [= ->].
Qed.

Lemma readers_pairs_list (l : list (string * Points)) tap :
  NoDup l.*1 →
  size (⋃ ((λ dp, set_map (pair dp.1) (dom (default ∅ (dp.2 !! tap))))
             <$> l) : gset (string * Z))
  = sum_list ((λ dp, size (default ∅ (dp.2 !! tap))) <$> l).
Proof.
  induction l as [|[dst pd] l IH]; intros Hnd; csimpl.
  - reflexivity.
  - apply NoDup_cons in Hnd as [Hdst Hnd].
    rewrite size_union.
    2:{ intros [dst' lane] (lane' & [= -> ->] & _)%elem_of_map
          (X & (dp & -> & Hdp)%list_elem_of_fmap
             & (lane'' & [= Heq _] & _)%elem_of_map)%elem_of_union_list.
        apply Hdst. simpl. rewrite Heq.
        exact (list_elem_of_fmap_2 fst _ _ Hdp). }
    by rewrite size_lane_pairs, IH.
Qed.

Lemma readers_distinct_pairs (dsts : gmap string Points) tap :
  readers dsts tap = size (reader_pairs dsts tap).
Proof.
  unfold readers, reader_pairs. symmetry.
  apply readers_pairs_list, NoDup_fst_map_to_list.
Qed.

Lemma elem_of_reader_pairs (dsts : gmap string Points) tap dst lane :
  (dst, lane) ∈ reader_pairs dsts tap ↔
  ∃ pd pts, dsts !! dst = Some pd ∧ pd !! tap = Some pts ∧ is_Some (pts !! lane).
Proof.
  unfold reader_pairs. rewrite elem_of_union_list. split.
  - intros (X & ([dst' pd] & -> & Hdp%elem_of_map_to_list)%list_elem_of_fmap
              & (lane' & [= -> ->] & Hlane%elem_of_dom)%elem_of_map).
    simpl in *. destruct (pd !! tap) as [pts|] eqn:Hpts.
    + by exists pd, pts.
    + simpl in Hlane. rewrite lookup_empty in Hlane. by destruct Hlane.
  - intros (pd & pts & Hdst & Hpts & Hlane).
    eexists. split.
    + apply list_elem_of_fmap. exists (dst, pd). split; [done|].
      by apply elem_of_map_to_list.
    + simpl. rewrite Hpts. simpl. apply elem_of_map. exists lane.
      split; [done|]. by apply elem_of_dom.
Qed.

(** ** Forwardings *)

Lemma rfold_nested {A K B S} (f : K → S → B → result S) (k : A → K)
    (g : A → list B) (l : list A) (s : S) :
  rfold (λ s a, rfold (f (k a)) (g a) s) l s
  = rfold (λ s t, f t.1 s t.2) (concat ((λ a, pair (k a) <$> g a) <$> l)) s.
Proof.
  revert s. induction l as [|a l IH]; intros s; simpl; [done|].
  rewrite rfold_app.
  assert (∀ bs s, rfold (λ s t, f t.1 s t.2) (pair (k a) <$> bs) s
                  = rfold (f (k a)) bs s) as ->.
  { induction bs as [|b' bs IHb]; intros s'; simpl; [done|].
    destruct (f (k a) s' b'); rsimpl; [apply IHb|done]. }
  destruct (rfold (f (k a)) (g a) s); rsimpl; [apply IH|done].
Qed.

Lemma pe_ports_length src dst (pts : gmap Z nat) outs :
  length (foldl (λ outs up, pe_port src dst up.2 up.1 :: outs) outs
                (map_to_list pts))
  = (size pts + length outs)%nat.
Proof.
  rewrite <-length_map_to_list. revert outs.
  induction (map_to_list pts) as [|up l IH]; intros outs; simpl; [done|].
  rewrite IH. simpl. lia.
Qed.

Section forwarding_facts.
Context (bp : Stencil → string → Z → Z → result (string * list string * list string)).
Context (st : Stencil) (src : string) (nf lengths : gmap Z Z).

Lemma names_set_empty : names_set ∅.
Proof. intros t d H. by rewrite lookup_empty in H. Qed.

Lemma forwarding_step_spec dst fw tap pts fw' :
  names_set fw →
  forwarding_step bp st src dst nf lengths fw (tap, pts) = Ok fw' →
  names_set fw' ∧
  (∀ t, t ≠ tap → fw' !! t = fw !! t) ∧
  ∃ d', fw' !! tap = Some d' ∧
        length (f_outputs d')
        = (size pts + match fw !! tap with
                      | Some d => length (f_outputs d)
                      | None => next_port nf tap
                      end)%nat.
Proof.
  intros Hnames. unfold forwarding_step. cbn [fst snd].
  destruct (fw !! tap) as [d|] eqn:Hd; cbn [default].
  - rewrite bool_decide_eq_true_2 by (by eapply Hnames).
    intros [= <-]. split_and!.
    + intros t d0. destruct (decide (tap = t)) as [->|Hne].
      * rewrite lookup_insert_eq. intros [= <-]. simpl. by eapply Hnames.
      * rewrite lookup_insert_ne by done. apply Hnames.
    + intros t Ht. by rewrite lookup_insert_ne.
    + eexists. rewrite lookup_insert_eq. split; [done|]. simpl.
      apply pe_ports_length.
  - rewrite bool_decide_eq_false_2 by (intros H; by apply H).
    cbn [f_outputs f_inputs f_params f_func_name].
    intros (len & _ & (t & _ & (is_input & _ & Hbody)%rbind_Ok)%rbind_Ok)%rbind_Ok.
    assert (length (match nf !! tap with
                    | Some nxt =>
                        foldl (λ outs up, pe_port src dst up.2 up.1 :: outs) []
                          (map_to_list pts)
                        ++ [offset_port "/* output */ " src nxt]
                    | None =>
                        foldl (λ outs up, pe_port src dst up.2 up.1 :: outs) []
                          (map_to_list pts)
                    end) = (size pts + next_port nf tap)%nat) as Hlen.
    { unfold next_port. destruct (nf !! tap).
      - rewrite length_app, pe_ports_length. simpl. lia.
      - rewrite pe_ports_length. simpl. lia. }
    destruct is_input.
    + injection Hbody as <-. split_and!.
      * intros t' d0. destruct (decide (tap = t')) as [->|Hne].
        -- rewrite lookup_insert_eq. by intros [= <-].
        -- rewrite lookup_insert_ne by done. apply Hnames.
      * intros t' Ht. by rewrite lookup_insert_ne.
      * eexists. rewrite lookup_insert_eq. split; [done|]. exact Hlen.
    + apply rbind_Ok in Hbody as (ui & _ & (b & _ & [= <-])%rbind_Ok).
      split_and!.
      * intros t' d0. destruct (decide (tap = t')) as [->|Hne].
        -- rewrite lookup_insert_eq. by intros [= <-].
        -- rewrite lookup_insert_ne by done. apply Hnames.
      * intros t' Ht. by rewrite lookup_insert_ne.
      * eexists. rewrite lookup_insert_eq. split; [done|]. exact Hlen.
Qed.

Lemma forwardings_fold_spec flat fw0 fw :
  names_set fw0 →
  rfold (λ fw t, forwarding_step bp st src t.1 nf lengths fw t.2) flat fw0
  = Ok fw →
  names_set fw ∧
  ∀ tap,
    match fw0 !! tap with
    | Some d0 => ∃ d, fw !! tap = Some d ∧
                      length (f_outputs d)
                      = (length (f_outputs d0) + tap_count flat tap)%nat
    | None => if decide (tap ∈ (flat.*2).*1)
              then ∃ d, fw !! tap = Some d ∧
                        length (f_outputs d)
                        = (tap_count flat tap + next_port nf tap)%nat
              else fw !! tap = None
    end.
Proof.
  revert fw0. induction flat as [|[dst [tap0 pts]] flat IH]; intros fw0 Hn; simpl.
  - intros [= <-]. split; [done|]. intros tap.
    destruct (fw0 !! tap) as [d0|] eqn:Hd0.
    + exists d0. split; [done|]. unfold tap_count. simpl. lia.
    + done.
  - intros (fw1 & Hstep & Hrest)%rbind_Ok.
    destruct (forwarding_step_spec _ _ _ _ _ Hn Hstep)
      as (Hn1 & Hother & d1 & Hd1 & Hlen1).
    destruct (IH _ Hn1 Hrest) as [Hnfw Hall]. split; [done|].
    intros tap. specialize (Hall tap).
    unfold tap_count. csimpl. fold (tap_count flat tap).
    destruct (decide (tap0 = tap)) as [->|Hne].
    + rewrite Hd1 in Hall. destruct Hall as (d & Hd & Hlen).
      destruct (fw0 !! tap) as [d0|].
      * exists d. split; [done|]. lia.
      * rewrite decide_True by left. exists d. split; [done|]. lia.
    + rewrite Hother in Hall by done.
      destruct (fw0 !! tap) as [d0|]; [done|].
      destruct (decide (tap ∈ (flat.*2).*1)) as [Hin|Hnin].
      * rewrite decide_True by (by right). destruct Hall as (d & ? & ?).
        exists d. split; [done|]. lia.
      * rewrite decide_False; [done|].
        by intros [?|?]%elem_of_cons.
Qed.

Lemma forwarding_step_total dst fw tap pts t len :
  tensors st !! src = Some t → PreserveBorderTo_true t = false →
  lengths !! tap = Some len →
  ∃ fw', forwarding_step bp st src dst nf lengths fw (tap, pts) = Ok fw'.
Proof.
  intros Ht Hb Hlen. unfold forwarding_step. cbn [fst snd].
  destruct (bool_decide (f_func_name _ ≠ EmptyString)); [by eauto|].
  rewrite Hlen, Ht. rsimpl. rewrite Hb, andb_false_r. rsimpl. eauto.
Qed.

Lemma forwardings_fold_total flat fw0 t :
  tensors st !! src = Some t → PreserveBorderTo_true t = false →
  Forall (λ tap, is_Some (lengths !! tap)) (flat.*2).*1 →
  ∃ fw, rfold (λ fw t, forwarding_step bp st src t.1 nf lengths fw t.2) flat fw0
        = Ok fw.
Proof.
  intros Ht Hb. revert fw0.
  induction flat as [|[dst [tap pts]] flat IH]; intros fw0 Hall; simpl; [by eauto|].
  csimpl in Hall. apply Forall_cons in Hall as [[len Hlen] Hall].
  destruct (forwarding_step_total dst fw0 tap pts t len Ht Hb Hlen) as [fw1 ->].
  rsimpl. by apply IH.
Qed.
End forwarding_facts.

(** ** Counting readers *)

Lemma inner_count (l : list (Z * gmap Z nat)) tap :
  NoDup l.*1 →
  sum_list ((λ op, if decide (op.1 = tap) then size op.2 else 0%nat) <$> l)
  = size (default ∅ ((list_to_map l : gmap Z (gmap Z nat)) !! tap)).
Proof.
  induction l as [|[k v] l IH]; intros Hnd; csimpl.
  - by rewrite lookup_empty.
  - apply NoDup_cons in Hnd as [Hk Hnd]. rewrite IH by done.
    destruct (decide (k = tap)) as [->|Hne].
    + rewrite lookup_insert_eq. simpl.
      rewrite (proj1 (not_elem_of_list_to_map _ _)) by done. simpl.
      rewrite map_size_empty. lia.
    + by rewrite lookup_insert_ne.
Qed.

Lemma tap_count_readers (dsts : gmap string Points) tap :
  tap_count (flat_points dsts) tap = readers dsts tap.
Proof.
  unfold tap_count, flat_points, readers.
  induction (map_to_list dsts) as [|[dst pd] l IH]; csimpl; [done|].
  rewrite fmap_app, sum_list_with_app, IH. f_equal.
  rewrite <-list_fmap_compose.
  rewrite <-(list_to_map_to_list pd) at 2.
  rewrite <-inner_count by apply NoDup_fst_map_to_list.
  f_equal.
Qed.

Lemma elem_of_flat_taps (dsts : gmap string Points) tap :
  tap ∈ ((flat_points dsts).*2).*1 ↔
  ∃ dst pd, dsts !! dst = Some pd ∧ is_Some (pd !! tap).
Proof.
  unfold flat_points. split.
  - intros ([tap' pts] & -> & ([dst op] & -> & Hin)%list_elem_of_fmap)%list_elem_of_fmap.
    apply elem_of_concat in Hin as (l & Hl & Hin).
    apply list_elem_of_fmap in Hl as ([dst' pd] & -> & Hdp%elem_of_map_to_list).
    apply list_elem_of_fmap in Hin as ([t p] & [= -> ->] & Hop).
    simpl in *. apply elem_of_map_to_list in Hop.
    exists dst', pd. split; [done|]. eauto.
  - intros (dst & pd & Hdst & [pts Hpts]).
    apply list_elem_of_fmap. exists (tap, pts). split; [done|].
    apply list_elem_of_fmap. exists (dst, (tap, pts)). split; [done|].
    apply elem_of_concat. exists (pair dst <$> map_to_list pd). split.
    + apply list_elem_of_fmap. exists (dst, pd). split; [done|].
      by apply elem_of_map_to_list.
    + apply list_elem_of_fmap. exists (tap, pts). split; [done|].
      by apply elem_of_map_to_list.
Qed.

(** ** The taps of the point maps are elements of A† *)

Lemma stage_points_taps tile b U s P tap :
  stage_points tile b U s = Ok P → is_Some (P !! tap) →
  ∃ offsets m d u x,
    consumer_view tile b s = Some (offsets, m, d) ∧
    0 ≤ u < U ∧ x ∈ offsets ∧ tap = m + u - x + d.
Proof.
  unfold stage_points.
  intros (w & Hw%of_option_Ok & (offsets & Hoffs & (m & Hm & Hfold)%rbind_Ok)
            %rbind_Ok)%rbind_Ok Htap.
  assert (∀ lanes (P0 P : Points),
    rfold (λ m0 unroll_index,
             rfold (λ m1 io,
                      d ← stage_delay b s;
                      let tap := m - io.2 + d + unroll_index in
                      Ok (<[tap := <[U - 1 - unroll_index := io.1]>
                                     (default ∅ (m1 !! tap))]> m1))
                   (imap pair offsets) m0) lanes P0 = Ok P →
    is_Some (P !! tap) →
    is_Some (P0 !! tap) ∨
    ∃ d u x, s_delay s !! b = Some d ∧ u ∈ lanes ∧ x ∈ offsets ∧
             tap = m + u - x + d) as Hgen.
  { clear Hfold Htap P. induction lanes as [|u lanes IH]; intros P0 P; simpl.
    - intros [= <-] ?. by left.
    - intros (P1 & Hinner & Hrest)%rbind_Ok HP.
      destruct (IH _ _ Hrest HP) as [H1|(d & u' & x & ? & ? & ? & ?)].
      2:{ right. exists d, u', x. split_and!; try done. by right. }
      assert (∀ ios (Q0 Q : Points),
        rfold (λ m1 io,
                 d ← stage_delay b s;
                 let tap := m - io.2 + d + u in
                 Ok (<[tap := <[U - 1 - u := io.1]> (default ∅ (m1 !! tap))]> m1))
              ios Q0 = Ok Q →
        is_Some (Q !! tap) →
        is_Some (Q0 !! tap) ∨
        ∃ d io, s_delay s !! b = Some d ∧ io ∈ ios ∧ tap = m - io.2 + d + u)
        as Hin.
      { clear. induction ios as [|io ios IH]; intros Q0 Q; simpl.
        - intros [= <-] ?. by left.
        - intros (Q1 & (d & Hd%of_option_Ok & [= <-])%rbind_Ok & Hrest)%rbind_Ok HQ.
          destruct (IH _ _ Hrest HQ) as [H1|(d' & io' & ? & ? & ?)].
          + destruct (decide (m - io.2 + d + u = tap)) as [Heq|Hne].
            * right. exists d, io. split_and!; [done|left|done].
            * left. cbv zeta in H1. by rewrite lookup_insert_ne in H1.
          + right. exists d', io'. split_and!; try done. by right. }
      destruct (Hin _ _ _ Hinner H1) as [?|(d & [i x] & Hd & Hio & ->)];
        [by left|].
      right. apply elem_of_lookup_imap in Hio as (i' & x' & [= -> ->] & Hx).
      exists d, u, x'. split_and!; [done|left| |simpl; lia].
      by eapply list_elem_of_lookup_2. }
  destruct (Hgen _ _ _ Hfold Htap) as [[? H0]|(d & u & x & Hd & Hu%elem_of_seqZ & Hx & ->)].
  { by rewrite lookup_empty in H0. }
  exists offsets, m, d, u, x. split_and!; try done; try lia.
  apply consumer_view_Some. by exists w.
Qed.

Lemma GetPoints_taps tile b children U dsts dst pd tap :
  _GetPoints tile b children U = Ok dsts →
  dsts !! dst = Some pd → is_Some (pd !! tap) →
  in_A_dag tile b children U tap.
Proof.
  unfold _GetPoints. intros Hfold Hdst Htap.
  destruct (rfold_insert_lookup_inv (stage_points tile b U) s_name
              _ _ _ _ _ Hfold Hdst) as [(s & Hs & _ & Hsp)|H0].
  2:{ by rewrite lookup_empty in H0. }
  destruct (stage_points_taps _ _ _ _ _ _ Hsp Htap)
    as (offs & m & d & u & x & ? & ? & ? & ?).
  by exists s, offs, m, d, u, x.
Qed.

Lemma rfold_insert_lookup_fwd {A V} (F : A → result V) (key : A → string)
    (l : list A) (m0 m : gmap string V) :
  NoDup (key <$> l) →
  rfold (λ m a, v ← F a; Ok (<[key a := v]> m)) l m0 = Ok m →
  (∀ a, a ∈ l → ∃ v, F a = Ok v ∧ m !! key a = Some v)
  ∧ (∀ k, k ∉ key <$> l → m !! k = m0 !! k).
Proof.
  revert m0. induction l as [|a l IH]; intros m0 Hnd; simpl.
  - intros [= <-]. split; [by intros ? ?%elem_of_nil|done].
  - csimpl in Hnd. apply NoDup_cons in Hnd as [Ha Hnd].
    intros (m1 & (v & Hv & [= <-])%rbind_Ok & Hrest)%rbind_Ok.
    destruct (IH _ Hnd Hrest) as [IH1 IH2]. split.
    + intros a' [->|Hin]%elem_of_cons; [|by apply IH1].
      exists v. split; [done|]. by rewrite (IH2 _ Ha), lookup_insert_eq.
    + intros k [Hk1 Hk2]%not_elem_of_cons.
      by rewrite (IH2 _ Hk2), lookup_insert_ne.
Qed.

Lemma GetAllPoints_lookup st ap b :
  tensors_named st → GetAllPoints st = Ok ap → b ∈ GetProducerTensors st →
  ∃ dsts, points_of st b = Ok dsts ∧ ap !! t_name b = Some dsts.
Proof.
  intros Hnamed Hget Hb.
  by apply (rfold_insert_lookup_fwd (points_of st) t_name _ _ _
              (producers_NoDup st Hnamed) Hget).
Qed.

Lemma producer_lookup st b :
  tensors_named st → b ∈ GetProducerTensors st → tensors st !! t_name b = Some b.
Proof.
  intros Hnamed (_ & ([k t] & -> & Hkt%elem_of_map_to_list)%list_elem_of_fmap)
    %list_elem_of_filter. simpl. by rewrite (Hnamed _ _ Hkt).
Qed.

Lemma buffer_lengths_cover tile b children U buf len A y :
  _GetBuffer tile b children U = Ok buf →
  buffer_lengths U buf = Ok len →
  A_dag tile b children U = Ok A →
  y ∈ A → is_Some (len !! y).
Proof.
  intros Hbuf Hlen HA Hy.
  destruct (buffer_lengths_spec _ _ _ _ _ Hbuf) as (len' & Hlen' & Hspec).
  rewrite Hlen in Hlen'. injection Hlen' as <-.
  destruct (GetBuffer_inv _ _ _ _ _ Hbuf) as (A' & HA' & _ & Hlinks & _).
  rewrite HA in HA'. injection HA' as <-.
  pose proof (A_dag_inv _ _ _ _ _ HA) as (HU & _ & _).
  apply (elem_of_chains_of A U y HU) in Hy.
  rewrite <-concat_links_snd, <-Hlinks in Hy.
  apply list_elem_of_fmap in Hy as (link & -> & Hlink).
  rewrite (Hspec _ Hlink). eauto.
Qed.

Lemma GetNextFIFO_Ok st bufs lens :
  GetReuseBuffers st = Ok (bufs, lens) →
  GetNextFIFO st = Ok (next_fifo_of <$> bufs).
Proof. intros H. unfold GetNextFIFO. by rewrite H. Qed.

(** C7 (forwarding completeness).  For every tensor [b] with at least one
    consumer, a tap offset has a descriptor in [GetForwardings(b.name)]
    exactly when it is a key of [all_points[b.name][dst]] for some consumer
    [dst] -- one descriptor, the result being keyed by tap -- and the
    output-port list of that descriptor has as many entries as there are
    distinct [(stage, lane)] pairs reading the tap, plus one when the tap
    has a successor in [next_fifo].  The descriptors are produced whenever
    [b] preserves no border. *)
Theorem GetForwardings_complete
    (border_part : Stencil → string → Z → Z →
                   result (string * list string * list string))
    (st : Stencil) bufs lens ap (b : Tensor) :
  tensors_named st →
  GetReuseBuffers st = Ok (bufs, lens) →
  GetAllPoints st = Ok ap →
  b ∈ GetProducerTensors st →
  ∃ buf dsts,
    bufs !! t_name b = Some buf ∧ ap !! t_name b = Some dsts ∧
    (∀ fw, GetForwardings border_part st (t_name b) = Ok fw →
       ∀ tap,
         (is_Some (fw !! tap) ↔
          ∃ dst pd, dsts !! dst = Some pd ∧ is_Some (pd !! tap)) ∧
         ∀ d, fw !! tap = Some d →
              length (f_outputs d)
              = (size (reader_pairs dsts tap)
                 + next_port (next_fifo_of buf) tap)%nat) ∧
    (PreserveBorderTo_true b = false →
     ∃ fw, GetForwardings border_part st (t_name b) = Ok fw).
Proof.
  intros Hnamed Hbufs Hap Hb.
  destruct (GetReuseBuffers_lookup _ _ _ _ Hnamed Hbufs Hb)
    as (buf & len & Hbl & Hbuf & Hlen).
  destruct (GetAllPoints_lookup _ _ _ Hnamed Hap Hb) as (dsts & Hpts & Hdsts).
  exists buf, dsts. split; [done|]. split; [done|].
  assert (GetForwardings border_part st (t_name b)
          = forwardings_of border_part st (t_name b) dsts (next_fifo_of buf) len)
    as ->.
  { unfold GetForwardings. rewrite (GetNextFIFO_Ok _ _ _ Hbufs), Hap, Hbufs.
    rsimpl. rewrite Hdsts, Hbuf, Hlen, lookup_fmap, Hbuf. done. }
  assert (forwardings_of border_part st (t_name b) dsts (next_fifo_of buf) len
          = rfold (λ fw t, forwarding_step border_part st (t_name b) t.1
                             (next_fifo_of buf) len fw t.2)
                  (flat_points dsts) ∅) as ->.
  { unfold forwardings_of, flat_points.
    apply (rfold_nested
             (λ dst, forwarding_step border_part st (t_name b) dst
                       (next_fifo_of buf) len)
             fst (λ dp, map_to_list dp.2)). }
  split.
  - intros fw Hfw tap. rewrite <-readers_distinct_pairs.
    destruct (forwardings_fold_spec _ _ _ _ _ _ _ _ names_set_empty Hfw)
      as [_ Hall].
    specialize (Hall tap). rewrite lookup_empty in Hall.
    rewrite tap_count_readers in Hall.
    destruct (decide (tap ∈ ((flat_points dsts).*2).*1)) as [Hin|Hnin].
    + destruct Hall as (d & Hd & Hlen'). split.
      * split; [intros _; by apply elem_of_flat_taps|by eauto].
      * intros d' Hd'. rewrite Hd in Hd'. by injection Hd' as <-.
    + split.
      * split; [intros [? H0]; by rewrite Hall in H0|].
        intros H0. by apply elem_of_flat_taps in H0.
      * intros d Hd. by rewrite Hall in Hd.
  - intros Hborder.
    apply (forwardings_fold_total _ _ _ _ _ _ _ b);
      [by apply producer_lookup|done|].
    apply Forall_forall. intros tap (dst & pd & Hdst & Htap)%elem_of_flat_taps.
    unfold buffer_of in Hbl.
    apply rbind_Ok in Hbl as (children & Hch & Hbl).
    apply rbind_Ok in Hbl as (buf' & Hgb & Hbl).
    apply rbind_Ok in Hbl as (len' & Hlen' & [= <- <-]).
    unfold points_of in Hpts. rewrite Hch in Hpts.
    destruct (GetBuffer_inv _ _ _ _ _ Hgb) as (A & HA & _).
    eapply buffer_lengths_cover; [done..|].
    apply (A_dag_inv _ _ _ _ _ HA).
    by eapply GetPoints_taps.
Qed.

(** The forwardings of tensor [tmp] of the blur stencil, which preserves no
    border. *)
Lemma GetForwardings_complete_witness :
  let border_part := λ (_ : Stencil) (_ : string) (_ _ : Z),
                       Raise TypeError
                       : result (string * list string * list string) in
  ∃ bufs lens ap b,
    tensors_named blur1 ∧ GetReuseBuffers blur1 = Ok (bufs, lens) ∧
    GetAllPoints blur1 = Ok ap ∧ b ∈ GetProducerTensors blur1 ∧
    ∃ buf dsts,
      bufs !! t_name b = Some buf ∧ ap !! t_name b = Some dsts ∧
      (∀ fw, GetForwardings border_part blur1 (t_name b) = Ok fw →
         ∀ tap,
           (is_Some (fw !! tap) ↔
            ∃ dst pd, dsts !! dst = Some pd ∧ is_Some (pd !! tap)) ∧
           ∀ d, fw !! tap = Some d →
                length (f_outputs d)
                = (size (reader_pairs dsts tap)
                   + next_port (next_fifo_of buf) tap)%nat) ∧
      (PreserveBorderTo_true b = false →
       ∃ fw, GetForwardings border_part blur1 (t_name b) = Ok fw).
Proof.
  intros border_part.
  destruct blur1_buffers as (bufs & lens & Hget).
  destruct blur1_points as (ap & Hap).
  destruct blur1_tmp_producer as (b & Hin & _).
  exists bufs, lens, ap, b.
  split; [exact tensors_named_blur|]. split; [exact Hget|].
  split; [exact Hap|]. split; [exact Hin|].
  exact (GetForwardings_complete border_part blur1 bufs lens ap b
           tensors_named_blur Hget Hap Hin).
Defined.

(** * Further properties of the code *)

(** ** More on the blur stencil *)

Lemma blur1_next_fifo : ∃ nf, GetNextFIFO blur1 = Ok nf.
Proof.
  assert (match GetNextFIFO blur1 with Ok _ => True | Raise _ => False end)
    as H by (vm_compute; exact I).
  destruct (GetNextFIFO blur1) as [nf|e]; [by eauto|destruct H].
Qed.

Lemma blur1_replicated_buffers :
  ∃ bufs lens, get_replicated_reuse_buffers blur1 = Ok (bufs, lens).
Proof.
  assert (match get_replicated_reuse_buffers blur1 with
          | Ok _ => True
          | Raise _ => False
          end) as H by (vm_compute; exact I).
  destruct (get_replicated_reuse_buffers blur1) as [[bufs lens]|e];
    [by eauto|destruct H].
Qed.


Lemma blur1_names_distinct : NoDup (definition_names (blur_args 1)).
Proof. vm_compute. repeat constructor; by apply (bool_decide_unpack _). Qed.

Lemma blur1_all_scheduled :
  ∀ sn, is_Some (stages blur1 !! sn) → sn ∈ chronological_tensors blur1.
Proof.
  assert (map_Forall (λ sn _, sn ∈ chronological_tensors blur1) (stages blur1))
    as H.
  { apply map_Forall_to_list. vm_compute. repeat constructor. }
  intros sn [s Hs]. exact (H sn s Hs).
Qed.

Lemma blur1_input_points :
  ∃ dsts, _GetPoints [8; 0] "input" (consumers blur1 "input") 2 = Ok dsts.
Proof.
  assert (match _GetPoints [8; 0] "input" (consumers blur1 "input") 2 with
          | Ok _ => True
          | Raise _ => False
          end) as H by (vm_compute; exact I).
  destruct (_GetPoints [8; 0] "input" (consumers blur1 "input") 2)
    as [dsts|e]; [by eauto|destruct H].
Qed.

(** ** More on serialization *)

Lemma serialize_spec_ext v w T T' :
  length T = length T' →
  (∀ i, (i < Nat.max 1 (length T))%nat → v !!! i = w !!! i) →
  (∀ i, (1 ≤ i < length T)%nat → take i T = take i T') →
  serialize_spec v T = serialize_spec w T'.
Proof.
  intros Hlen Hv HT. unfold serialize_spec. rewrite <-Hlen.
  rewrite (Hv 0%nat) by lia. f_equal. f_equal.
  apply list_fmap_ext. intros k i Hi.
  apply lookup_seq in Hi as [-> Hk].
  rewrite Hv by lia. by rewrite HT by lia.
Qed.

Lemma Serialize_empty (T : list Z) : Serialize [] T = Raise StopIteration.
Proof. done. Qed.

Lemma Serialize_short (v T : list Z) :
  v ≠ [] → (length v < length T)%nat → Serialize v T = Raise IndexError.
Proof.
  intros Hv Hlt. destruct v as [|v0 v']; [done|]. clear Hv.
  unfold Serialize. simpl head. simpl of_option.
  change (Ok v0 ≫= ?k) with (k v0). cbv beta.
  assert (T ≠ []) as HT by (intros ->; simpl in Hlt; lia).
  replace (seq 1 (length T - 1))
    with (seq 1 (length v') ++ seq (S (length v')) (length T - 1 - length v')).
  2:{ rewrite <-seq_app. f_equal. simpl in Hlt. lia. }
  rewrite rfold_app, Serialize_loop; [|done|].
  2:{ apply Forall_forall. intros i Hi%elem_of_seq. simpl. lia. }
  destruct (length T - 1 - length v')%nat as [|n] eqn:Hn.
  { simpl in Hlt. lia. }
  rsimpl. by rewrite lookup_ge_None_2 by lia.
Qed.

Lemma Serialize_Ok (v T : list Z) :
  v ≠ [] → (length T ≤ length v)%nat → Serialize v T = Ok (serialize_spec v T).
Proof.
  intros Hv Hge. destruct v as [|v0 v']; [done|]. clear Hv.
  unfold Serialize. simpl head. simpl of_option.
  change (Ok v0 ≫= ?k) with (k v0). cbv beta.
  destruct (decide (T = [])) as [->|HT].
  - simpl. unfold serialize_spec. simpl. f_equal. lia.
  - rewrite Serialize_loop; [done|done|].
    apply Forall_forall. intros i Hi%elem_of_seq. lia.
Qed.

(** X1 (Serialize, every case).  [Serialize(vec, tile_size)] raises
    [StopIteration] when [vec] is empty, an [IndexError] when [vec] has
    fewer coordinates than [tile_size], and otherwise returns
    [vec[0] + sum_{i=1}^{len(tile_size)-1} vec[i] * prod_{j<i} tile_size[j]];
    the coordinates of [vec] beyond the length of [tile_size] do not count. *)
Theorem Serialize_cases (v T : list Z) :
  Serialize v T
  = if decide (v = []) then Raise StopIteration
    else if decide (length v < length T)%nat then Raise IndexError
    else Ok (serialize_spec v T).
Proof.
  destruct (decide (v = [])) as [->|Hv]; [apply Serialize_empty|].
  destruct (decide (length v < length T)%nat) as [Hlt|Hge].
  - by apply Serialize_short.
  - apply Serialize_Ok; [done|lia].
Qed.

Lemma serialize_spec_add v w T :
  (Nat.max 1 (length T) ≤ length v)%nat → length v = length w →
  serialize_spec (zip_with Z.add v w) T = serialize_spec v T + serialize_spec w T.
Proof.
  intros Hlen Hvw.
  assert (∀ i, (i < Nat.max 1 (length T))%nat →
               zip_with Z.add v w !!! i = v !!! i + w !!! i) as Hi.
  { intros i Hi.
    destruct (lookup_lt_is_Some_2 v i) as [x Hx]; [lia|].
    destruct (lookup_lt_is_Some_2 w i) as [y Hy]; [lia|].
    rewrite (list_lookup_total_correct _ _ _ Hx).
    rewrite (list_lookup_total_correct _ _ _ Hy).
    apply list_lookup_total_correct. rewrite lookup_zip_with, Hx. simpl.
    by rewrite Hy. }
  unfold serialize_spec. rewrite Hi by lia.
  assert (Forall (λ i, i < Nat.max 1 (length T))%nat (seq 1 (length T - 1)))
    as Hall.
  { apply Forall_forall. intros i Hk%elem_of_seq. lia. }
  induction Hall as [|i l Hk _ IH]; csimpl; [lia|].
  rewrite Hi by done. lia.
Qed.

(** X2 (Serialize is additive).  For a non-empty [v], a [w] of the same
    length and a tile-size vector no longer than them, [Serialize] returns
    on [v], on [w] and on their coordinate-wise sum, and the result for the
    sum is the sum of the two results. *)
Theorem Serialize_additive (T v w : list Z) :
  v ≠ [] → length v = length w → (length T ≤ length v)%nat →
  ∃ a b, Serialize v T = Ok a ∧ Serialize w T = Ok b ∧
         Serialize (zip_with Z.add v w) T = Ok (a + b).
Proof.
  intros Hv Hvw HT.
  exists (serialize_spec v T), (serialize_spec w T).
  assert (w ≠ []) as Hw by (destruct v, w; done).
  assert (zip_with Z.add v w ≠ []) as Hz by (destruct v, w; done).
  split; [by apply Serialize_Ok|]. split; [apply Serialize_Ok; [done|lia]|].
  rewrite Serialize_Ok; [|done|rewrite length_zip_with; lia]. f_equal.
  apply serialize_spec_add; [|done]. destruct v; [done|]. simpl in *. lia.
Qed.

Lemma Serialize_additive_witness :
  ∃ a b, Serialize [1; 2] [233; 0] = Ok a ∧ Serialize [-1; 3] [233; 0] = Ok b ∧
         Serialize (zip_with Z.add [1; 2] [-1; 3]) [233; 0] = Ok (a + b).
Proof.
  apply (Serialize_additive [233; 0] [1; 2] [-1; 3]);
    [discriminate|reflexivity|simpl; lia].
Defined.

(** X3 (the last tile size is unused).  [Serialize(vec, tile_size)] does
    not depend on the last entry of [tile_size]: replacing it changes
    neither the value returned nor the exception raised. *)
Theorem Serialize_last_tile_size_unused (v T : list Z) (t t' : Z) :
  Serialize v (T ++ [t]) = Serialize v (T ++ [t']).
Proof.
  destruct (decide (v = [])) as [->|Hv]; [done|].
  destruct (decide (length v < length T + 1)%nat) as [Hlt|Hge].
  { rewrite !Serialize_short; try done; rewrite length_app; simpl; lia. }
  rewrite !Serialize_Ok; try done; try (rewrite length_app; simpl; lia).
  f_equal. apply serialize_spec_ext.
  - by rewrite !length_app.
  - done.
  - intros i Hi. rewrite length_app in Hi. simpl in Hi.
    by rewrite !take_app_le by lia.
Qed.

(** ** Stencil windows *)

Ltac rstep :=
  lazymatch goal with
  | |- context [Ok ?x ≫= ?k] => change (Ok x ≫= k) with (k x); cbv beta
  end.

Lemma Zmin_list_spec x l :
  Zmin_list x l ∈ x :: l ∧ ∀ y, y ∈ x :: l → Zmin_list x l ≤ y.
Proof.
  unfold Zmin_list. revert x. induction l as [|z l IH]; intros x; simpl.
  - split; [left|]. intros y ->%list_elem_of_singleton. lia.
  - destruct (IH (Z.min x z)) as [Hin Hle]. split.
    + apply elem_of_cons in Hin as [Heq|Hin].
      * rewrite Heq. destruct (Z.min_spec x z) as [[_ ->]|[_ ->]];
          [left|right; left].
      * by do 2 right.
    + intros y Hy. apply elem_of_cons in Hy as [->|Hy].
      * specialize (Hle (Z.min x z) (list_elem_of_here _ _)). lia.
      * apply elem_of_cons in Hy as [->|Hy].
        -- specialize (Hle (Z.min x z) (list_elem_of_here _ _)). lia.
        -- apply Hle. by right.
Qed.

Lemma py_min_spec l m :
  py_min l = Ok m ↔ m ∈ l ∧ ∀ y, y ∈ l → m ≤ y.
Proof.
  destruct l as [|x l]; simpl.
  - split; [done|]. by intros [?%elem_of_nil _].
  - destruct (Zmin_list_spec x l) as [Hin Hle]. split.
    + by intros [= <-].
    + intros [Hm Hmin]. f_equal.
      specialize (Hle _ Hm). specialize (Hmin _ Hin). lia.
Qed.

Lemma column_uniform n A d :
  uniform n A → (d < n)%nat → column A d = Ok ((λ p, p !!! d) <$> A).
Proof.
  intros HA Hd. unfold column. apply rmap_Ok.
  apply Forall2_fmap_r, Forall_Forall2_diag.
  eapply Forall_impl; [exact HA|]. intros p Hp. simpl in *.
  destruct (lookup_lt_is_Some_2 p d) as [x Hx]; [lia|].
  by rewrite Hx, (list_lookup_total_correct _ _ _ Hx).
Qed.

Lemma column_ragged A d :
  Exists (λ p, (length p ≤ d)%nat) A → column A d = Raise IndexError.
Proof.
  unfold column. induction A as [|p A IH]; intros Hex.
  - by apply Exists_nil in Hex.
  - simpl. destruct (p !! d) as [x|] eqn:Hx; simpl; [|done].
    apply Exists_cons in Hex as [Hp|Hex].
    + apply lookup_lt_Some in Hx. lia.
    + rsimpl. by rewrite IH.
Qed.

Lemma window_dims_uniform n A :
  uniform n A → A ≠ [] → window_dims A = Ok (seq 0 n).
Proof.
  intros HA Hne. destruct A as [|p A]; [done|].
  apply Forall_cons in HA as [<- _]. done.
Qed.

(** The extremum of every column of a uniform, non-empty window. *)
Lemma rmap_columns n A (f : list Z → result Z) (g : nat → Z) :
  uniform n A →
  (∀ d, (d < n)%nat → f ((λ p, p !!! d) <$> A) = Ok (g d)) →
  rmap (λ d, col ← column A d; f col) (seq 0 n) = Ok (g <$> seq 0 n).
Proof.
  intros HA Hf. apply rmap_Ok.
  apply Forall2_fmap_r, Forall_Forall2_diag, Forall_forall.
  intros d Hd%elem_of_seq. rewrite (column_uniform n) by (done || lia).
  rstep. apply Hf. lia.
Qed.

Lemma column_min_spec A d :
  A ≠ [] →
  (∃ p, p ∈ A ∧ p !!! d = column_min A d) ∧
  ∀ p, p ∈ A → column_min A d ≤ p !!! d.
Proof.
  intros HA. unfold column_min. destruct A as [|q A]; [done|]. csimpl.
  destruct (Zmin_list_spec (q !!! d) ((λ p : list Z, p !!! d) <$> A))
    as [Hin Hle]. split.
  - change (q !!! d :: ((λ p : list Z, p !!! d) <$> A))
      with ((λ p : list Z, p !!! d) <$> q :: A) in Hin.
    apply list_elem_of_fmap in Hin as (p & Hp & Hin). eauto.
  - intros p Hp. apply Hle.
    change (q !!! d :: ((λ p : list Z, p !!! d) <$> A))
      with ((λ p : list Z, p !!! d) <$> q :: A).
    by apply list_elem_of_fmap_2.
Qed.

Lemma column_max_spec A d :
  A ≠ [] →
  (∃ p, p ∈ A ∧ p !!! d = column_max A d) ∧
  ∀ p, p ∈ A → p !!! d ≤ column_max A d.
Proof.
  intros HA. unfold column_max. destruct A as [|q A]; [done|]. csimpl.
  destruct (Zmax_list_spec (q !!! d) ((λ p : list Z, p !!! d) <$> A))
    as [Hin Hle]. split.
  - change (q !!! d :: ((λ p : list Z, p !!! d) <$> A))
      with ((λ p : list Z, p !!! d) <$> q :: A) in Hin.
    apply list_elem_of_fmap in Hin as (p & Hp & Hin). eauto.
  - intros p Hp. apply Hle.
    change (q !!! d :: ((λ p : list Z, p !!! d) <$> A))
      with ((λ p : list Z, p !!! d) <$> q :: A).
    by apply list_elem_of_fmap_2.
Qed.

Lemma GetStencilWindowOffset_uniform n A :
  uniform n A → A ≠ [] →
  GetStencilWindowOffset A = Ok ((λ d, - column_min A d) <$> seq 0 n).
Proof.
  intros HA Hne. unfold GetStencilWindowOffset.
  rewrite (window_dims_uniform n) by done. rstep.
  apply (rmap_columns n A (λ col, m ← py_min col; Ok (- m))
           (λ d, - column_min A d)); [done|].
  intros d Hd. unfold column_min. destruct A as [|q A]; [done|]. by csimpl.
Qed.

Lemma GetStencilDim_uniform n A :
  uniform n A → A ≠ [] →
  GetStencilDim A
  = Ok ((λ d, column_max A d - column_min A d + 1) <$> seq 0 n).
Proof.
  intros HA Hne. unfold GetStencilDim.
  rewrite (window_dims_uniform n) by done. rstep.
  rewrite (rmap_columns n A py_max (column_max A)); [|done|].
  2:{ intros d Hd. unfold column_max. destruct A as [|q A]; [done|]. by csimpl. }
  rstep. rstep.
  rewrite (rmap_columns n A py_min (column_min A)); [|done|].
  2:{ intros d Hd. unfold column_min. destruct A as [|q A]; [done|]. by csimpl. }
  rstep. f_equal. rewrite zip_with_fmap_l, zip_with_fmap_r, zip_with_diag.
  done.
Qed.

Lemma lookup_total_fmap_seq (g : nat → Z) n d :
  (d < n)%nat → (g <$> seq 0 n) !!! d = g d.
Proof.
  intros Hd. apply list_lookup_total_correct.
  rewrite list_lookup_fmap, lookup_seq_lt by done. done.
Qed.

(** X4 (GetStencilWindowOffset).  For a non-empty window whose points all
    have [n] coordinates, [GetStencilWindowOffset] returns [n] offsets that
    normalize the window: added to any point they give non-negative
    coordinates, and in every dimension some point is moved to 0. *)
Theorem GetStencilWindowOffset_normalizes (n : nat) (A : list (list Z)) :
  uniform n A → A ≠ [] →
  ∃ off,
    GetStencilWindowOffset A = Ok off ∧ length off = n ∧
    (∀ p d, p ∈ A → (d < n)%nat → 0 ≤ p !!! d + off !!! d) ∧
    (∀ d, (d < n)%nat → ∃ p, p ∈ A ∧ p !!! d + off !!! d = 0).
Proof.
  intros HA Hne. eexists.
  split; [by apply (GetStencilWindowOffset_uniform n)|].
  split; [by rewrite length_fmap, length_seq|]. split.
  - intros p d Hp Hd. rewrite lookup_total_fmap_seq by done.
    pose proof (proj2 (column_min_spec A d Hne) p Hp). lia.
  - intros d Hd. rewrite lookup_total_fmap_seq by done.
    destruct (proj1 (column_min_spec A d Hne)) as (p & Hp & Heq).
    exists p. split; [done|]. lia.
Qed.

Lemma GetStencilWindowOffset_normalizes_witness :
  ∃ off,
    GetStencilWindowOffset [[-1; 0]; [0; -1]; [1; 2]] = Ok off ∧
    length off = 2%nat ∧
    (∀ p d, p ∈ [[-1; 0]; [0; -1]; [1; 2]] → (d < 2)%nat →
            0 ≤ p !!! d + off !!! d) ∧
    (∀ d, (d < 2)%nat →
          ∃ p, p ∈ [[-1; 0]; [0; -1]; [1; 2]] ∧ p !!! d + off !!! d = 0).
Proof.
  apply (GetStencilWindowOffset_normalizes 2 [[-1; 0]; [0; -1]; [1; 2]]).
  - repeat constructor.
  - discriminate.
Defined.

(** X5 (GetStencilDim).  For such a window [GetStencilDim] returns the
    extents of its bounding box: once a point is moved by the offsets of
    [GetStencilWindowOffset], its coordinate of dimension [d] lies in
    [[0, dim[d])], and in every dimension some point reaches [dim[d] - 1]. *)
Theorem GetStencilDim_bounding_box (n : nat) (A : list (list Z)) :
  uniform n A → A ≠ [] →
  ∃ off dims,
    GetStencilWindowOffset A = Ok off ∧ GetStencilDim A = Ok dims ∧
    length dims = n ∧
    (∀ p d, p ∈ A → (d < n)%nat → 0 ≤ p !!! d + off !!! d < dims !!! d) ∧
    (∀ d, (d < n)%nat →
          ∃ p, p ∈ A ∧ p !!! d + off !!! d = dims !!! d - 1).
Proof.
  intros HA Hne. eexists _, _.
  split; [by apply (GetStencilWindowOffset_uniform n)|].
  split; [by apply (GetStencilDim_uniform n)|].
  split; [by rewrite length_fmap, length_seq|]. split.
  - intros p d Hp Hd. rewrite !lookup_total_fmap_seq by done.
    pose proof (proj2 (column_min_spec A d Hne) p Hp).
    pose proof (proj2 (column_max_spec A d Hne) p Hp). lia.
  - intros d Hd. rewrite !lookup_total_fmap_seq by done.
    destruct (proj1 (column_max_spec A d Hne)) as (p & Hp & Heq).
    exists p. split; [done|]. lia.
Qed.

Lemma GetStencilDim_bounding_box_witness :
  ∃ off dims,
    GetStencilWindowOffset [[-1; 0]; [0; -1]; [1; 2]] = Ok off ∧
    GetStencilDim [[-1; 0]; [0; -1]; [1; 2]] = Ok dims ∧
    length dims = 2%nat ∧
    (∀ p d, p ∈ [[-1; 0]; [0; -1]; [1; 2]] → (d < 2)%nat →
            0 ≤ p !!! d + off !!! d < dims !!! d) ∧
    (∀ d, (d < 2)%nat →
          ∃ p, p ∈ [[-1; 0]; [0; -1]; [1; 2]] ∧
               p !!! d + off !!! d = dims !!! d - 1).
Proof.
  apply (GetStencilDim_bounding_box 2 [[-1; 0]; [0; -1]; [1; 2]]).
  - repeat constructor.
  - discriminate.
Defined.

Lemma rmap_raises {A B} (f : A → result B) l e :
  Forall (λ x, f x = Raise e ∨ ∃ y, f x = Ok y) l →
  Exists (λ x, f x = Raise e) l →
  rmap f l = Raise e.
Proof.
  induction 1 as [|x l Hx Hl IH]; intros Hex.
  - by apply Exists_nil in Hex.
  - simpl. destruct Hx as [->|[y Hy]]; [done|].
    rewrite Hy. rstep. apply Exists_cons in Hex as [Hx|Hex]; [congruence|].
    by rewrite IH.
Qed.

Lemma column_cases A d :
  column A d = Raise IndexError ∨
  ∃ col, column A d = Ok col ∧ length col = length A.
Proof.
  unfold column. induction A as [|p A IH]; simpl; [by eauto|].
  destruct (p !! d) as [x|]; simpl; [|by left].
  destruct IH as [->|(col & -> & Hlen)]; [by left|].
  right. exists (x :: col). split; [done|]. simpl. by rewrite Hlen.
Qed.

Lemma columns_ragged (f : list Z → result Z) p0 A :
  (∀ col, col ≠ [] → ∃ m, f col = Ok m) →
  Exists (λ p, (length p < length p0)%nat) A →
  rmap (λ d, col ← column (p0 :: A) d; f col) (seq 0 (length p0))
  = Raise IndexError.
Proof.
  intros Hf Hex. apply rmap_raises.
  - apply Forall_forall. intros d _.
    destruct (column_cases (p0 :: A) d) as [->|(col & -> & Hlen)]; [by left|].
    right. rstep. apply Hf. by destruct col.
  - apply Exists_exists in Hex as (p & Hp & Hlen).
    apply Exists_exists. exists (length p). split; [apply elem_of_seq; lia|].
    rewrite column_ragged; [done|].
    apply Exists_cons_tl, Exists_exists. exists p. split; [done|]. simpl. lia.
Qed.

(** X6 (window errors).  On the empty window [GetStencilWindowOffset] and
    [GetStencilDim] raise [StopIteration] and [GetStencilDistance] raises a
    [ValueError]; on a window holding a point with fewer coordinates than
    the first point it yields, [GetStencilWindowOffset] and [GetStencilDim]
    raise an [IndexError]. *)
Theorem window_errors (T : list Z) (p0 : list Z) (A : list (list Z)) :
  (GetStencilWindowOffset [] = Raise StopIteration ∧
   GetStencilDim [] = Raise StopIteration ∧
   GetStencilDistance [] T = Raise ValueError) ∧
  (Exists (λ p, (length p < length p0)%nat) A →
   GetStencilWindowOffset (p0 :: A) = Raise IndexError ∧
   GetStencilDim (p0 :: A) = Raise IndexError).
Proof.
  split; [done|]. intros Hex. split.
  - unfold GetStencilWindowOffset, window_dims. simpl head. simpl of_option.
    rstep. rstep.
    apply (columns_ragged (λ col, m ← py_min col; Ok (- m))); [|done].
    intros [|x col] Hne; [done|]. simpl. eauto.
  - unfold GetStencilDim, window_dims. simpl head. simpl of_option.
    rstep. rstep.
    rewrite (columns_ragged py_max); [done| |done].
    intros col Hne. by apply py_max_total.
Qed.

Lemma prod_list_nonneg l : Forall (λ t, 0 ≤ t) l → 0 ≤ prod_list l.
Proof.
  induction 1 as [|t l Ht _ IH]; unfold prod_list in *; simpl; [lia|nia].
Qed.

Lemma serialize_spec_nonneg v T :
  (Nat.max 1 (length T) ≤ length v)%nat →
  Forall (λ x, 0 ≤ x) v → Forall (λ t, 0 ≤ t) T → 0 ≤ serialize_spec v T.
Proof.
  intros Hlen Hv HT. unfold serialize_spec.
  assert (∀ i, (i < Nat.max 1 (length T))%nat → 0 ≤ v !!! i) as Hi.
  { intros i Hi. destruct (lookup_lt_is_Some_2 v i) as [x Hx]; [lia|].
    rewrite (list_lookup_total_correct _ _ _ Hx).
    by apply (proj1 (Forall_lookup _ _) Hv i x). }
  assert (Forall (λ i, i < Nat.max 1 (length T))%nat (seq 1 (length T - 1)))
    as Hall.
  { apply Forall_forall. intros i Hk%elem_of_seq. lia. }
  pose proof (Hi 0%nat ltac:(lia)) as H0.
  assert (0 ≤ foldr Z.add 0
                ((λ i, v !!! i * prod_list (take i T)) <$> seq 1 (length T - 1)));
    [|lia].
  induction Hall as [|i l Hk _ IH]; csimpl; [lia|].
  pose proof (Hi i Hk).
  pose proof (prod_list_nonneg (take i T) (Forall_take _ _ _ HT)). nia.
Qed.

Lemma SerializeIterative_uniform A T :
  T ≠ [] → uniform (length T) A →
  SerializeIterative A T = Ok ((λ p, serialize_spec p T) <$> A).
Proof.
  intros HT HA. unfold SerializeIterative. apply rmap_Ok.
  apply Forall2_fmap_r, Forall_Forall2_diag.
  eapply Forall_impl; [exact HA|]. intros p Hp. simpl in *.
  apply Serialize_Ok; [|lia]. destruct p, T; done.
Qed.

(** X7 (GetStencilDistance).  For a non-empty tile-size vector [T] and a
    non-empty window of points with [len(T)] coordinates,
    [GetStencilDistance] returns the largest serialized position of the
    window once normalized by [GetStencilWindowOffset]: every normalized
    point serializes to at most the distance, one of them to exactly the
    distance, and the distance is non-negative when the tile sizes are. *)
Theorem GetStencilDistance_spec (T : list Z) (A : list (list Z)) :
  T ≠ [] → uniform (length T) A → A ≠ [] →
  ∃ off D,
    GetStencilWindowOffset A = Ok off ∧ GetStencilDistance A T = Ok D ∧
    (∀ p, p ∈ A → ∃ s, Serialize (zip_with Z.add p off) T = Ok s ∧ s ≤ D) ∧
    (∃ p, p ∈ A ∧ Serialize (zip_with Z.add p off) T = Ok D) ∧
    (Forall (λ t, 0 ≤ t) T → 0 ≤ D).
Proof.
  intros HT HA Hne.
  pose proof (GetStencilWindowOffset_uniform (length T) A HA Hne) as Hoff.
  set (off := (λ d, - column_min A d) <$> seq 0 (length T)) in *.
  assert (length off = length T) as Hlen.
  { unfold off. by rewrite length_fmap, length_seq. }
  assert (∀ p d, p ∈ A → (d < length T)%nat → 0 ≤ p !!! d + off !!! d)
    as Hpos.
  { intros p d Hp Hd. unfold off. rewrite lookup_total_fmap_seq by done.
    pose proof (proj2 (column_min_spec A d Hne) p Hp). lia. }
  assert (∃ m, py_max ((λ p, serialize_spec p T) <$> A) = Ok m) as [m Hm].
  { apply py_max_total. by destruct A. }
  pose proof (proj1 (py_max_spec _ _) Hm) as [Hin Hmax].
  apply list_elem_of_fmap in Hin as (pm & -> & Hpm).
  assert (off ≠ []) as Hoffne by (destruct off, T; done).
  assert (∀ p, p ∈ A →
            Serialize (zip_with Z.add p off) T
            = Ok (serialize_spec p T + serialize_spec off T)) as Hsum.
  { intros p Hp. pose proof (proj1 (Forall_forall _ _) HA p Hp) as Hpl.
    simpl in Hpl.
    assert (zip_with Z.add p off ≠ []) as Hz by (destruct p, off, T; done).
    rewrite Serialize_Ok; [|done|rewrite length_zip_with; lia].
    f_equal. apply serialize_spec_add; [|lia].
    destruct T; [done|simpl in *; lia]. }
  exists off, (serialize_spec pm T + serialize_spec off T).
  split; [done|]. split.
  { unfold GetStencilDistance. rewrite SerializeIterative_uniform by done.
    rstep. rewrite Hm. rstep. rewrite Hoff. rstep.
    rewrite Serialize_Ok by (lia || done). by rstep. }
  split; [|split].
  - intros p Hp. eexists. split; [by apply Hsum|].
    pose proof (Hmax (serialize_spec p T) (list_elem_of_fmap_2 _ _ _ Hp)). lia.
  - exists pm. split; [done|]. by apply Hsum.
  - intros HTpos.
    pose proof (proj1 (Forall_forall _ _) HA pm Hpm) as Hpl. simpl in Hpl.
    rewrite <-serialize_spec_add by first [destruct T; [done|simpl in *; lia] | lia].
    apply serialize_spec_nonneg; [|apply Forall_lookup|done].
    + rewrite length_zip_with. destruct T; [done|simpl in *; lia].
    + intros i x Hx. rewrite lookup_zip_with in Hx.
      destruct (pm !! i) as [a|] eqn:Ha; [|done]. simpl in Hx.
      destruct (off !! i) as [b|] eqn:Hb; [|done]. simpl in Hx. simplify_eq.
      pose proof (lookup_lt_Some _ _ _ Ha) as Hi.
      specialize (Hpos pm i Hpm ltac:(lia)).
      by rewrite (list_lookup_total_correct _ _ _ Ha),
                 (list_lookup_total_correct _ _ _ Hb) in Hpos.
Qed.

Lemma GetStencilDistance_spec_witness :
  ∃ off D,
    GetStencilWindowOffset [[-1; 0]; [0; -1]; [1; 2]] = Ok off ∧
    GetStencilDistance [[-1; 0]; [0; -1]; [1; 2]] [8; 0] = Ok D ∧
    (∀ p, p ∈ [[-1; 0]; [0; -1]; [1; 2]] →
          ∃ s, Serialize (zip_with Z.add p off) [8; 0] = Ok s ∧ s ≤ D) ∧
    (∃ p, p ∈ [[-1; 0]; [0; -1]; [1; 2]] ∧
          Serialize (zip_with Z.add p off) [8; 0] = Ok D) ∧
    (Forall (λ t, 0 ≤ t) [8; 0] → 0 ≤ D).
Proof.
  apply (GetStencilDistance_spec [8; 0] [[-1; 0]; [0; -1]; [1; 2]]).
  - discriminate.
  - repeat constructor.
  - discriminate.
Defined.

(** ** Strings as character lists *)

Lemma text_chars s : text (chars s) = s.
Proof. apply String.string_of_list_ascii_of_string. Qed.

Lemma chars_text l : chars (text l) = l.
Proof. apply String.list_ascii_of_string_of_list_ascii. Qed.

Lemma chars_inj s1 s2 : chars s1 = chars s2 → s1 = s2.
Proof. intros H. by rewrite <-(text_chars s1), <-(text_chars s2), H. Qed.

Lemma chars_app s1 s2 : chars (s1 +:+ s2) = chars s1 ++ chars s2.
Proof. induction s1 as [|a s1 IH]; simpl; [done|]. by rewrite <-IH. Qed.

Lemma str_app_assoc (s1 s2 s3 : string) : (s1 +:+ s2) +:+ s3 = s1 +:+ s2 +:+ s3.
Proof. apply chars_inj. by rewrite !chars_app, app_assoc. Qed.

Lemma str_app_nil_r (s : string) : s +:+ EmptyString = s.
Proof. apply chars_inj. by rewrite chars_app, app_nil_r. Qed.

Lemma str_app_inv_tail (s1 s2 s : string) : s1 +:+ s = s2 +:+ s → s1 = s2.
Proof.
  intros H. apply chars_inj. apply (f_equal chars) in H.
  rewrite !chars_app in H. by apply app_inv_tail in H.
Qed.

Lemma py_last_app s t :
  py_last (length (chars t)) (s +:+ t) = t.
Proof.
  unfold py_last. rewrite chars_app, length_app.
  replace (length (chars s) + length (chars t) - length (chars t))%nat
    with (length (chars s)) by lia.
  by rewrite drop_app_length, text_chars.
Qed.

Lemma py_but_last_app s t :
  py_but_last (length (chars t)) (s +:+ t) = s.
Proof.
  unfold py_but_last. rewrite chars_app, length_app.
  replace (length (chars s) + length (chars t) - length (chars t))%nat
    with (length (chars s)) by lia.
  by rewrite take_app_length, text_chars.
Qed.

Lemma py_last_snoc n s a t :
  chars t = [a] → (0 < n)%nat →
  last (chars (py_last n (s +:+ t))) = Some a.
Proof.
  intros Ht Hn. unfold py_last. rewrite chars_text, chars_app, Ht.
  rewrite drop_app_le by (rewrite length_app; simpl; lia).
  by rewrite last_snoc.
Qed.

(** ** The printer *)

(** X8 (scopes).  [DoScope(c)] writes an opening brace at the current
    indentation.  Whatever is printed afterwards, once indentation and open
    scopes are back to what [DoScope] left, [UnScope()] succeeds, restores
    the indentation and the open scopes from before [DoScope], keeps the
    variable counter, and writes at the restored indentation the closing
    brace, followed by [// c] when the comment [c] is not empty. *)
Theorem UnScope_closes_DoScope (p q : Printer) (c : string) :
  pr_indent q = pr_indent (DoScope c p) →
  pr_comments q = pr_comments (DoScope c p) →
  ∃ p',
    UnScope EmptyString q = Ok p' ∧
    pr_indent p' = pr_indent p ∧ pr_comments p' = pr_comments p ∧
    pr_assign p' = pr_assign q ∧
    pr_out (DoScope c p)
    = pr_out p ++ [py_str_mul (py_str_mul " " (pr_indent p)) 4 +:+ "{" +:+ newline] ∧
    pr_out p'
    = pr_out q ++
      [py_str_mul (py_str_mul " " (pr_indent p)) 4 +:+
       (if bool_decide (c ≠ EmptyString) then "} // " +:+ c else "}")
       +:+ newline].
Proof.
  intros Hi Hc. unfold UnScope. simpl in Hi, Hc. simpl pr_comments.
  rewrite Hc, last_snoc. simpl of_option. rstep.
  rewrite bool_decide_eq_false_2 by (by intros H; apply H).
  rewrite removelast_last.
  assert (pr_indent q - 1 = pr_indent p) as Hq by lia.
  destruct (bool_decide (c ≠ EmptyString)) eqn:Hcne.
  - eexists. split; [done|]. unfold PrintLine. simpl.
    rewrite Hq. split_and!; done.
  - eexists. split; [done|]. unfold PrintLine. simpl.
    rewrite Hq.
    split_and!; done.
Qed.

Lemma UnScope_closes_DoScope_witness :
  ∃ p',
    UnScope EmptyString (PrintLine "x;" (-1) (DoScope "loop" (DoIndent Printer_init)))
    = Ok p' ∧
    pr_indent p' = pr_indent (DoIndent Printer_init) ∧
    pr_comments p' = pr_comments (DoIndent Printer_init) ∧
    pr_assign p' = 0 ∧
    pr_out (DoScope "loop" (DoIndent Printer_init))
    = [] ++ [py_str_mul (py_str_mul " " 1) 4 +:+ "{" +:+ newline] ∧
    pr_out p'
    = pr_out (PrintLine "x;" (-1) (DoScope "loop" (DoIndent Printer_init))) ++
      [py_str_mul (py_str_mul " " 1) 4 +:+
       (if bool_decide ("loop" ≠ EmptyString) then "} // " +:+ "loop" else "}")
       +:+ newline].
Proof.
  apply (UnScope_closes_DoScope (DoIndent Printer_init)
           (PrintLine "x;" (-1) (DoScope "loop" (DoIndent Printer_init))) "loop");
    reflexivity.
Defined.

(** X9 (NewVar).  [NewVar()] increments the counter and returns the name
    that [LastVar()] then denotes; two calls return the same name only from
    equal counters, so two consecutive calls never return the same name. *)
Theorem NewVar_fresh (p q : Printer) :
  pr_assign (NewVar p).1 = pr_assign p + 1 ∧
  LastVar (-1) (NewVar p).1 = (NewVar p).2 ∧
  ((NewVar p).2 = (NewVar q).2 ↔ pr_assign p = pr_assign q) ∧
  (NewVar (NewVar p).1).2 ≠ (NewVar p).2.
Proof.
  assert (∀ a b : Z, "assign_" +:+ pretty a = "assign_" +:+ pretty b ↔ a = b)
    as Hinj.
  { intros a b. split; [|by intros ->].
    intros H%(inj (String.app "assign_")). by apply (inj pretty) in H. }
  unfold NewVar, LastVar. simpl. split_and!; try done.
  - rewrite Hinj. lia.
  - rewrite Hinj. lia.
Qed.

(** *** [PrintFunc] *)

Lemma join_foldl sep x l :
  foldl (λ acc y, acc +:+ sep +:+ y) x l
  = x +:+ foldr (λ y r, sep +:+ y +:+ r) EmptyString l.
Proof.
  revert x. induction l as [|y l IH]; intros x; simpl.
  - by rewrite str_app_nil_r.
  - by rewrite IH, !str_app_assoc.
Qed.

Lemma py_join_empty_sep l :
  py_join EmptyString l = foldr String.append EmptyString l.
Proof.
  destruct l as [|x l]; [done|]. simpl. rewrite join_foldl. f_equal.
Qed.

(** Every parameter followed by its separator. *)
Lemma py_join_trailing_sep sep l :
  l ≠ [] →
  py_join sep l +:+ sep = foldr (λ p r, p +:+ sep +:+ r) EmptyString l.
Proof.
  destruct l as [|x l]; [done|]. intros _. simpl.
  rewrite join_foldl, str_app_assoc. f_equal.
  induction l as [|y l IH]; simpl; [by rewrite str_app_nil_r|].
  by rewrite !str_app_assoc, IH.
Qed.

Lemma str_concat_snoc (l : list string) (c : string) :
  foldr String.append EmptyString (l ++ [c])
  = foldr String.append EmptyString l +:+ c.
Proof.
  induction l as [|x l IH]; simpl; [by rewrite str_app_nil_r|].
  by rewrite IH, str_app_assoc.
Qed.

Lemma PrintFunc_step_text indent align st param :
  foldr String.append EmptyString (PrintFunc_step indent align st param).1
  +:+ (PrintFunc_step indent align st param).2
  = (foldr String.append EmptyString st.1 +:+ st.2) +:+ param +:+ ", ".
Proof.
  unfold PrintFunc_step. case_bool_decide; simpl.
  - by rewrite str_concat_snoc, !str_app_assoc.
  - by rewrite !str_app_assoc.
Qed.

Lemma PrintFunc_step_tail indent align st param :
  ∃ x, (PrintFunc_step indent align st param).2 = x +:+ ", ".
Proof.
  unfold PrintFunc_step. case_bool_decide; simpl; [by eauto|].
  exists (st.2 +:+ param). by rewrite str_app_assoc.
Qed.

Lemma PrintFunc_loop_text indent align st params :
  foldr String.append EmptyString (foldl (PrintFunc_step indent align) st params).1
  +:+ (foldl (PrintFunc_step indent align) st params).2
  = (foldr String.append EmptyString st.1 +:+ st.2)
    +:+ foldr (λ p r, p +:+ ", " +:+ r) EmptyString params.
Proof.
  revert st. induction params as [|param params IH]; intros st; simpl.
  - by rewrite str_app_nil_r.
  - by rewrite IH, PrintFunc_step_text, !str_app_assoc.
Qed.

Lemma PrintFunc_loop_tail indent align st params :
  params ≠ [] →
  ∃ x, (foldl (PrintFunc_step indent align) st params).2 = x +:+ ", ".
Proof.
  intros Hne. destruct params as [|param params _] using rev_ind; [done|].
  rewrite foldl_app. simpl. apply PrintFunc_step_tail.
Qed.

Lemma PrintLines_state (lines : list string) (p : Printer) :
  let p' := foldl (λ q l, PrintLine l (-1) q) p lines in
  pr_indent p' = pr_indent p ∧ pr_assign p' = pr_assign p ∧
  pr_comments p' = pr_comments p ∧
  length (pr_out p') = (length (pr_out p) + length lines)%nat.
Proof.
  revert p. induction lines as [|l lines IH]; intros p; simpl.
  - split_and!; (done || lia).
  - destruct (IH (PrintLine l (-1) p)) as (-> & -> & -> & ->). simpl.
    split_and!; try done. rewrite length_app. simpl. lia.
Qed.

(** X10 (PrintFunc).  [PrintFunc] leaves indentation, counter and open
    scopes as they were and writes one line of output per element of its
    list [lines].  Without parameters the only line is [name(]: neither the
    closing parenthesis nor the suffix is written.  With parameters the
    lines, put end to end, read [name(p1, ..., pn)suffix]. *)
Theorem PrintFunc_spec (name : string) (params : list string)
    (suffix : string) (align : Z) (p : Printer) :
  let lines := PrintFunc_lines (pr_indent p) name params suffix align in
  let p' := PrintFunc name params suffix align p in
  pr_indent p' = pr_indent p ∧ pr_assign p' = pr_assign p ∧
  pr_comments p' = pr_comments p ∧
  length (pr_out p') = (length (pr_out p) + length lines)%nat ∧
  (params = [] → lines = [name +:+ "("]) ∧
  (params ≠ [] →
   py_join EmptyString lines
   = name +:+ "(" +:+ py_join ", " params +:+ ")" +:+ suffix).
Proof.
  intros lines p'.
  assert (pr_indent p' = pr_indent p ∧ pr_assign p' = pr_assign p ∧
          pr_comments p' = pr_comments p ∧
          length (pr_out p') = (length (pr_out p) + length lines)%nat) as Hst.
  { subst p'. unfold PrintFunc. fold lines.
    destruct lines as [|line rest]; [simpl; split_and!; try done; lia|].
    destruct rest as [|l2 rest].
    - simpl. split_and!; try done. rewrite length_app. simpl. lia.
    - destruct (PrintLines_state (l2 :: rest) (DoIndent (PrintLine line (-1) p)))
        as (Hi & Ha & Hc & Ho).
      unfold UnIndent. cbn [pr_indent pr_assign pr_comments pr_out].
      rewrite Hi, Ha, Hc, Ho. simpl. split_and!; try done; [lia|].
      rewrite length_app. simpl. lia. }
  destruct Hst as (? & ? & ? & ?). split_and!; try done.
  - intros ->. subst lines. unfold PrintFunc_lines. simpl.
    rewrite bool_decide_eq_false_2; [done|].
    intros Heq. apply (f_equal (λ s, last (chars s))) in Heq.
    rewrite (py_last_snoc 2 name "("%char "(") in Heq by (done || lia).
    discriminate Heq.
  - intros Hne. subst lines. unfold PrintFunc_lines.
    pose proof (PrintFunc_loop_text (pr_indent p) align ([], name +:+ "(") params)
      as Htext.
    destruct (PrintFunc_loop_tail (pr_indent p) align ([], name +:+ "(") params Hne)
      as [x Hx].
    destruct (foldl _ _ params) as [init cur]. simpl in *. subst cur.
    pose proof (py_last_app x ", ") as Hl.
    pose proof (py_but_last_app x ", ") as Hb.
    change (length (chars ", ")) with 2%nat in Hl, Hb.
    rewrite Hl, Hb, bool_decide_eq_true_2 by done.
    rewrite py_join_empty_sep, str_concat_snoc.
    rewrite <-py_join_trailing_sep in Htext by done.
    rewrite <-!str_app_assoc in Htext. apply str_app_inv_tail in Htext.
    rewrite <-!str_app_assoc. by rewrite Htext.
Qed.

(** ** Type names *)

(** X11 (type names).  [GetSodaType] undoes [GetCType] on every name that
    does not end in [_t], and [GetCType] undoes [GetSodaType] on every key
    of [type_width]; the C name of each integer SODA type and of each
    floating-point type is a key of [type_width]; [GetCType] is
    idempotent. *)
Theorem type_names_round_trip :
  (∀ t, py_last 2 t ≠ "_t" → GetSodaType (GetCType t) = t) ∧
  (∀ c, is_Some (type_width !! c) → GetCType (GetSodaType c) = c) ∧
  (∀ t, t ∈ soda_int_types → is_Some (type_width !! GetCType t)) ∧
  (∀ t, IsFloat t = true → is_Some (type_width !! GetCType t)) ∧
  (∀ t, GetCType (GetCType t) = GetCType t).
Proof.
  assert (∀ t, t ∈ soda_int_types → GetCType t = t +:+ "_t") as Hint.
  { intros t Ht. unfold GetCType. by rewrite bool_decide_eq_true_2. }
  assert (∀ t, t ∉ soda_int_types → GetCType t = t) as Hnot.
  { intros t Ht. unfold GetCType. by rewrite bool_decide_eq_false_2. }
  split_and!.
  - intros t Ht. destruct (decide (t ∈ soda_int_types)) as [Hin|Hin].
    + rewrite Hint by done. unfold GetSodaType.
      pose proof (py_last_app t "_t") as Hl.
      pose proof (py_but_last_app t "_t") as Hb.
      change (length (chars "_t")) with 2%nat in Hl, Hb.
      by rewrite Hl, Hb, bool_decide_eq_true_2.
    + rewrite Hnot by done. unfold GetSodaType.
      by rewrite bool_decide_eq_false_2.
  - intros c Hc.
    assert (c ∈ (map_to_list type_width).*1) as Hin.
    { destruct Hc as [w Hw]. apply list_elem_of_fmap. exists (c, w).
      split; [done|]. by apply elem_of_map_to_list. }
    vm_compute in Hin.
    repeat (apply elem_of_cons in Hin as [->|Hin]; [by vm_compute|]).
    by apply elem_of_nil in Hin.
  - intros t Ht. unfold soda_int_types in Ht.
    repeat (apply elem_of_cons in Ht as [->|Ht]; [by vm_compute; eauto|]).
    by apply elem_of_nil in Ht.
  - intros t Ht. unfold IsFloat in Ht. apply bool_decide_eq_true in Ht.
    repeat (apply elem_of_cons in Ht as [->|Ht]; [by vm_compute; eauto|]).
    by apply elem_of_nil in Ht.
  - intros t. destruct (decide (t ∈ soda_int_types)) as [Hin|Hin].
    + rewrite (Hint t Hin). apply Hnot. unfold soda_int_types in Hin.
      repeat (apply elem_of_cons in Hin as [->|Hin];
              [apply (bool_decide_unpack _); by vm_compute|]).
      by apply elem_of_nil in Hin.
    + by rewrite !(Hnot t Hin).
Qed.

(** ** Index identifiers *)

Lemma pretty_N_go_chars (P : ascii → Prop) x s :
  (∀ n, P (pretty_N_char n)) →
  Forall P (chars s) → Forall P (chars (pretty_N_go x s)).
Proof.
  intros HP. revert s. induction (N.lt_wf_0 x) as [x _ IH]; intros s Hs.
  assert (x = 0 ∨ 0 < x)%N as [->|Hx] by lia.
  - by rewrite pretty_N_go_0.
  - rewrite pretty_N_go_step by done. apply IH.
    { by apply N.div_lt. }
    change (chars (String ?c s)) with (c :: chars s). by constructor.
Qed.

Lemma pretty_N_go_length x s :
  (length (chars s) ≤ length (chars (pretty_N_go x s)))%nat.
Proof.
  revert s. induction (N.lt_wf_0 x) as [x _ IH]; intros s.
  assert (x = 0 ∨ 0 < x)%N as [->|Hx] by lia.
  - by rewrite pretty_N_go_0.
  - rewrite pretty_N_go_step by done.
    etrans; [|apply IH; by apply N.div_lt]. simpl. lia.
Qed.

(** The decimal notation of an integer: digits and a sign, never empty. *)
Lemma pretty_Z_chars (z : Z) :
  chars (pretty z) ≠ [] ∧
  Forall (λ c, c ≠ "_"%char ∧ c ≠ "m"%char) (chars (pretty z)).
Proof.
  assert (∀ n, pretty_N_char n ≠ "_"%char ∧ pretty_N_char n ≠ "m"%char) as Hd.
  { intros n. unfold pretty_N_char. by repeat case_match. }
  assert (∀ p, chars (pretty_N_go (N.pos p) EmptyString) ≠ [] ∧
               Forall (λ c, c ≠ "_"%char ∧ c ≠ "m"%char)
                      (chars (pretty_N_go (N.pos p) EmptyString))) as Hp.
  { intros p. split; [|by apply pretty_N_go_chars].
    rewrite pretty_N_go_step by lia.
    pose proof (pretty_N_go_length (N.pos p `div` 10)
                  (String (pretty_N_char (N.pos p `mod` 10)) EmptyString)) as Hl.
    intros Heq. rewrite Heq in Hl. simpl in Hl. lia. }
  destruct z as [|p|p].
  - split; [done|]. by repeat constructor.
  - apply Hp.
  - change (pretty (Z.neg p))
      with ("-" +:+ pretty_N_go (N.pos p) EmptyString).
    rewrite chars_app. split; [done|].
    apply Forall_app. split; [by repeat constructor|apply Hp].
Qed.

Lemma replace_dash_inj (l1 l2 : list ascii) :
  Forall (λ c, c ≠ "m"%char) l1 → Forall (λ c, c ≠ "m"%char) l2 →
  (λ c, if decide (c = "-"%char) then "m"%char else c) <$> l1
  = (λ c, if decide (c = "-"%char) then "m"%char else c) <$> l2 →
  l1 = l2.
Proof.
  intros H1. revert l2. induction H1 as [|a l1 Ha _ IH]; intros l2 H2 Heq.
  - by destruct l2.
  - destruct H2 as [|b l2 Hb H2]; [done|]. csimpl in Heq.
    injection Heq as Hab Heq. f_equal; [|by apply IH].
    repeat case_decide; congruence.
Qed.

(** One index as [GetIndicesId] writes it. *)
Lemma index_id_chars (z : Z) :
  chars (replace_char "-" "m" (pretty z)) ≠ [] ∧
  Forall (λ c, c ≠ "_"%char) (chars (replace_char "-" "m" (pretty z))).
Proof.
  destruct (pretty_Z_chars z) as [Hne Hall].
  unfold replace_char. rewrite chars_text. split.
  - by destruct (chars (pretty z)).
  - apply Forall_fmap. eapply Forall_impl; [exact Hall|].
    intros c [H1 H2]. simpl. by case_decide.
Qed.

Lemma index_id_inj (z1 z2 : Z) :
  replace_char "-" "m" (pretty z1) = replace_char "-" "m" (pretty z2) →
  z1 = z2.
Proof.
  intros Heq. apply (f_equal chars) in Heq. unfold replace_char in Heq.
  rewrite !chars_text in Heq.
  apply (inj pretty), chars_inj, replace_dash_inj; [..|done].
  - eapply Forall_impl; [apply pretty_Z_chars|]. by intros c [_ ?].
  - eapply Forall_impl; [apply pretty_Z_chars|]. by intros c [_ ?].
Qed.

Lemma chars_py_join sep x l :
  chars (py_join sep (x :: l))
  = chars x ++ concat ((λ y, chars sep ++ chars y) <$> l).
Proof.
  simpl. rewrite join_foldl, chars_app. f_equal.
  induction l as [|y l IH]; simpl; [done|].
  by rewrite !chars_app, IH, app_assoc.
Qed.

Lemma split_at_separator (sep : ascii) (a b r r' : list ascii) :
  Forall (λ c, c ≠ sep) a → Forall (λ c, c ≠ sep) b →
  (r = [] ∨ head r = Some sep) → (r' = [] ∨ head r' = Some sep) →
  a ++ r = b ++ r' → a = b ∧ r = r'.
Proof.
  intros Ha. revert b. induction Ha as [|x a Hx _ IH]; intros b Hb Hr Hr' Heq.
  - destruct Hb as [|y b Hy _]; [done|]. simpl in Heq. subst r.
    destruct Hr as [?|[= ->]]; done.
  - destruct Hb as [|y b Hy Hb]; simpl in Heq.
    + subst r'. destruct Hr' as [?|[= ->]]; done.
    + injection Heq as -> Heq. destruct (IH b Hb Hr Hr' Heq) as [-> ->]. done.
Qed.

Lemma joined_pieces_inj (sep : ascii) (l1 l2 : list (list ascii)) :
  Forall (Forall (λ c, c ≠ sep)) l1 → Forall (Forall (λ c, c ≠ sep)) l2 →
  concat ((λ y, sep :: y) <$> l1) = concat ((λ y, sep :: y) <$> l2) →
  l1 = l2.
Proof.
  intros H1. revert l2. induction H1 as [|a l1 Ha _ IH]; intros l2 H2 Heq.
  - by destruct l2.
  - destruct H2 as [|b l2 Hb H2]; [done|]. csimpl in Heq.
    injection Heq as Heq.
    apply (split_at_separator sep) in Heq as [-> Heq]; [|done|done|..].
    + f_equal. by apply IH.
    + destruct l1; [by left|by right].
    + destruct l2; [by left|by right].
Qed.

(** X12 (GetIndicesId).  [GetIndicesId] is injective: index tuples with the
    same identifier are equal. *)
Theorem GetIndicesId_inj (l1 l2 : list Z) :
  GetIndicesId l1 = GetIndicesId l2 → l1 = l2.
Proof.
  unfold GetIndicesId. intros Heq. apply (f_equal chars) in Heq.
  set (piece := λ idx : Z, replace_char "-" "m" (pretty idx)) in *.
  assert (∀ l : list Z,
            Forall (Forall (λ c, c ≠ "_"%char)) (chars <$> (piece <$> l)))
    as Hfree.
  { intros l. apply Forall_fmap, Forall_fmap, Forall_forall.
    intros z _. apply index_id_chars. }
  destruct l1 as [|z1 l1], l2 as [|z2 l2]; [done|..].
  - exfalso. rewrite fmap_cons, chars_py_join in Heq.
    destruct (index_id_chars z2) as [Hne _]. fold (piece z2) in Hne.
    change (chars (py_join "_" (piece <$> []))) with (@nil ascii) in Heq.
    by destruct (chars (piece z2)).
  - exfalso. rewrite fmap_cons, chars_py_join in Heq.
    destruct (index_id_chars z1) as [Hne _]. fold (piece z1) in Hne.
    change (chars (py_join "_" (piece <$> []))) with (@nil ascii) in Heq.
    by destruct (chars (piece z1)).
  - rewrite !fmap_cons, !chars_py_join in Heq.
    change (chars "_") with ["_"%char] in Heq.
    apply (split_at_separator "_"%char) in Heq as [H1 H2].
    + f_equal; [by apply index_id_inj, chars_inj|].
      assert (chars <$> (piece <$> l1) = chars <$> (piece <$> l2)) as Hl.
      { apply (joined_pieces_inj "_"%char); [apply Hfree..|].
        rewrite <-!(list_fmap_compose chars). exact H2. }
      assert (Inj (=) (=) chars) as Hci by (intros ???; by apply chars_inj).
      assert (Inj (=) (=) piece) as Hpi by (intros ???; by apply index_id_inj).
      by apply (inj (fmap chars)), (inj (fmap piece)) in Hl.
    + apply index_id_chars.
    + apply index_id_chars.
    + destruct l1; [by left|by right].
    + destruct l2; [by left|by right].
Qed.

Lemma GetIndicesId_inj_witness : [1; -2; 0] = [1; -2; 0].
Proof. apply (GetIndicesId_inj [1; -2; 0] [1; -2; 0]). reflexivity. Defined.

(** ** Successors in the reuse chains *)

Lemma StronglySorted_lt_head a c x :
  StronglySorted Z.lt (a :: c) → x ∈ c → a < x.
Proof.
  intros Hs Hx. apply StronglySorted_inv in Hs as [_ Hall].
  by apply (proj1 (Forall_forall _ _) Hall).
Qed.

Lemma StronglySorted_lt_NoDup (c : list Z) : StronglySorted Z.lt c → NoDup c.
Proof.
  induction 1 as [|a c _ IH Ha]; constructor; [|done].
  intros Hin. pose proof (proj1 (Forall_forall _ _) Ha a Hin). lia.
Qed.

(** The links between neighbours of an ascending chain. *)
Lemma adjacent_sorted c x y :
  StronglySorted Z.lt c →
  (x, y) ∈ chain_links c ↔
  x ∈ c ∧ y ∈ c ∧ x < y ∧ ∀ z, z ∈ c → ¬ (x < z < y).
Proof.
  unfold chain_links. induction c as [|a c IH]; intros Hs.
  - simpl. split; [by intros ?%elem_of_nil|by intros [?%elem_of_nil _]].
  - pose proof (StronglySorted_inv Hs) as [Hs' Ha].
    specialize (IH Hs'). destruct c as [|b c].
    { simpl. split; [by intros ?%elem_of_nil|].
      intros (->%list_elem_of_singleton & ->%list_elem_of_singleton & ? & _).
      lia. }
    change (zip (a :: b :: c) (tail (a :: b :: c)))
      with ((a, b) :: zip (b :: c) (tail (b :: c))).
    rewrite elem_of_cons, IH. split.
    + intros [[= -> ->]|(Hx & Hy & Hlt & Hbetween)].
      * split; [left|]. split; [right; left|].
        pose proof (StronglySorted_lt_head _ _ b Hs ltac:(left)).
        split; [done|]. intros z [->|Hz]%elem_of_cons; [lia|].
        apply elem_of_cons in Hz as [->|Hz]; [lia|].
        pose proof (StronglySorted_lt_head _ _ z Hs' Hz). lia.
      * split; [by right|]. split; [by right|]. split; [done|].
        intros z [->|Hz]%elem_of_cons; [|by apply Hbetween].
        pose proof (StronglySorted_lt_head _ _ x Hs Hx). lia.
    + intros (Hx & Hy & Hlt & Hbetween).
      apply elem_of_cons in Hx as [->|Hx].
      * left. apply elem_of_cons in Hy as [->|Hy]; [lia|].
        apply elem_of_cons in Hy as [->|Hy]; [done|].
        pose proof (StronglySorted_lt_head _ _ y Hs' Hy).
        pose proof (StronglySorted_lt_head _ _ b Hs ltac:(left)).
        exfalso. apply (Hbetween b); [right; left|lia].
      * right. apply elem_of_cons in Hy as [->|Hy].
        { pose proof (StronglySorted_lt_head _ _ x Hs Hx). lia. }
        split; [done|]. split; [done|]. split; [done|].
        intros z Hz. apply Hbetween. by right.
Qed.

Lemma filter_all {A} (P : A → Prop) `{∀ x, Decision (P x)} (l : list A) :
  Forall P l → filter P l = l.
Proof.
  induction 1 as [|x l Hx _ IH]; [done|]. by rewrite filter_cons_True, IH.
Qed.

Lemma proper_links_of_chain c :
  StronglySorted Z.lt c → proper_links (links_of_chain c) = chain_links c.
Proof.
  intros Hs. unfold proper_links, links_of_chain. destruct c as [|v c]; [done|].
  rewrite filter_cons_False by (simpl; lia).
  apply filter_all, Forall_forall. intros [x y] Hxy.
  by apply (chain_links_sorted (v :: c)) in Hxy as (_ & _ & ?).
Qed.

Lemma chain_links_starts c : (chain_links c).*1 `sublist_of` c.
Proof.
  unfold chain_links. induction c as [|a c IH]; [done|].
  destruct c as [|b c]; [by apply sublist_nil_l|].
  change (zip (a :: b :: c) (tail (a :: b :: c)))
    with ((a, b) :: zip (b :: c) (tail (b :: c))).
  csimpl. by apply sublist_skip.
Qed.

Lemma proper_links_concat chains :
  Forall (StronglySorted Z.lt) chains →
  proper_links (concat (links_of_chain <$> chains))
  = concat (chain_links <$> chains).
Proof.
  unfold proper_links. induction 1 as [|c chains Hc _ IH]; [done|]. csimpl.
  rewrite filter_app, IH. f_equal. by apply proper_links_of_chain.
Qed.

Lemma chain_links_starts_NoDup chains :
  NoDup (concat chains) →
  NoDup (concat (chain_links <$> chains)).*1.
Proof.
  intros Hnd. eapply sublist_NoDup; [exact Hnd|]. clear Hnd.
  induction chains as [|c chains IH]; [done|]. csimpl.
  rewrite fmap_app. apply sublist_app; [apply chain_links_starts|done].
Qed.

Lemma next_fifo_fold (links : list (Z * Z)) (m : gmap Z Z) :
  foldl (λ m link, if bool_decide (link.1 < link.2) then <[link.1 := link.2]> m
                   else m) m links
  = foldl (λ m link, <[link.1 := link.2]> m) m (proper_links links).
Proof.
  unfold proper_links. revert m. induction links as [|l links IH]; intros m.
  - done.
  - simpl. case_bool_decide.
    + by rewrite filter_cons_True, IH.
    + by rewrite filter_cons_False, IH.
Qed.

Lemma insert_all_lookup (links : list (Z * Z)) x y :
  NoDup links.*1 →
  foldl (λ (m : gmap Z Z) link, <[link.1 := link.2]> m) ∅ links !! x = Some y
  ↔ (x, y) ∈ links.
Proof.
  induction links as [|[a b] links IH] using rev_ind; intros Hnd.
  - simpl. rewrite lookup_empty. split; [done|by intros ?%elem_of_nil].
  - rewrite fmap_app in Hnd. apply NoDup_app in Hnd as (Hnd & Hdisj & _).
    rewrite foldl_app. simpl. rewrite elem_of_app, list_elem_of_singleton.
    destruct (decide (a = x)) as [->|Hne].
    + rewrite lookup_insert_eq. split.
      * intros [= ->]. by right.
      * intros [Hin|[= ->]]; [|done]. exfalso.
        apply (Hdisj x); [|left].
        apply list_elem_of_fmap. by exists (x, y).
    + rewrite lookup_insert_ne by done. rewrite IH by done.
      split; [by left|]. intros [?|[= -> ->]]; done.
Qed.

Lemma chains_NoDup A U (rs : list Z) :
  NoDup rs → NoDup (concat (chain_of A U <$> rs)).
Proof.
  induction 1 as [|r rs Hr Hnd IH]; csimpl; [constructor|].
  apply NoDup_app. split; [|split; [|done]].
  - apply StronglySorted_lt_NoDup, chain_of_sorted.
  - intros x [_ Hx]%chain_of_elem (c & (r' & -> & Hr')%list_elem_of_fmap & Hin)%elem_of_concat.
    apply chain_of_elem in Hin as [_ Hx']. congruence.
Qed.

Lemma next_fifo_chains A U (buf : Buffer) :
  1 ≤ U → buf.2 = concat (links_of_chain <$> chains_of A U) →
  ∀ x y, next_fifo_of buf !! x = Some y ↔ next_in_lane A U x y.
Proof.
  intros HU Hlinks x y. unfold next_fifo_of.
  rewrite next_fifo_fold, Hlinks, proper_links_concat.
  2:{ rewrite chains_of_fmap. apply Forall_fmap, Forall_forall.
      intros r _. apply chain_of_sorted. }
  rewrite insert_all_lookup.
  2:{ apply chain_links_starts_NoDup. rewrite chains_of_fmap.
      apply chains_NoDup. rewrite reverse_Permutation. apply NoDup_seqZ. }
  rewrite elem_of_concat, chains_of_fmap. unfold next_in_lane. split.
  - intros (l & (c & -> & (r & -> & Hr)%list_elem_of_fmap)%list_elem_of_fmap & Hin).
    apply adjacent_sorted in Hin as (Hx & Hy & Hlt & Hbetween);
      [|apply chain_of_sorted].
    apply chain_of_elem in Hx as [Hx Hxr]. apply chain_of_elem in Hy as [Hy Hyr].
    split_and!; try done; [congruence|].
    intros z Hz Hzr. apply Hbetween, chain_of_elem. split; [done|congruence].
  - intros (Hx & Hy & Hlt & Hmod & Hbetween).
    exists (chain_links (chain_of A U (x `mod` U))). split.
    + apply list_elem_of_fmap. eexists. split; [done|].
      apply list_elem_of_fmap. eexists. split; [done|].
      apply elem_of_reverse, elem_of_seqZ.
      pose proof (Z.mod_pos_bound x U). lia.
    + apply adjacent_sorted; [apply chain_of_sorted|].
      split_and!; try done; [by apply chain_of_elem..|].
      intros z [Hz Hzr]%chain_of_elem. by apply Hbetween.
Qed.

(** X13 (GetNextFIFO).  For every producer tensor [b],
    [GetNextFIFO()[b.name]] maps [x] to [y] exactly when [y] follows [x] in
    its residue class of [A_dag] modulo the unroll factor: both are
    elements, they are congruent, [x < y], and no element of the class lies
    between them. *)
Theorem GetNextFIFO_successor (st : Stencil) nf (b : Tensor) :
  tensors_named st →
  GetNextFIFO st = Ok nf →
  b ∈ GetProducerTensors st →
  ∃ children A fifo,
    children_of st b = Ok children ∧
    A_dag (tile_size st) (t_name b) children (unroll_factor st) = Ok A ∧
    nf !! t_name b = Some fifo ∧
    ∀ x y, fifo !! x = Some y ↔ next_in_lane A (unroll_factor st) x y.
Proof.
  intros Hnamed Hnf Hb. unfold GetNextFIFO in Hnf.
  destruct (GetReuseBuffers st) as [[bufs lens]|e] eqn:Hget; [|done].
  simpl in Hnf. injection Hnf as <-.
  destruct (GetReuseBuffers_lookup _ _ _ _ Hnamed Hget Hb)
    as (buf & len & Hbl & Hbuf & _).
  unfold buffer_of in Hbl.
  apply rbind_Ok in Hbl as (children & Hch & Hbl).
  apply rbind_Ok in Hbl as (buf' & Hgb & Hbl).
  apply rbind_Ok in Hbl as (len' & _ & [= <- <-]).
  destruct (GetBuffer_inv _ _ _ _ _ Hgb) as (A & HA & _ & Hlinks & _).
  pose proof (A_dag_inv _ _ _ _ _ HA) as (HU & _ & _).
  exists children, A, (next_fifo_of buf'). split_and!; try done.
  - by rewrite lookup_fmap, Hbuf.
  - by apply next_fifo_chains.
Qed.

Lemma GetNextFIFO_successor_witness :
  ∃ nf b,
    tensors_named blur1 ∧ GetNextFIFO blur1 = Ok nf ∧
    b ∈ GetProducerTensors blur1 ∧
    ∃ children A fifo,
      children_of blur1 b = Ok children ∧
      A_dag (tile_size blur1) (t_name b) children (unroll_factor blur1) = Ok A ∧
      nf !! t_name b = Some fifo ∧
      ∀ x y, fifo !! x = Some y ↔ next_in_lane A (unroll_factor blur1) x y.
Proof.
  destruct blur1_next_fifo as (nf & Hnf).
  destruct blur1_tmp_producer as (b & Hin & _).
  exists nf, b.
  split; [exact tensors_named_blur|]. split; [exact Hnf|]. split; [exact Hin|].
  exact (GetNextFIFO_successor blur1 nf b tensors_named_blur Hnf Hin).
Defined.

(** ** Replicated buffers *)

Lemma replicated_fold chains acc :
  foldl replicated_buffer_step acc chains
  = (acc.1 ++ concat (links_of_chain <$> chains), acc.2 ++ concat chains).
Proof.
  revert acc. induction chains as [|c chains IH]; intros [links offs].
  - simpl. by rewrite !app_nil_r.
  - simpl foldl. rewrite IH. destruct c as [|c0 rest]; [done|].
    csimpl. by rewrite <-!app_assoc.
Qed.

Lemma replicated_buffer_inv tile b (children : list Stage) (R : Z)
    (buf : Buffer) :
  _get_replicated_reuse_buffer tile b children R = Ok buf →
  ∃ A m, replicated_A_dag tile b children = Ok A ∧ 1 ≤ R ∧
         m ∈ A ∧ (∀ y, y ∈ A → y ≤ m) ∧
         buf = (m + 1, concat (links_of_chain <$> chains_of A R)).
Proof.
  unfold _get_replicated_reuse_buffer, _get_replicated_reuse_chains.
  intros (chains & (A & HA & [= <-])%rbind_Ok & Hrest)%rbind_Ok.
  rewrite replicated_fold in Hrest. cbn [fst snd app] in Hrest.
  apply rbind_Ok in Hrest as (m & Hm & [= <-]).
  assert (1 ≤ R) as HR.
  { destruct (decide (1 ≤ R)) as [|HR]; [done|]. exfalso.
    assert (chains_of A R = []) as Hnil.
    { unfold chains_of. by rewrite seqZ_nil by lia. }
    by rewrite Hnil in Hm. }
  destruct (py_max_concat_chains _ _ _ HR Hm) as [Hin Hmax].
  by exists A, m.
Qed.

Lemma replicated_buffer_total tile b (children : list Stage) (R : Z) A m :
  replicated_A_dag tile b children = Ok A → 1 ≤ R →
  m ∈ A → (∀ y, y ∈ A → y ≤ m) →
  _get_replicated_reuse_buffer tile b children R
  = Ok (m + 1, concat (links_of_chain <$> chains_of A R)).
Proof.
  intros HA HR Hin Hmax.
  unfold _get_replicated_reuse_buffer, _get_replicated_reuse_chains.
  rewrite HA. rstep. rstep. rewrite replicated_fold. cbn [fst snd app].
  assert (py_max (concat (chains_of A R)) = Ok m) as ->; [|done].
  apply py_max_spec. split.
  - by apply elem_of_chains_of.
  - intros y Hy%elem_of_chains_of; [|done]. by apply Hmax.
Qed.

(** X14 (_get_replicated_reuse_buffer).  [_get_replicated_reuse_buffer]
    returns exactly when the replication factor is at least 1 and the set
    [A_dag] of the replicated chains is computed and not empty; the buffer
    is then [max(A_dag) + 1] followed by the links of the residue classes
    of [A_dag] modulo the replication factor, in descending residue order,
    an empty class contributing no link. *)
Theorem replicated_buffer_spec tile b (children : list Stage) (R : Z)
    (buf : Buffer) :
  _get_replicated_reuse_buffer tile b children R = Ok buf ↔
  ∃ A m, replicated_A_dag tile b children = Ok A ∧ 1 ≤ R ∧
         m ∈ A ∧ (∀ y, y ∈ A → y ≤ m) ∧
         buf = (m + 1, concat (links_of_chain <$> chains_of A R)).
Proof.
  split; [apply replicated_buffer_inv|].
  intros (A & m & HA & HR & Hin & Hmax & ->).
  by apply replicated_buffer_total.
Qed.

(** X15 (factor 1).  For a producer with at least one consuming stage, each
    holding a window and a delay for it, [_GetBuffer] at unroll factor 1
    and [_get_replicated_reuse_buffer] at replication factor 1 return the
    same buffer. *)
Theorem replicated_buffer_at_factor_one tile b (children : list Stage) :
  children ≠ [] →
  Forall (λ s, is_Some (consumer_view tile b s)) children →
  ∃ buf, _GetBuffer tile b children 1 = Ok buf ∧
         _get_replicated_reuse_buffer tile b children 1 = Ok buf.
Proof.
  intros Hne Hall.
  assert (1 ≤ 1) as H1' by lia.
  destruct (A_dag_total tile b children 1 H1' Hne Hall) as [A HA].
  pose proof (chains_nonempty _ _ _ _ _ HA Hall) as Hcne.
  destruct (GetBuffer_total _ _ _ _ _ HA Hcne) as [buf Hbuf].
  exists buf. split; [done|].
  destruct (GetBuffer_inv _ _ _ _ _ Hbuf) as (A' & HA' & _ & Hlinks & Hmax).
  rewrite HA in HA'. injection HA' as <-.
  assert (1 ≤ 1) as H1 by lia.
  destruct (py_max_concat_chains _ _ _ H1 Hmax) as [Hin Hle].
  rewrite (replicated_buffer_total tile b children 1 A (buf.1 - 1));
    [|by rewrite replicated_A_dag_one_lane|done|done|done].
  destruct buf as [n links]. simpl in *. f_equal. f_equal; [lia|done].
Qed.

Lemma replicated_buffer_at_factor_one_witness :
  let children := consumers blur1 "input" in
  children ≠ [] ∧
  Forall (λ s, is_Some (consumer_view [8; 0] "input" s)) children ∧
  ∃ buf, _GetBuffer [8; 0] "input" children 1 = Ok buf ∧
         _get_replicated_reuse_buffer [8; 0] "input" children 1 = Ok buf.
Proof.
  intros children.
  assert (children ≠ []) as H1 by (vm_compute; discriminate).
  assert (Forall (λ s, is_Some (consumer_view [8; 0] "input" s)) children) as H2.
  { vm_compute. repeat constructor. eexists. reflexivity. }
  split; [exact H1|]. split; [exact H2|].
  exact (replicated_buffer_at_factor_one [8; 0] "input" children H1 H2).
Defined.

Lemma links_skip_empty (chains : list (list Z)) :
  concat (links_of_chain <$> chains)
  = concat (links_of_chain <$> filter (λ c, c ≠ []) chains).
Proof.
  induction chains as [|c chains IH]; [done|]. csimpl.
  destruct c as [|v c].
  - rewrite filter_cons_False by (by intros H; apply H). done.
  - rewrite filter_cons_True by done. csimpl. by rewrite IH.
Qed.

Lemma filter_nonempty_chains A R (rs : list Z) :
  filter (λ c, c ≠ []) (chain_of A R <$> rs)
  = chain_of A R <$> filter (λ r, chain_of A R r ≠ []) rs.
Proof.
  induction rs as [|r rs IH]; [done|]. csimpl.
  destruct (decide (chain_of A R r ≠ [])).
  - rewrite !filter_cons_True by done. csimpl. by rewrite IH.
  - by rewrite !filter_cons_False.
Qed.

Lemma replicated_lengths A R (buf : Buffer) :
  1 ≤ R → buf.2 = concat (links_of_chain <$> chains_of A R) →
  ∃ len, buffer_lengths R buf = Ok len ∧
         ∀ link, link ∈ buf.2 → len !! link.2 = Some (expected_length R link).
Proof.
  intros HR Hlinks.
  set (rs := filter (λ r, chain_of A R r ≠ []) (reverse (seqZ 0 R))).
  assert (buf.2 = concat (links_of_chain <$> (chain_of A R <$> rs))) as Hlinks'.
  { by rewrite Hlinks, links_skip_empty, chains_of_fmap, filter_nonempty_chains. }
  assert (chains_wf R rs (chain_of A R <$> rs)) as Hwf.
  { split; [|split].
    - apply Forall2_fmap_r, Forall_Forall2_diag, Forall_forall.
      intros r [Hne _]%list_elem_of_filter. split; [done|]. split.
      + apply chain_of_sorted.
      + apply Forall_forall. intros x Hx. by apply chain_of_elem in Hx as [_ ?].
    - apply NoDup_filter. rewrite reverse_Permutation. apply NoDup_seqZ.
    - apply Forall_forall.
      intros r [_ Hr%elem_of_reverse%elem_of_seqZ]%list_elem_of_filter. lia. }
  destruct (length_steps_chains R HR _ _ (replicate (Z.to_nat R) true) ∅ Hwf)
    as [first' Hfold].
  { apply Forall_forall.
    intros r [_ Hr%elem_of_reverse%elem_of_seqZ]%list_elem_of_filter.
    apply lookup_replicate_2. lia. }
  unfold buffer_lengths. rewrite Hlinks', Hfold. rstep.
  eexists. split; [done|]. intros link Hin.
  apply record_lengths_lookup; [|done].
  rewrite concat_links_snd. by eapply chains_wf_NoDup.
Qed.

Lemma replicated_buffers_fold st l
    (acc acc' : gmap string Buffer * gmap string (gmap Z Z)) :
  NoDup (t_name <$> l) →
  rfold (λ acc tensor,
           bl ← replicated_buffer_of st tensor;
           Ok (<[t_name tensor := bl.1]> acc.1, <[t_name tensor := bl.2]> acc.2))
        l acc = Ok acc' →
  (∀ b, b ∈ l → ∃ buf len, replicated_buffer_of st b = Ok (buf, len) ∧
                 acc'.1 !! t_name b = Some buf ∧ acc'.2 !! t_name b = Some len)
  ∧ (∀ n, n ∉ t_name <$> l →
          acc'.1 !! n = acc.1 !! n ∧ acc'.2 !! n = acc.2 !! n).
Proof.
  revert acc. induction l as [|b l IH]; intros acc Hnd; simpl.
  - intros [= <-]. split; [by intros ? ?%elem_of_nil|done].
  - apply NoDup_cons in Hnd as [Hb Hnd].
    intros (acc1 & Hstep & Hrest)%rbind_Ok.
    apply rbind_Ok in Hstep as ([buf len] & Hbl & [= <-]).
    destruct (IH _ Hnd Hrest) as [IH1 IH2]. simpl in *. split.
    + intros b' [->|Hin]%elem_of_cons; [|by apply IH1].
      exists buf, len. destruct (IH2 _ Hb) as [-> ->].
      by rewrite !lookup_insert_eq.
    + intros n [Hn1 Hn2]%not_elem_of_cons.
      destruct (IH2 _ Hn2) as [-> ->]. by rewrite !lookup_insert_ne.
Qed.

(** X16 (get_replicated_reuse_buffers).  For every producer tensor [b],
    [replicated_reuse_buffers[b.name]] starts with [max(A_dag) + 1] and
    continues with the links of the residue classes of the replicated
    [A_dag] modulo the replication factor [R]; at the end of each link
    [replicated_reuse_buffer_lengths[b.name]] holds [end // R] for a
    self-link that starts at [R] or later and [(end - start) // R]
    otherwise. *)
Theorem replicated_reuse_buffers_spec (st : Stencil) bufs lens (b : Tensor) :
  tensors_named st →
  get_replicated_reuse_buffers st = Ok (bufs, lens) →
  b ∈ GetProducerTensors st →
  ∃ children A buf len,
    children_of st b = Ok children ∧
    replicated_A_dag (tile_size st) (t_name b) children = Ok A ∧
    bufs !! t_name b = Some buf ∧ lens !! t_name b = Some len ∧
    (buf.1 - 1 ∈ A ∧ ∀ y, y ∈ A → y ≤ buf.1 - 1) ∧
    buf.2 = concat (links_of_chain <$> chains_of A (replication_factor st)) ∧
    ∀ start end_, (start, end_) ∈ buf.2 →
      len !! end_
      = Some (expected_length (replication_factor st) (start, end_)).
Proof.
  intros Hnamed Hget Hb.
  destruct (proj1 (replicated_buffers_fold st _ _ _ (producers_NoDup st Hnamed)
                     Hget) b Hb)
    as (buf & len & Hbl & Hbuf & Hlen).
  unfold replicated_buffer_of in Hbl.
  apply rbind_Ok in Hbl as (children & Hch & Hbl).
  apply rbind_Ok in Hbl as (buf' & Hgb & Hbl).
  apply rbind_Ok in Hbl as (len' & Hlen' & [= <- <-]).
  apply replicated_buffer_inv in Hgb as (A & m & HA & HR & Hin & Hmax & ->).
  destruct (replicated_lengths A (replication_factor st)
              (m + 1, concat (links_of_chain <$> chains_of A (replication_factor st)))
              HR eq_refl) as (len'' & Hl & Hspec).
  rewrite Hlen' in Hl. injection Hl as <-.
  exists children, A, (m + 1, concat (links_of_chain <$>
                                        chains_of A (replication_factor st))), len'.
  simpl. replace (m + 1 - 1) with m by lia.
  split_and!; try done.
  intros start end_ Hlink. by apply (Hspec (start, end_)).
Qed.

Lemma replicated_reuse_buffers_spec_witness :
  ∃ bufs lens b,
    tensors_named blur1 ∧
    get_replicated_reuse_buffers blur1 = Ok (bufs, lens) ∧
    b ∈ GetProducerTensors blur1 ∧
    ∃ children A buf len,
      children_of blur1 b = Ok children ∧
      replicated_A_dag (tile_size blur1) (t_name b) children = Ok A ∧
      bufs !! t_name b = Some buf ∧ lens !! t_name b = Some len ∧
      (buf.1 - 1 ∈ A ∧ ∀ y, y ∈ A → y ≤ buf.1 - 1) ∧
      buf.2 = concat (links_of_chain <$> chains_of A (replication_factor blur1)) ∧
      ∀ start end_, (start, end_) ∈ buf.2 →
        len !! end_
        = Some (expected_length (replication_factor blur1) (start, end_)).
Proof.
  destruct blur1_replicated_buffers as (bufs & lens & Hget).
  destruct blur1_tmp_producer as (b & Hin & _).
  exists bufs, lens, b.
  split; [exact tensors_named_blur|]. split; [exact Hget|]. split; [exact Hin|].
  exact (replicated_reuse_buffers_spec blur1 bufs lens b
           tensors_named_blur Hget Hin).
Defined.

(** ** What the assembly hands to the scheduler *)

Lemma Tensor_init_fresh node t :
  Tensor_init node = Ok t → t_offset t = 0 ∧ t_name t = n_name node.
Proof.
  unfold Tensor_init. intros (idx & _ & [= <-])%rbind_Ok. done.
Qed.

Lemma make_tensors_fresh a locals output_node self :
  make_tensors a locals output_node = Ok self →
  ∀ n t, p_tensors self !! n = Some t → t_offset t = 0.
Proof.
  unfold make_tensors.
  intros (ts & Hts & Hrest)%rbind_Ok.
  assert (∀ n t, ts !! n = Some t → t_offset t = 0) as Hts0.
  { intros n t Hn.
    destruct (rfold_insert_lookup_inv Tensor_init n_name _ _ _ _ _ Hts Hn)
      as [(i & _ & _ & Hi)|Hl].
    - by apply Tensor_init_fresh in Hi as [? _].
    - by rewrite lookup_empty in Hl. }
  apply rbind_Ok in Hrest as (self1 & H1 & H2).
  assert (∀ n t, p_tensors self1 !! n = Some t → t_offset t = 0) as H10.
  { destruct (decide (n_name (a_input a) ∈ n_name <$> a_locals a)) as [Hc|Hc];
      [rewrite bool_decide_eq_true_2 in H1 by done
      |rewrite bool_decide_eq_false_2 in H1 by done].
    - apply rbind_Ok in H1 as (? & _ & [=]).
    - apply rbind_Ok in H1 as (t1 & Ht1 & [= <-]). simpl.
      intros n t. destruct (decide (t_name t1 = n)) as [<-|Hne].
      + rewrite lookup_insert_eq. intros [= <-].
        by apply Tensor_init_fresh in Ht1 as [? _].
      + rewrite lookup_insert_ne by done. apply Hts0. }
  destruct (decide (n_name output_node ∈ n_name <$> a_locals a)) as [Hc|Hc];
    [rewrite bool_decide_eq_true_2 in H2 by done
    |rewrite bool_decide_eq_false_2 in H2 by done].
  - apply rbind_Ok in H2 as (? & _ & [=]).
  - apply rbind_Ok in H2 as (t2 & Ht2 & [= <-]). simpl.
    intros n t. destruct (decide (t_name t2 = n)) as [<-|Hne].
    + rewrite lookup_insert_eq. intros [= <-].
      by apply Tensor_init_fresh in Ht2 as [? _].
    + rewrite lookup_insert_ne by done. apply H10.
Qed.

Lemma alter_children_offset (f : Tensor → Tensor) (names : list string)
    (ts : gmap string Tensor) :
  (∀ t, t_offset (f t) = t_offset t) →
  (∀ n t, ts !! n = Some t → t_offset t = 0) →
  ∀ n t, foldl (λ ts b, alter f b ts) ts names !! n = Some t → t_offset t = 0.
Proof.
  intros Hf. revert ts. induction names as [|b names IH]; intros ts Hts; simpl.
  - done.
  - apply IH. intros n t. destruct (decide (b = n)) as [->|Hne].
    + rewrite lookup_alter_eq. destruct (ts !! n) as [t0|] eqn:Ht0; [|done].
      intros [= <-]. rewrite Hf. by eapply Hts.
    + rewrite lookup_alter_ne by done. apply Hts.
Qed.

Lemma add_stage_fresh tile extra g node g' :
  assembled_fresh g → add_stage tile extra g node = Ok g' → assembled_fresh g'.
Proof.
  intros [Ht Hs]. unfold add_stage.
  intros (? & _ & (s & Hmk & [= <-])%rbind_Ok)%rbind_Ok. split; simpl.
  - apply alter_children_offset; [done|].
    intros n t. destruct (decide (n_name node = n)) as [->|Hne].
    + rewrite lookup_alter_eq. destruct (g.1 !! n) as [t0|] eqn:Ht0; [|done].
      intros [= <-]. simpl. by eapply Ht.
    + rewrite lookup_alter_ne by done. apply Ht.
  - intros sn s'. destruct (decide (n_name node = sn)) as [<-|Hne].
    + rewrite lookup_insert_eq. intros [= <-].
      unfold make_stage in Hmk.
      apply rbind_Ok in Hmk as (? & _ & Hmk).
      apply rbind_Ok in Hmk as (? & _ & Hmk).
      apply rbind_Ok in Hmk as (? & _ & Hmk).
      by apply rbind_Ok in Hmk as (? & _ & [= <-]).
    + rewrite lookup_insert_ne by done. apply Hs.
Qed.

Lemma resolve_borders_fresh g borders g' :
  assembled_fresh g → resolve_borders g borders = Ok g' → assembled_fresh g'.
Proof.
  unfold resolve_borders. intros Hg Hfold.
  refine (rfold_inv assembled_fresh _ _ _ _ _ Hg Hfold).
  clear. intros g ds g' [Ht Hs].
  intros (src & _ & Hrest)%rbind_Ok.
  apply rbind_Ok in Hrest as (t & Ht0%of_option_Ok & Hrest).
  apply rbind_Ok in Hrest as (s & Hs0%of_option_Ok & [= <-]). split; simpl.
  - intros n t'. destruct (decide (src = n)) as [->|Hne].
    + rewrite lookup_insert_eq. intros [= <-]. simpl. by eapply Ht.
    + rewrite lookup_insert_ne by done. apply Ht.
  - intros sn s'. destruct (decide (ds.1 = sn)) as [<-|Hne].
    + rewrite lookup_insert_eq. intros [= <-].
      destruct (Hs _ _ Hs0) as [Hn Hd]. by destruct (s_border s).
    + rewrite lookup_insert_ne by done. apply Hs.
Qed.

Lemma Stencil_assemble_fresh a bank self g :
  Stencil_assemble a = Ok (bank, self, g) → assembled_fresh g.
Proof.
  unfold Stencil_assemble.
  intros (bank' & _ & Hrest)%rbind_Ok.
  apply rbind_Ok in Hrest as (? & _ & Hrest).
  destruct (expand_iterations a) as [[locals output_node] borders].
  apply rbind_Ok in Hrest as (self' & Hself & Hrest).
  apply rbind_Ok in Hrest as (g0 & Hg0 & Hrest).
  apply rbind_Ok in Hrest as (g1 & Hg1 & [= <- <- <-]).
  eapply resolve_borders_fresh; [|exact Hg1].
  eapply (rfold_inv assembled_fresh); [| |exact Hg0].
  - intros ? ? ?. apply add_stage_fresh.
  - split; simpl.
    + by eapply make_tensors_fresh.
    + intros sn s Hlk. by rewrite lookup_empty in Hlk.
Qed.

(** ** Invariants of the scheduling loop *)

Section more_scheduler.
Context (tile : list Z) (input : string).

Lemma sched_inv_requeue q st : sched_inv tile input st → sched_inv tile input (requeue q st).
Proof. intros []. by split. Qed.

Lemma schedule_loop_inv2 (Q : Sched → Prop) fuel st st' :
  (∀ st q, Q st → Q (requeue q st)) →
  (∀ st sn st', sched_inv tile input st → Q st →
                visit_stage tile st sn = Ok st' → Q st') →
  sched_inv tile input st → Q st →
  schedule_loop fuel tile st = Some (Ok st') → Q st'.
Proof.
  intros Hq Hstep. revert st. induction fuel as [|fuel IH]; intros st Hinv HQ; simpl.
  - destruct (sc_queue st) eqn:Hqu; [|done]. by intros [= <-].
  - destruct (sc_queue st) as [|bn q] eqn:Hqu; [by intros [= <-]|].
    destruct (visit_tensor _ _ _) as [st1|e] eqn:Hvisit; [|done].
    unfold visit_tensor in Hvisit.
    apply rbind_Ok in Hvisit as (b & _ & Hfold).
    assert (sched_inv tile input st1 ∧ Q st1) as [Hinv1 HQ1].
    { refine (rfold_inv (λ s, sched_inv tile input s ∧ Q s) _ _ _ _ _ _ Hfold).
      - intros s x s' [Hi Hs] Hv. split.
        + by eapply visit_stage_inv.
        + by eapply Hstep.
      - split; [by apply (sched_inv_requeue q)|by apply (Hq st q)]. }
    by apply IH.
Qed.

(** *** The chronological list is a topological order *)

Lemma visit_stage_topo st sn st' :
  sched_inv tile input st → chrono_topo st →
  visit_stage tile st sn = Ok st' → chrono_topo st'.
Proof.
  intros [Hhead Hnd Hproc Hsorted Hinputs Hcausal] Htopo. unfold visit_stage.
  intros (s & Hs%of_option_Ok & Hbody)%rbind_Ok.
  destruct (bool_decide (Forall _ _) && bool_decide _) eqn:Hcond.
  2:{ by injection Hbody as <-. }
  apply andb_prop in Hcond as [Hin%bool_decide_eq_true Hsn%bool_decide_eq_true].
  apply rbind_Ok in Hbody as (so & Hso & Hbody).
  apply rbind_Ok in Hbody as (out & Hout%of_option_Ok & Hbody).
  apply rbind_Ok in Hbody as (noff & Hsync & Hbody).
  apply rbind_Ok in Hbody as (delay & Hdelay & [= <-]).
  intros i sn_i s_i Hi Hpos Hsi. simpl in *.
  destruct (decide (i < length (sc_chrono st))%nat) as [Hlt|Hge].
  - rewrite lookup_app_l in Hi by done.
    assert (sn_i ≠ sn) as Hne.
    { intros ->. apply Hsn, Hproc. by eapply list_elem_of_lookup_2. }
    rewrite lookup_insert_ne in Hsi by done.
    eapply Forall_impl; [by eapply Htopo|].
    intros x (j & Hj & Hx). exists j. split; [done|].
    rewrite lookup_app_l by lia. done.
  - rewrite lookup_app_r in Hi by lia.
    apply list_lookup_singleton_Some in Hi as [Hi <-].
    rewrite lookup_insert_eq in Hsi. injection Hsi as <-. simpl.
    eapply Forall_impl; [exact Hin|].
    intros x Hx%Hproc%list_elem_of_lookup_1. destruct Hx as [j Hj].
    exists j. pose proof (lookup_lt_Some _ _ _ Hj).
    split; [lia|]. by rewrite lookup_app_l.
Qed.

(** *** Offsets and delays are never negative *)

Lemma add_delay_keys tensors s so off delay :
  add_delay tensors s so off = Ok delay →
  ∀ x d, delay !! x = Some d →
         (x ∈ s_inputs s ∧ 0 ≤ d) ∨ s_delay s !! x = Some d.
Proof.
  unfold add_delay. generalize (s_delay s).
  induction (s_inputs s) as [|y l IH]; intros d0; simpl.
  - intros [= <-] x d Hx. by right.
  - intros (d1 & Hstep & Hrest)%rbind_Ok.
    apply rbind_Ok in Hstep as (xt & _ & Hstep).
    apply rbind_Ok in Hstep as (offs & _ & Hstep).
    apply rbind_Ok in Hstep as (lst & _ & [= <-]).
    intros x d Hx. destruct (IH _ Hrest x d Hx) as [[Hin Hd]|Hold].
    + left. split; [by right|done].
    + destruct (decide (y = x)) as [->|Hne].
      * rewrite lookup_insert_eq in Hold. injection Hold as <-.
        left. split; [left|lia].
      * rewrite lookup_insert_ne in Hold by done. by right.
Qed.

Lemma visit_stage_nonneg st sn st' :
  sched_inv tile input st → sched_nonneg input st →
  visit_stage tile st sn = Ok st' → sched_nonneg input st'.
Proof.
  intros [Hhead Hnd Hproc Hsorted Hinputs Hcausal] (Hoff & Hin0 & Hdel).
  unfold visit_stage.
  intros (s & Hs%of_option_Ok & Hbody)%rbind_Ok.
  destruct (bool_decide (Forall _ _) && bool_decide _) eqn:Hcond.
  2:{ by injection Hbody as <-. }
  apply andb_prop in Hcond as [Hin%bool_decide_eq_true Hsn%bool_decide_eq_true].
  apply rbind_Ok in Hbody as (so & Hso & Hbody).
  apply rbind_Ok in Hbody as (out & Hout%of_option_Ok & Hbody).
  apply rbind_Ok in Hbody as (noff & Hsync & Hbody).
  apply rbind_Ok in Hbody as (delay & Hdelay & [= <-]).
  destruct (Sync_spec _ _ _ _ _ Hsync) as (_ & _ & Hle & _).
  assert (input ≠ sn) as Hne.
  { intros <-. apply Hsn, Hproc. destruct (sc_chrono st); [done|].
    injection Hhead as ->. left. }
  split_and!; simpl.
  - intros n t. destruct (decide (sn = n)) as [->|Hn].
    + rewrite lookup_insert_eq. intros [= <-]. simpl.
      pose proof (Hoff _ _ Hout). lia.
    + rewrite lookup_insert_ne by done. apply Hoff.
  - intros t. rewrite lookup_insert_ne by done. apply Hin0.
  - intros sn' s' x d. destruct (decide (sn = sn')) as [->|Hn].
    + rewrite lookup_insert_eq. intros [= <-]. simpl. intros Hx.
      destruct (add_delay_keys _ _ _ _ _ Hdelay x d Hx) as [[_ ?]|Hold]; [done|].
      by eapply Hdel.
    + rewrite lookup_insert_ne by done. apply Hdel.
Qed.

(** *** Delays are stored for the inputs of scheduled stages only *)

Lemma visit_stage_delay_keys st sn st' :
  sched_inv tile input st → delay_keys st →
  visit_stage tile st sn = Ok st' → delay_keys st'.
Proof.
  intros [Hhead Hnd Hproc Hsorted Hinputs Hcausal] Hkeys. unfold visit_stage.
  intros (s & Hs%of_option_Ok & Hbody)%rbind_Ok.
  destruct (bool_decide (Forall _ _) && bool_decide _) eqn:Hcond.
  2:{ by injection Hbody as <-. }
  apply andb_prop in Hcond as [Hin%bool_decide_eq_true Hsn%bool_decide_eq_true].
  apply rbind_Ok in Hbody as (so & Hso & Hbody).
  apply rbind_Ok in Hbody as (out & Hout%of_option_Ok & Hbody).
  apply rbind_Ok in Hbody as (noff & Hsync & Hbody).
  apply rbind_Ok in Hbody as (delay & Hdelay & [= <-]).
  assert (sc_chrono st ≠ []) as Hne by (by destruct (sc_chrono st)).
  assert (sn ∉ sc_chrono st) as Hsn' by (by rewrite Hproc).
  intros sn' s'. simpl. rewrite tail_snoc by done.
  destruct (decide (sn = sn')) as [<-|Hn].
  - rewrite lookup_insert_eq. intros [= <-]. simpl.
    destruct (Hkeys _ _ Hs) as [Hname Hold]. split; [done|].
    intros x. split.
    + intros [d Hd]. split; [apply elem_of_app; right; left|].
      destruct (add_delay_keys _ _ _ _ _ Hdelay x d Hd) as [[? _]|Hd']; [done|].
      apply (proj1 (Hold x)). eauto.
    + intros [_ Hx].
      destruct (add_delay_spec _ _ _ _ _ Hdelay x Hx) as (? & ? & ? & _ & _ & _ & ->).
      eauto.
  - rewrite lookup_insert_ne by done. intros Hs'.
    destruct (Hkeys _ _ Hs') as [Hname Hold]. split; [done|].
    intros x. rewrite Hold, elem_of_app, list_elem_of_singleton.
    split; [intros [? ?]; by auto|]. intros [[?|?] ?]; [done|congruence].
Qed.

End more_scheduler.

(** ** The constructed stencil *)

Lemma Stencil_init_sched fuel a st :
  Stencil_init fuel a = Some (Ok st) →
  ∃ bank self g sc,
    Stencil_assemble a = Ok (bank, self, g) ∧
    schedule fuel (a_tile_size a) (n_name (a_input a)) g.1 g.2 = Some (Ok sc) ∧
    st = mkStencil (a_iterate a) (a_tile_size a) (a_unroll_factor a)
                   (a_replication_factor a) (a_dim a) bank (a_extra_params a)
                   (n_name (a_input a)) (n_name (a_output a))
                   (sc_tensors sc) (sc_stages sc) (sc_chrono sc).
Proof.
  unfold Stencil_init.
  destruct (Stencil_assemble a) as [[[bank self] g]|e] eqn:Hasm; [|done].
  destruct (schedule _ _ _ _ _) as [[sc|e]|] eqn:Hsched; [|done..].
  intros [= <-]. by exists bank, self, g, sc.
Qed.

Lemma schedule_inv2 tile input (Q : Sched → Prop) fuel tensors stages sc :
  (∀ st q, Q st → Q (requeue q st)) →
  (∀ st sn st', sched_inv tile input st → Q st →
                visit_stage tile st sn = Ok st' → Q st') →
  offsets_sorted stages →
  Q (schedule_init input tensors stages) →
  schedule fuel tile input tensors stages = Some (Ok sc) → Q sc.
Proof.
  intros Hq Hstep Hsorted HQ Hsched.
  eapply (schedule_loop_inv2 tile input Q); [done|done| |exact HQ|exact Hsched].
  by apply sched_inv_init.
Qed.

Lemma Stencil_init_topo fuel a st :
  Stencil_init fuel a = Some (Ok st) →
  ∃ sc, sched_inv (a_tile_size a) (n_name (a_input a)) sc ∧
        chrono_topo sc ∧ sched_nonneg (n_name (a_input a)) sc ∧ delay_keys sc ∧
        input st = n_name (a_input a) ∧
        tensors st = sc_tensors sc ∧ stages st = sc_stages sc ∧
        chronological_tensors st = sc_chrono sc.
Proof.
  intros (bank & self & g & sc & Hasm & Hsched & ->)%Stencil_init_sched.
  pose proof (Stencil_assemble_sorted _ _ _ _ Hasm) as Hsorted.
  pose proof (Stencil_assemble_fresh _ _ _ _ Hasm) as [Hf1 Hf2].
  exists sc. split_and!; try done.
  - eapply schedule_loop_inv; [|exact Hsched]. by apply sched_inv_init.
  - eapply (schedule_inv2 _ _ chrono_topo); [done| |done| |exact Hsched].
    + apply visit_stage_topo.
    + intros i sn s Hi Hpos. simpl in Hi.
      apply list_lookup_singleton_Some in Hi as [-> _]. lia.
  - eapply (schedule_inv2 _ _ (sched_nonneg _)); [done| |done| |exact Hsched].
    + apply visit_stage_nonneg.
    + split_and!; simpl.
      * intros n t Hn. rewrite (Hf1 _ _ Hn). lia.
      * intros t Hn. by rewrite (Hf1 _ _ Hn).
      * intros sn s x d Hs. destruct (Hf2 _ _ Hs) as [_ ->].
        by rewrite lookup_empty.
  - eapply (schedule_inv2 _ _ delay_keys); [done| |done| |exact Hsched].
    + apply visit_stage_delay_keys.
    + intros sn s Hs. simpl in *. destruct (Hf2 _ _ Hs) as [Hn ->].
      split; [done|]. intros x. rewrite lookup_empty. split.
      * by intros [? ?].
      * by intros [?%elem_of_nil _].
Qed.




(** X18 (signs).  When the scheduling loop of the constructor ends, the
    input tensor has offset 0, no tensor has a negative offset and no stage
    holds a negative delay. *)
Theorem offsets_and_delays_nonnegative (fuel : nat) (a : Args) (st : Stencil) :
  Stencil_init fuel a = Some (Ok st) →
  (∃ t, tensors st !! input st = Some t ∧ t_offset t = 0) ∧
  (∀ n t, tensors st !! n = Some t → 0 ≤ t_offset t) ∧
  (∀ sn s x d, stages st !! sn = Some s → s_delay s !! x = Some d → 0 ≤ d).
Proof.
  intros Hinit.
  destruct (Stencil_init_inv _ _ _ Hinit) as (sc0 & _ & Hdom & _ & Hi0 & Ht0 & _).
  destruct (Stencil_init_topo _ _ _ Hinit)
    as (sc & _ & _ & (Hoff & Hin0 & Hdel) & _ & Hinput & Ht & Hs & _).
  rewrite Hinput, Ht, Hs. rewrite Ht in Ht0. rewrite <-Ht0 in Hdom.
  split_and!; try done.
  destruct Hdom as [t Htn]. exists t. split; [done|]. by apply Hin0.
Qed.

Lemma offsets_and_delays_nonnegative_witness :
  Stencil_init 20 (blur_args 1) = Some (Ok blur1) ∧
  (∃ t, tensors blur1 !! input blur1 = Some t ∧ t_offset t = 0) ∧
  (∀ n t, tensors blur1 !! n = Some t → 0 ≤ t_offset t) ∧
  (∀ sn s x d, stages blur1 !! sn = Some s → s_delay s !! x = Some d → 0 ≤ d).
Proof.
  split; [exact blur1_built|].
  exact (offsets_and_delays_nonnegative 20 (blur_args 1) blur1 blur1_built).
Defined.



(** ** The assembled graph is wired *)

Lemma rmap_length {A B} (f : A → result B) l ys :
  rmap f l = Ok ys → length ys = length l.
Proof. intros H%rmap_Ok. symmetry. by eapply Forall2_length. Qed.

Lemma sorted_by_Serialize_length tile idxs w :
  sorted_by_Serialize tile idxs = Ok w → length w = length idxs.
Proof.
  unfold sorted_by_Serialize.
  intros (keyed & Hkeyed%rmap_length & [= <-])%rbind_Ok.
  by rewrite length_fmap, (Permutation_length (merge_sort_Permutation _ _)).
Qed.

Lemma make_stage_wired tile extra tensors node s :
  make_stage tile extra tensors node = Ok s →
  s_name s = n_name node ∧
  ∀ x, x ∈ s_inputs s →
       ∃ w o os, s_window s !! x = Some w ∧
                 SerializeIterative w tile = Ok (o :: os).
Proof.
  unfold make_stage.
  intros (parents & Hpar & (window & Hwin & (offset & Hoff & (expr & _ & [= <-])
            %rbind_Ok)%rbind_Ok)%rbind_Ok)%rbind_Ok.
  simpl. split; [done|]. intros x Hx.
  assert (parents = load_names extra node) as ->.
  { unfold GetParentTensorsFor in Hpar. apply rmap_Ok in Hpar.
    symmetry. apply list_eq_Forall2. eapply Forall2_impl; [exact Hpar|].
    intros y z (? & _ & [= <-])%rbind_Ok. done. }
  unfold GetWindowFor in Hwin.
  destruct (rfold_insert_lookup_fwd
              (λ name, sorted_by_Serialize tile
                         (remove_dups (l_idx <$> filter (λ l, l_name l = name)
                                                  (GetLoads node)))) id
              _ _ _ ltac:(rewrite list_fmap_id; apply NoDup_remove_dups) Hwin)
    as [Hall _].
  destruct (Hall x Hx) as (w & Hw & Hlk). simpl in Hlk.
  assert (w ≠ []) as Hne.
  { apply sorted_by_Serialize_length in Hw. intros ->. simpl in Hw.
    symmetry in Hw. apply length_zero_iff_nil in Hw.
    unfold load_names in Hx.
    apply elem_of_remove_dups, list_elem_of_filter in Hx as [_ Hx].
    apply list_elem_of_fmap in Hx as (l & -> & Hl).
    assert (l_idx l ∈ remove_dups (l_idx <$> filter (λ l0, l_name l0 = l_name l)
                                              (GetLoads node))) as Hin.
    { apply elem_of_remove_dups, list_elem_of_fmap_2, list_elem_of_filter. done. }
    rewrite Hw in Hin. by apply elem_of_nil in Hin. }
  unfold serialize_window in Hoff.
  destruct (rfold_insert_lookup_fwd (λ nw, SerializeIterative nw.2 tile) fst
              _ _ _ (NoDup_fst_map_to_list _) Hoff) as [Hser _].
  destruct (Hser (x, w)) as (o & Ho & _); [by apply elem_of_map_to_list|].
  simpl in Ho. pose proof (rmap_length _ _ _ Ho) as Hlen.
  destruct o as [|o os]; [by destruct w|].
  by exists w, o, os.
Qed.

Lemma make_tensors_named a locals output_node self :
  make_tensors a locals output_node = Ok self →
  ∀ n t, p_tensors self !! n = Some t → t_name t = n ∧ t_children t = [].
Proof.
  unfold make_tensors.
  intros (ts & Hts & Hrest)%rbind_Ok.
  assert (∀ node t, Tensor_init node = Ok t →
                    t_name t = n_name node ∧ t_children t = []) as Hinit.
  { intros node t. unfold Tensor_init. by intros (idx & _ & [= <-])%rbind_Ok. }
  assert (∀ n t, ts !! n = Some t → t_name t = n ∧ t_children t = []) as Hts0.
  { intros n t Hn.
    destruct (rfold_insert_lookup_inv Tensor_init n_name _ _ _ _ _ Hts Hn)
      as [(i & _ & <- & Hi)|Hl].
    - by apply Hinit.
    - by rewrite lookup_empty in Hl. }
  apply rbind_Ok in Hrest as (self1 & H1 & H2).
  assert (∀ n t, p_tensors self1 !! n = Some t →
                 t_name t = n ∧ t_children t = []) as H10.
  { destruct (decide (n_name (a_input a) ∈ n_name <$> a_locals a)) as [Hc|Hc];
      [rewrite bool_decide_eq_true_2 in H1 by done
      |rewrite bool_decide_eq_false_2 in H1 by done].
    - apply rbind_Ok in H1 as (? & _ & [=]).
    - apply rbind_Ok in H1 as (t1 & Ht1 & [= <-]). simpl.
      intros n t. destruct (decide (t_name t1 = n)) as [<-|Hne].
      + rewrite lookup_insert_eq. intros [= <-].
        by destruct (Hinit _ _ Ht1).
      + rewrite lookup_insert_ne by done. apply Hts0. }
  destruct (decide (n_name output_node ∈ n_name <$> a_locals a)) as [Hc|Hc];
    [rewrite bool_decide_eq_true_2 in H2 by done
    |rewrite bool_decide_eq_false_2 in H2 by done].
  - apply rbind_Ok in H2 as (? & _ & [=]).
  - apply rbind_Ok in H2 as (t2 & Ht2 & [= <-]). simpl.
    intros n t. destruct (decide (t_name t2 = n)) as [<-|Hne].
    + rewrite lookup_insert_eq. intros [= <-]. by destruct (Hinit _ _ Ht2).
    + rewrite lookup_insert_ne by done. apply H10.
Qed.

(** What [b.children.add(stage)] over the inputs does to one tensor. *)
Lemma add_children_lookup (c : string) (names : list string)
    (ts : gmap string Tensor) b t' :
  foldl (λ ts b, alter (add_child c) b ts) ts names !! b = Some t' →
  ∃ t, ts !! b = Some t ∧ t_name t' = t_name t ∧
       ∀ sn, sn ∈ t_children t' → sn ∈ t_children t ∨ (sn = c ∧ b ∈ names).
Proof.
  revert ts. induction names as [|x names IH]; intros ts; simpl.
  - intros Hb. exists t'. split; [done|]. split; [done|]. by left.
  - intros (t1 & Ht1 & Hn1 & Hch)%IH.
    destruct (decide (x = b)) as [->|Hne].
    + rewrite lookup_alter_eq in Ht1.
      destruct (ts !! b) as [t|] eqn:Ht; [|done]. injection Ht1 as <-.
      exists t. split; [done|]. split; [done|].
      intros sn Hsn. destruct (Hch sn Hsn) as [Hin|[-> ?]].
      * unfold add_child in Hin. simpl in Hin. case_bool_decide; [by left|].
        apply elem_of_app in Hin as [?|Heq%list_elem_of_singleton]; [by left|].
        subst sn. right. split; [done|left].
      * right. split; [done|by right].
    + rewrite lookup_alter_ne in Ht1 by done.
      exists t1. split; [done|]. split; [done|].
      intros sn Hsn. destruct (Hch sn Hsn) as [?|[-> ?]]; [by left|].
      right. split; [done|by right].
Qed.

Lemma add_stage_wired tile extra g node g' :
  graph_wired tile g → g.2 !! n_name node = None →
  add_stage tile extra g node = Ok g' →
  graph_wired tile g' ∧
  ∀ sn, is_Some (g'.2 !! sn) → sn = n_name node ∨ is_Some (g.2 !! sn).
Proof.
  intros (Hnamed & Hchildren & Hstages) Hfresh. unfold add_stage.
  intros (out & Hout%of_option_Ok & (s & Hmk & [= <-])%rbind_Ok)%rbind_Ok.
  destruct (make_stage_wired _ _ _ _ _ Hmk) as [Hsname Hswin].
  assert (∀ b t', foldl (λ ts b, alter (add_child (n_name node)) b ts)
                    (alter (set_parent (n_name node)) (n_name node) g.1)
                    (s_inputs s) !! b = Some t' →
            ∃ t, g.1 !! b = Some t ∧ t_name t' = t_name t ∧
                 ∀ sn, sn ∈ t_children t' →
                       sn ∈ t_children t ∨ (sn = n_name node ∧ b ∈ s_inputs s))
    as Hlk.
  { intros b t' (t1 & Ht1 & Hn1 & Hch)%add_children_lookup.
    destruct (decide (n_name node = b)) as [<-|Hne].
    - rewrite lookup_alter_eq, Hout in Ht1. injection Ht1 as <-.
      by exists out.
    - rewrite lookup_alter_ne in Ht1 by done. by exists t1. }
  assert (∀ b, is_Some (g.1 !! b) →
               is_Some (foldl (λ ts b, alter (add_child (n_name node)) b ts)
                          (alter (set_parent (n_name node)) (n_name node) g.1)
                          (s_inputs s) !! b)) as Hdom.
  { intros b Hb.
    assert (∀ (names : list string) (ts : gmap string Tensor),
              is_Some (ts !! b) →
              is_Some (foldl (λ ts b, alter (add_child (n_name node)) b ts)
                             ts names !! b)) as Hgen.
    { induction names as [|x names IH]; intros ts Hts; simpl; [done|].
      apply IH. destruct (decide (x = b)) as [->|?].
      - rewrite lookup_alter_eq. destruct Hts as [? ->]. simpl. eauto.
      - by rewrite lookup_alter_ne. }
    apply Hgen. destruct (decide (n_name node = b)) as [<-|?].
    - rewrite lookup_alter_eq, Hout. simpl. eauto.
    - by rewrite lookup_alter_ne. }
  split; [split_and!|]; simpl.
  - intros n t' (t & Ht & Hn & _)%Hlk. rewrite Hn. by eapply Hnamed.
  - intros b t' sn (t & Ht & _ & Hch)%Hlk Hsn.
    destruct (Hch sn Hsn) as [Hold|[-> Hin]].
    + destruct (Hchildren _ _ _ Ht Hold) as (s0 & Hs0 & Hb).
      exists s0. split; [|done]. rewrite lookup_insert_ne; [done|].
      intros <-. by rewrite Hfresh in Hs0.
    + exists s. split; [by rewrite lookup_insert_eq|done].
  - intros sn s0. destruct (decide (n_name node = sn)) as [<-|Hne].
    + rewrite lookup_insert_eq. intros [= <-]. split; [|done].
      apply Hdom. eauto.
    + rewrite lookup_insert_ne by done. intros Hs0.
      destruct (Hstages _ _ Hs0) as [Hd Hw]. split; [by apply Hdom|done].
  - intros sn. destruct (decide (n_name node = sn)) as [<-|Hne]; [by left|].
    rewrite lookup_insert_ne by done. by right.
Qed.

Lemma add_stages_wired tile extra nodes g g' :
  NoDup (n_name <$> nodes) →
  (∀ node, node ∈ nodes → g.2 !! n_name node = None) →
  graph_wired tile g →
  rfold (add_stage tile extra) nodes g = Ok g' →
  graph_wired tile g'.
Proof.
  revert g. induction nodes as [|node nodes IH]; intros g Hnd Hfresh Hw; simpl.
  - by intros [= <-].
  - intros (g1 & Hstep & Hrest)%rbind_Ok.
    csimpl in Hnd. apply NoDup_cons in Hnd as [Hnode Hnd].
    destruct (add_stage_wired _ _ _ _ _ Hw (Hfresh node ltac:(left)) Hstep)
      as [Hw1 Hdom1].
    apply (IH g1); try done.
    intros node' Hin. destruct (g1.2 !! n_name node') as [s|] eqn:Hs; [|done].
    exfalso. destruct (Hdom1 (n_name node') ltac:(eauto)) as [Heq|[s' Hs']].
    + apply Hnode. rewrite <-Heq. by apply list_elem_of_fmap_2.
    + rewrite (Hfresh node') in Hs'; [done|by right].
Qed.

Lemma resolve_borders_wired tile g borders g' :
  graph_wired tile g → resolve_borders g borders = Ok g' → graph_wired tile g'.
Proof.
  unfold resolve_borders. intros Hg Hfold.
  refine (rfold_inv (graph_wired tile) _ _ _ _ _ Hg Hfold).
  clear. intros g ds g' (Hnamed & Hchildren & Hstages).
  intros (src & _ & Hrest)%rbind_Ok.
  apply rbind_Ok in Hrest as (t & Ht0%of_option_Ok & Hrest).
  apply rbind_Ok in Hrest as (s & Hs0%of_option_Ok & [= <-]).
  assert (∀ sn s1, <[ds.1 := match s_border s with
                             | None => set_s_border (Some src) s
                             | Some _ => s
                             end]> g.2 !! sn = Some s1 →
            ∃ s0, g.2 !! sn = Some s0 ∧ s_inputs s1 = s_inputs s0 ∧
                  s_window s1 = s_window s0) as Hst.
  { intros sn s1. destruct (decide (ds.1 = sn)) as [<-|Hne].
    - rewrite lookup_insert_eq. intros [= <-]. exists s. split; [done|].
      by destruct (s_border s).
    - rewrite lookup_insert_ne by done. intros ?. by exists s1. }
  assert (∀ sn s0, g.2 !! sn = Some s0 →
            ∃ s1, <[ds.1 := match s_border s with
                            | None => set_s_border (Some src) s
                            | Some _ => s
                            end]> g.2 !! sn = Some s1 ∧
                  s_inputs s1 = s_inputs s0) as Hst'.
  { intros sn s0 Hsn. destruct (decide (ds.1 = sn)) as [<-|Hne].
    - rewrite lookup_insert_eq. eexists. split; [done|].
      rewrite Hs0 in Hsn. injection Hsn as <-. by destruct (s_border s).
    - rewrite lookup_insert_ne by done. by exists s0. }
  split_and!; simpl.
  - intros n t'. destruct (decide (src = n)) as [->|Hne].
    + rewrite lookup_insert_eq. intros [= <-]. simpl. by eapply Hnamed.
    + rewrite lookup_insert_ne by done. apply Hnamed.
  - intros b t' sn Hb Hsn.
    assert (∃ t0, g.1 !! b = Some t0 ∧ t_children t' = t_children t0)
      as (t0 & Hb0 & Hch).
    { destruct (decide (src = b)) as [->|Hne].
      - rewrite lookup_insert_eq in Hb. injection Hb as <-. by exists t.
      - rewrite lookup_insert_ne in Hb by done. by exists t'. }
    rewrite Hch in Hsn.
    destruct (Hchildren _ _ _ Hb0 Hsn) as (s0 & Hsn0 & Hin).
    destruct (Hst' _ _ Hsn0) as (s1 & Hs1 & Heq).
    exists s1. split; [done|]. by rewrite Heq.
  - intros sn s1 (s0 & Hsn0 & Hin & Hwin)%Hst.
    destruct (Hstages _ _ Hsn0) as [Hd Hw]. split.
    + destruct (decide (src = sn)) as [->|Hne].
      * rewrite lookup_insert_eq. eauto.
      * by rewrite lookup_insert_ne.
    + rewrite Hin, Hwin. done.
Qed.

Lemma Stencil_assemble_wired a bank self g :
  NoDup (definition_names a) →
  Stencil_assemble a = Ok (bank, self, g) →
  graph_wired (a_tile_size a) g.
Proof.
  unfold Stencil_assemble, definition_names. intros Hnd.
  intros (bank' & _ & Hrest)%rbind_Ok.
  apply rbind_Ok in Hrest as (? & _ & Hrest).
  destruct (expand_iterations a) as [[locals output_node] borders].
  apply rbind_Ok in Hrest as (self' & Hself & Hrest).
  apply rbind_Ok in Hrest as (g0 & Hg0 & Hrest).
  apply rbind_Ok in Hrest as (g1 & Hg1 & [= <- <- <-]).
  eapply resolve_borders_wired; [|exact Hg1].
  eapply add_stages_wired; [| | |exact Hg0].
  - simpl in Hnd. apply NoDup_cons in Hnd as [_ Hnd].
    by rewrite fmap_app.
  - intros node _. simpl. apply lookup_empty.
  - split_and!; simpl.
    + intros n t Hn. by apply (make_tensors_named _ _ _ _ Hself) in Hn as [? _].
    + intros b t sn Hb Hsn.
      apply (make_tensors_named _ _ _ _ Hself) in Hb as [_ Hch].
      rewrite Hch in Hsn. by apply elem_of_nil in Hsn.
    + intros sn s Hs. by rewrite lookup_empty in Hs.
Qed.

(** The stages built by the constructor are those of the locals and of the
    output: the input has none when the names are distinct. *)
Lemma add_stages_dom tile extra nodes g g' :
  rfold (add_stage tile extra) nodes g = Ok g' →
  ∀ sn, is_Some (g'.2 !! sn) → sn ∈ n_name <$> nodes ∨ is_Some (g.2 !! sn).
Proof.
  revert g. induction nodes as [|node nodes IH]; intros g; simpl.
  - intros [= <-] sn Hsn. by right.
  - intros (g1 & Hstep & Hrest)%rbind_Ok sn Hsn.
    destruct (IH _ Hrest sn Hsn) as [Hin|Hin]; [left; by right|].
    unfold add_stage in Hstep.
    apply rbind_Ok in Hstep as (? & _ & (s & _ & [= <-])%rbind_Ok).
    simpl in Hin. destruct (decide (n_name node = sn)) as [<-|Hne].
    + left. left.
    + rewrite lookup_insert_ne in Hin by done. by right.
Qed.

Lemma resolve_borders_dom g borders g' :
  resolve_borders g borders = Ok g' →
  ∀ sn, is_Some (g'.2 !! sn) → is_Some (g.2 !! sn).
Proof.
  unfold resolve_borders. intros Hfold sn.
  refine (rfold_inv (λ g1, is_Some (g1.2 !! sn) → is_Some (g.2 !! sn))
            _ _ _ _ _ _ Hfold); [|done].
  clear. intros g1 ds g2 IH.
  intros (src & _ & Hrest)%rbind_Ok.
  apply rbind_Ok in Hrest as (t & _ & Hrest).
  apply rbind_Ok in Hrest as (s & Hs0%of_option_Ok & [= <-]). simpl.
  destruct (decide (ds.1 = sn)) as [<-|Hne].
  - intros _. apply IH. eauto.
  - by rewrite lookup_insert_ne.
Qed.

Lemma Stencil_assemble_input_no_stage a bank self g :
  NoDup (definition_names a) →
  Stencil_assemble a = Ok (bank, self, g) →
  g.2 !! n_name (a_input a) = None.
Proof.
  unfold Stencil_assemble, definition_names. intros Hnd.
  intros (bank' & _ & Hrest)%rbind_Ok.
  apply rbind_Ok in Hrest as (? & _ & Hrest).
  destruct (expand_iterations a) as [[locals output_node] borders].
  apply rbind_Ok in Hrest as (self' & Hself & Hrest).
  apply rbind_Ok in Hrest as (g0 & Hg0 & Hrest).
  apply rbind_Ok in Hrest as (g1 & Hg1 & [= <- <- <-]).
  simpl in Hnd. apply NoDup_cons in Hnd as [Hin _].
  destruct (g1.2 !! n_name (a_input a)) as [s|] eqn:Hs; [|done].
  exfalso.
  destruct (add_stages_dom _ _ _ _ _ Hg0 (n_name (a_input a))) as [H|H].
  - eapply resolve_borders_dom; [exact Hg1|]. eauto.
  - apply Hin. by rewrite fmap_app in H.
  - simpl in H. rewrite lookup_empty in H. by destruct H.
Qed.

(** The scheduler rewrites only the offset of a tensor and the delays of a
    stage: the wiring stays. *)
Lemma visit_stage_wired tile st sn st' :
  graph_wired tile (sc_tensors st, sc_stages st) →
  visit_stage tile st sn = Ok st' →
  graph_wired tile (sc_tensors st', sc_stages st').
Proof.
  intros (Hnamed & Hchildren & Hstages). unfold visit_stage.
  intros (s & Hs%of_option_Ok & Hrest)%rbind_Ok.
  destruct (_ && _); [|by injection Hrest as <-].
  apply rbind_Ok in Hrest as (so & _ & Hrest).
  apply rbind_Ok in Hrest as (out & Hout%of_option_Ok & Hrest).
  apply rbind_Ok in Hrest as (off & _ & Hrest).
  apply rbind_Ok in Hrest as (delay & _ & [= <-]). simpl in *.
  assert (∀ b t', <[sn := set_offset off out]> (sc_tensors st) !! b = Some t' →
            ∃ t, sc_tensors st !! b = Some t ∧ t_name t' = t_name t ∧
                 t_children t' = t_children t) as Hts.
  { intros b t'. destruct (decide (sn = b)) as [<-|Hne].
    - rewrite lookup_insert_eq. intros [= <-]. by exists out.
    - rewrite lookup_insert_ne by done. intros ?. by exists t'. }
  assert (∀ x s0, sc_stages st !! x = Some s0 →
            ∃ s1, <[sn := set_delay delay s]> (sc_stages st) !! x = Some s1 ∧
                  s_inputs s1 = s_inputs s0 ∧ s_window s1 = s_window s0)
    as Hfw.
  { intros x s0 Hx. destruct (decide (sn = x)) as [<-|Hne].
    - rewrite lookup_insert_eq. eexists. split; [done|].
      rewrite Hs in Hx. by injection Hx as <-.
    - rewrite lookup_insert_ne by done. by exists s0. }
  assert (∀ x s1, <[sn := set_delay delay s]> (sc_stages st) !! x = Some s1 →
            ∃ s0, sc_stages st !! x = Some s0 ∧
                  s_inputs s1 = s_inputs s0 ∧ s_window s1 = s_window s0)
    as Hbw.
  { intros x s1. destruct (decide (sn = x)) as [<-|Hne].
    - rewrite lookup_insert_eq. intros [= <-]. by exists s.
    - rewrite lookup_insert_ne by done. intros ?. by exists s1. }
  split_and!.
  - intros n t' (t & Ht & -> & _)%Hts. by eapply Hnamed.
  - intros b t' x (t & Ht & _ & Hch)%Hts Hx. rewrite Hch in Hx.
    destruct (Hchildren _ _ _ Ht Hx) as (s0 & Hs0 & Hb).
    destruct (Hfw _ _ Hs0) as (s1 & Hs1 & Hin & _).
    exists s1. split; [done|]. by rewrite Hin.
  - intros x s1 (s0 & Hs0 & Hin & Hwin)%Hbw.
    destruct (Hstages _ _ Hs0) as [Hd Hw]. split; simpl.
    + destruct (decide (sn = x)) as [<-|Hne].
      * rewrite lookup_insert_eq. eauto.
      * by rewrite lookup_insert_ne.
    + by rewrite Hin, Hwin.
Qed.

Lemma visit_stage_stage_dom tile st sn st' x :
  visit_stage tile st sn = Ok st' →
  is_Some (sc_stages st' !! x) → is_Some (sc_stages st !! x).
Proof.
  unfold visit_stage.
  intros (s & Hs%of_option_Ok & Hrest)%rbind_Ok.
  destruct (_ && _); [|by injection Hrest as <-].
  apply rbind_Ok in Hrest as (so & _ & Hrest).
  apply rbind_Ok in Hrest as (out & Hout%of_option_Ok & Hrest).
  apply rbind_Ok in Hrest as (off & _ & Hrest).
  apply rbind_Ok in Hrest as (delay & _ & [= <-]). simpl.
  destruct (decide (sn = x)) as [<-|Hne]; [by eauto|].
  by rewrite lookup_insert_ne.
Qed.

(** What the constructor establishes beyond the schedule itself. *)
Lemma Stencil_init_wired fuel a st :
  Stencil_init fuel a = Some (Ok st) →
  NoDup (definition_names a) →
  graph_wired (tile_size st) (tensors st, stages st) ∧
  stages st !! input st = None ∧
  tile_size st = a_tile_size a ∧ unroll_factor st = a_unroll_factor a ∧
  ∀ sn s, stages st !! sn = Some s →
          s_name s = sn ∧
          ∀ x, is_Some (s_delay s !! x) ↔
               sn ∈ tail (chronological_tensors st) ∧ x ∈ s_inputs s.
Proof.
  intros Hinit Hnd.
  destruct (Stencil_init_sched _ _ _ Hinit)
    as (bank & self & g & sc & Hasm & Hsched & ->).
  destruct (Stencil_init_topo _ _ _ Hinit)
    as (sc' & _ & _ & _ & Hkeys & _ & Ht & Hs & Hc).
  simpl in *.
  pose proof (Stencil_assemble_sorted _ _ _ _ Hasm) as Hsorted.
  split_and!; try done.
  - refine (schedule_inv2 (a_tile_size a) (n_name (a_input a))
              (λ st, graph_wired (a_tile_size a) (sc_tensors st, sc_stages st))
              _ _ _ _ _ _ Hsorted _ Hsched).
    + by intros ? ?.
    + intros ? ? ? _. apply visit_stage_wired.
    + simpl. destruct g. eapply Stencil_assemble_wired; eauto.
  - refine (schedule_inv2 (a_tile_size a) (n_name (a_input a))
              (λ st, sc_stages st !! n_name (a_input a) = None)
              _ _ _ _ _ _ Hsorted _ Hsched).
    + by intros ? ?.
    + intros st0 sn st1 _ Hnone Hv.
      destruct (sc_stages st1 !! n_name (a_input a)) eqn:Hl; [|done].
      destruct (visit_stage_stage_dom _ _ _ _ _ Hv ltac:(eauto)) as [? Hl'].
      by rewrite Hnone in Hl'.
    + simpl. eapply Stencil_assemble_input_no_stage; eauto.
  - intros sn s Hsn. rewrite Hs, Hc in *. by apply Hkeys.
Qed.

Lemma rfold_total {A S} (f : S → A → result S) (l : list A) (s : S) :
  (∀ s x, x ∈ l → ∃ s', f s x = Ok s') → ∃ s', rfold f l s = Ok s'.
Proof.
  revert s. induction l as [|x l IH]; intros s Hf; simpl; [by eexists|].
  destruct (Hf s x ltac:(left)) as [s1 ->]. rstep.
  apply IH. intros s0 y Hy. apply Hf. by right.
Qed.

Lemma elem_of_producers st b :
  b ∈ GetProducerTensors st ↔
  ∃ n, tensors st !! n = Some b ∧ t_children b ≠ [].
Proof.
  unfold GetProducerTensors. rewrite list_elem_of_filter, list_elem_of_fmap.
  split.
  - intros [Hch ([n b'] & -> & Hin%elem_of_map_to_list)]. by exists n.
  - intros (n & Hn & Hch). split; [done|].
    exists (n, b). split; [done|]. by apply elem_of_map_to_list.
Qed.

(** What every consuming stage of a producer offers when all stages have
    been scheduled. *)
Lemma producer_children_views st b :
  graph_wired (tile_size st) (tensors st, stages st) →
  (∀ sn s x, stages st !! sn = Some s → x ∈ s_inputs s →
             is_Some (s_delay s !! x)) →
  b ∈ GetProducerTensors st →
  ∃ children, children_of st b = Ok children ∧ children ≠ [] ∧
    Forall (λ s, is_Some (consumer_view (tile_size st) (t_name b) s)) children.
Proof.
  intros (Hnamed & Hchildren & Hstages) Hdelay
         (n & Hn & Hne)%elem_of_producers. simpl in *.
  pose proof (Hnamed _ _ Hn) as Hname. subst n.
  destruct (rmap_total (λ n, of_option (KeyError n) (stages st !! n))
              (t_children b)) as [children Hc].
  { apply Forall_forall. intros sn Hsn.
    destruct (Hchildren _ _ _ Hn Hsn) as (s & -> & _). by exists s. }
  exists children. split; [exact Hc|].
  apply rmap_Ok in Hc. split.
  - intros ->. apply Forall2_nil_inv_r in Hc. done.
  - apply Forall_forall. intros s Hs.
    destruct (proj1 (list_elem_of_lookup _ _) Hs) as [i Hi].
    destruct (Forall2_lookup_r _ _ _ _ _ Hc Hi) as (sn & Hsn & Hlk%of_option_Ok).
    apply list_elem_of_lookup_2 in Hsn.
    destruct (Hchildren _ _ _ Hn Hsn) as (s' & Hs' & Hin).
    rewrite Hlk in Hs'. injection Hs' as <-.
    destruct (Hstages _ _ Hlk) as [_ Hw].
    destruct (Hw _ Hin) as (w & o & os & Hwin & Hser).
    destruct (Hdelay _ _ _ Hlk Hin) as [d Hd].
    unfold consumer_view. rewrite Hwin, Hd, Hser. eauto.
Qed.

Lemma buffer_of_total st b children :
  1 ≤ unroll_factor st →
  children_of st b = Ok children → children ≠ [] →
  Forall (λ s, is_Some (consumer_view (tile_size st) (t_name b) s)) children →
  ∃ bl, buffer_of st b = Ok bl.
Proof.
  intros HU Hc Hne Hviews. unfold buffer_of. rewrite Hc. rstep.
  destruct (A_dag_total _ _ _ _ HU Hne Hviews) as [A HA].
  destruct (GetBuffer_total _ _ _ _ _ HA (chains_nonempty _ _ _ _ _ HA Hviews))
    as [buf Hbuf].
  rewrite Hbuf. rstep.
  destruct (buffer_lengths_spec _ _ _ _ _ Hbuf) as (len & -> & _). rstep.
  by eexists.
Qed.

Lemma stage_points_total tile b U s :
  is_Some (consumer_view tile b s) → ∃ P, stage_points tile b U s = Ok P.
Proof.
  intros [[[offsets m] d] (w & Hw & Hser & Hm & Hd)%consumer_view_Some].
  unfold stage_points. rewrite Hw. simpl. rewrite Hser. rstep.
  rewrite Hm. rstep.
  apply rfold_total. intros P u _.
  apply rfold_total. intros P' io _.
  unfold stage_delay. rewrite Hd. simpl. by eexists.
Qed.

Lemma points_of_total st b children :
  children_of st b = Ok children →
  Forall (λ s, is_Some (consumer_view (tile_size st) (t_name b) s)) children →
  ∃ p, points_of st b = Ok p.
Proof.
  intros Hc Hviews. unfold points_of. rewrite Hc. rstep.
  unfold _GetPoints. apply rfold_total. intros ap s Hs.
  rewrite Forall_forall in Hviews.
  destruct (stage_points_total (tile_size st) (t_name b) (unroll_factor st) s
              (Hviews _ Hs)) as [P ->].
  rstep. by eexists.
Qed.

(** X20 (the queries succeed).  Take the state the scheduling loop of the
    constructor leaves, for an input, locals of all iterations and an
    output with pairwise distinct names, an unroll factor of at least 1,
    and every stage scheduled.  Every tensor is stored under its name, and
    on that state [GetReuseBuffers()], [GetAllPoints()] and [GetNextFIFO()]
    return without an exception; the keys of [reuse_buffers],
    [reuse_buffer_lengths], [all_points] and [next_fifo] are the names of
    the producer tensors. *)
Theorem scheduled_stencil_queries_succeed (fuel : nat) (a : Args) (st : Stencil) :
  Stencil_init fuel a = Some (Ok st) →
  NoDup (definition_names a) →
  1 ≤ a_unroll_factor a →
  (∀ sn, is_Some (stages st !! sn) → sn ∈ chronological_tensors st) →
  tensors_named st ∧
  ∃ bufs lens ap nf,
    GetReuseBuffers st = Ok (bufs, lens) ∧
    GetAllPoints st = Ok ap ∧
    GetNextFIFO st = Ok nf ∧
    ∀ n, (is_Some (bufs !! n) ↔ n ∈ t_name <$> GetProducerTensors st) ∧
         (is_Some (lens !! n) ↔ n ∈ t_name <$> GetProducerTensors st) ∧
         (is_Some (ap !! n) ↔ n ∈ t_name <$> GetProducerTensors st) ∧
         (is_Some (nf !! n) ↔ n ∈ t_name <$> GetProducerTensors st).
Proof.
  intros Hinit Hnd HU Hall.
  destruct (Stencil_init_wired _ _ _ Hinit Hnd)
    as (Hwired & Hinput & Htile & Hunroll & Hkeys).
  destruct (Stencil_init_inv _ _ _ Hinit)
    as (sc & Hinv & _ & _ & Hin & _ & _ & Hchrono).
  pose proof (inv_head _ _ _ Hinv) as Hhead.
  rewrite <-Hchrono, <-Hin in Hhead.
  assert (tensors_named st) as Hnamed.
  { intros n t Hn. destruct Hwired as [Hw _]. by apply Hw. }
  split; [exact Hnamed|].
  assert (∀ sn s x, stages st !! sn = Some s → x ∈ s_inputs s →
                    is_Some (s_delay s !! x)) as Hdelay.
  { intros sn s x Hs Hx. apply (Hkeys _ _ Hs). split; [|done].
    pose proof (Hall sn ltac:(eauto)) as Hsn.
    destruct (chronological_tensors st) as [|i tl]; [done|].
    injection Hhead as ->. simpl.
    apply elem_of_cons in Hsn as [->|Hsn]; [|done].
    by rewrite Hinput in Hs. }
  rewrite <-Hunroll in HU.
  assert (∀ b, b ∈ GetProducerTensors st →
               (∃ bl, buffer_of st b = Ok bl) ∧ ∃ p, points_of st b = Ok p)
    as Htotal.
  { intros b Hb.
    destruct (producer_children_views st b Hwired Hdelay Hb)
      as (children & Hc & Hne & Hviews).
    split; [by eapply buffer_of_total|by eapply points_of_total]. }
  destruct (rfold_total (reuse_buffers_step st) (GetProducerTensors st) (∅, ∅))
    as [[bufs lens] Hbufs].
  { intros acc b Hb. destruct (Htotal b Hb) as [[bl Hbl] _].
    unfold reuse_buffers_step. rewrite Hbl. rstep. by eexists. }
  destruct (rfold_total (all_points_step st) (GetProducerTensors st) ∅)
    as [ap Hap].
  { intros acc b Hb. destruct (Htotal b Hb) as [_ [p Hp]].
    unfold all_points_step. rewrite Hp. rstep. by eexists. }
  exists bufs, lens, ap, (next_fifo_of <$> bufs).
  split; [exact Hbufs|]. split; [exact Hap|].
  split; [by apply GetNextFIFO_Ok with lens|].
  pose proof (producers_NoDup st Hnamed) as Hpnd.
  destruct (GetReuseBuffers_fold st _ _ _ Hpnd Hbufs) as [Hfwd Hother].
  destruct (rfold_insert_lookup_fwd (points_of st) t_name _ _ _ Hpnd Hap)
    as [Hapfwd Hapother].
  intros n. simpl in *.
  destruct (decide (n ∈ t_name <$> GetProducerTensors st)) as [Hn|Hn].
  - pose proof Hn as Hn'.
    apply list_elem_of_fmap in Hn' as (b & -> & Hb).
    destruct (Hfwd b Hb) as (buf & len & _ & Hbuf & Hlen).
    destruct (Hapfwd b Hb) as (p & _ & Hp).
    rewrite lookup_fmap, Hbuf, Hlen, Hp. simpl.
    split_and!; (split; [done|eauto]).
  - destruct (Hother n Hn) as [Hb Hl].
    rewrite lookup_fmap, Hb, Hl, (Hapother n Hn), !lookup_empty. simpl.
    split_and!; (split; [by intros [? ?]|done]).
Qed.

Lemma scheduled_stencil_queries_succeed_witness :
  Stencil_init 20 (blur_args 1) = Some (Ok blur1) ∧
  NoDup (definition_names (blur_args 1)) ∧
  1 ≤ a_unroll_factor (blur_args 1) ∧
  (∀ sn, is_Some (stages blur1 !! sn) → sn ∈ chronological_tensors blur1) ∧
  tensors_named blur1 ∧
  ∃ bufs lens ap nf,
    GetReuseBuffers blur1 = Ok (bufs, lens) ∧
    GetAllPoints blur1 = Ok ap ∧
    GetNextFIFO blur1 = Ok nf ∧
    ∀ n, (is_Some (bufs !! n) ↔ n ∈ t_name <$> GetProducerTensors blur1) ∧
         (is_Some (lens !! n) ↔ n ∈ t_name <$> GetProducerTensors blur1) ∧
         (is_Some (ap !! n) ↔ n ∈ t_name <$> GetProducerTensors blur1) ∧
         (is_Some (nf !! n) ↔ n ∈ t_name <$> GetProducerTensors blur1).
Proof.
  assert (1 ≤ a_unroll_factor (blur_args 1)) as HU by (simpl; lia).
  split; [exact blur1_built|]. split; [exact blur1_names_distinct|].
  split; [exact HU|]. split; [exact blur1_all_scheduled|].
  exact (scheduled_stencil_queries_succeed 20 (blur_args 1) blur1 blur1_built
           blur1_names_distinct HU blur1_all_scheduled).
Defined.

(** ** The length accessors and the replicated successor map *)

Lemma buffer_lengths_keys U (buf : Buffer) len :
  buffer_lengths U buf = Ok len →
  ∀ k, is_Some (len !! k) → k ∈ buf.2.*2.
Proof.
  unfold buffer_lengths. intros (acc & Hfold & [= <-])%rbind_Ok k.
  assert (∀ links (acc0 acc : list bool * gmap Z Z),
            rfold (length_step U) links acc0 = Ok acc →
            is_Some (acc.2 !! k) → is_Some (acc0.2 !! k) ∨ k ∈ links.*2)
    as Hgen.
  { clear. induction links as [|link links IH]; intros acc0 acc; simpl.
    - intros [= <-] ?. by left.
    - intros (acc1 & Hstep & Hrest)%rbind_Ok Hk.
      destruct (IH _ _ Hrest Hk) as [H1|H1]; [|right; by right].
      assert (acc1.2 = <[link.2 := (acc1.2 !!! link.2)]> acc0.2
              ∨ ∃ v, acc1.2 = <[link.2 := v]> acc0.2) as [Heq|[v Heq]].
      { unfold length_step in Hstep.
        destruct (bool_decide (U = 0)); [done|].
        apply rbind_Ok in Hstep as (f & _ & Hstep).
        destruct f; [destruct (bool_decide (link.1 >= U))|];
          injection Hstep as <-; right; by eexists. }
      + rewrite Heq in H1. destruct (decide (link.2 = k)) as [<-|Hne].
        * right. left.
        * rewrite lookup_insert_ne in H1 by done. by left.
      + rewrite Heq in H1. destruct (decide (link.2 = k)) as [<-|Hne].
        * right. left.
        * rewrite lookup_insert_ne in H1 by done. by left. }
  intros Hk. destruct (Hgen _ _ _ Hfold Hk) as [H|H]; [|done].
  simpl in H. rewrite lookup_empty in H. by destruct H.
Qed.

(** What the two length accessors return, given the table of one tensor. *)
Lemma length_lookup_cases U (buf : Buffer) (len : gmap Z Z) :
  buffer_lengths U buf = Ok len →
  (∀ link, link ∈ buf.2 → len !! link.2 = Some (expected_length U link)) →
  (∀ start end_, (start, end_) ∈ buf.2 →
     of_option (KeyError (pretty end_)) (len !! end_)
     = Ok (expected_length U (start, end_))) ∧
  (∀ off, off ∉ buf.2.*2 →
     of_option (KeyError (pretty off)) (len !! off)
     = Raise (KeyError (pretty off))).
Proof.
  intros Hlen Hspec. split.
  - intros start end_ Hin. pose proof (Hspec _ Hin) as Hl. simpl in Hl.
    by rewrite Hl.
  - intros off Hoff. destruct (len !! off) as [v|] eqn:Hl; [|done].
    exfalso. apply Hoff. eapply buffer_lengths_keys; eauto.
Qed.

(** X21 (GetReuseBufferLength).  When [GetReuseBuffers()] returns,
    [GetReuseBufferLength(name, offset)] raises [KeyError(name)] for a name
    that is not a producer tensor; for a producer tensor it returns, at the
    end of a link [(start, end)] of its reuse buffer, the length recorded
    for that link, and raises [KeyError(offset)] at an offset where no link
    ends. *)
Theorem GetReuseBufferLength_spec (st : Stencil) bufs lens :
  tensors_named st →
  GetReuseBuffers st = Ok (bufs, lens) →
  (∀ name off, name ∉ t_name <$> GetProducerTensors st →
     GetReuseBufferLength st name off = Raise (KeyError name)) ∧
  (∀ b, b ∈ GetProducerTensors st →
     ∃ buf, bufs !! t_name b = Some buf ∧
       (∀ start end_, (start, end_) ∈ buf.2 →
          GetReuseBufferLength st (t_name b) end_
          = Ok (expected_length (unroll_factor st) (start, end_))) ∧
       (∀ off, off ∉ buf.2.*2 →
          GetReuseBufferLength st (t_name b) off
          = Raise (KeyError (pretty off)))).
Proof.
  intros Hnamed Hget.
  destruct (GetReuseBuffers_fold st _ _ _ (producers_NoDup st Hnamed) Hget)
    as [Hfwd Hother].
  unfold GetReuseBufferLength. rewrite Hget. simpl in *. split.
  - intros name off Hname. destruct (Hother name Hname) as [_ ->].
    by rewrite lookup_empty.
  - intros b Hb. destruct (Hfwd b Hb) as (buf & len & Hbl & Hbuf & Hlen).
    exists buf. split; [done|]. rewrite Hlen. simpl.
    unfold buffer_of in Hbl.
    apply rbind_Ok in Hbl as (children & Hch & Hbl).
    apply rbind_Ok in Hbl as (buf' & Hgb & Hbl).
    apply rbind_Ok in Hbl as (len' & Hlen' & [= <- <-]).
    destruct (buffer_lengths_spec _ _ _ _ _ Hgb) as (len'' & Hl & Hspec).
    rewrite Hlen' in Hl. injection Hl as <-.
    by apply length_lookup_cases.
Qed.

Lemma GetReuseBufferLength_spec_witness :
  ∃ bufs lens,
    tensors_named blur1 ∧ GetReuseBuffers blur1 = Ok (bufs, lens) ∧
    (∀ name off, name ∉ t_name <$> GetProducerTensors blur1 →
       GetReuseBufferLength blur1 name off = Raise (KeyError name)) ∧
    (∀ b, b ∈ GetProducerTensors blur1 →
       ∃ buf, bufs !! t_name b = Some buf ∧
         (∀ start end_, (start, end_) ∈ buf.2 →
            GetReuseBufferLength blur1 (t_name b) end_
            = Ok (expected_length (unroll_factor blur1) (start, end_))) ∧
         (∀ off, off ∉ buf.2.*2 →
            GetReuseBufferLength blur1 (t_name b) off
            = Raise (KeyError (pretty off)))).
Proof.
  destruct blur1_buffers as (bufs & lens & Hget).
  exists bufs, lens.
  split; [exact tensors_named_blur|]. split; [exact Hget|].
  exact (GetReuseBufferLength_spec blur1 bufs lens tensors_named_blur Hget).
Defined.

(** X22 (replicated accessors).  When [get_replicated_reuse_buffers()]
    returns, so does [get_replicated_next_fifo()], and for a producer
    tensor [b] its entry maps [x] to [y] exactly when [y] follows [x] in its
    residue class of the replicated [A_dag] modulo the replication factor;
    [get_replicated_reuse_buffer_length(b.name, offset)] returns the length
    of the link ending at [offset], raises [KeyError(offset)] when no link
    ends there, and [KeyError(name)] for a name that is not a producer
    tensor. *)
Theorem replicated_accessors_spec (st : Stencil) bufs lens (b : Tensor) :
  tensors_named st →
  get_replicated_reuse_buffers st = Ok (bufs, lens) →
  b ∈ GetProducerTensors st →
  ∃ children A buf fifo,
    children_of st b = Ok children ∧
    replicated_A_dag (tile_size st) (t_name b) children = Ok A ∧
    bufs !! t_name b = Some buf ∧
    get_replicated_next_fifo st = Ok (next_fifo_of <$> bufs) ∧
    (next_fifo_of <$> bufs) !! t_name b = Some fifo ∧
    (∀ x y, fifo !! x = Some y ↔ next_in_lane A (replication_factor st) x y) ∧
    (∀ start end_, (start, end_) ∈ buf.2 →
       get_replicated_reuse_buffer_length st (t_name b) end_
       = Ok (expected_length (replication_factor st) (start, end_))) ∧
    (∀ off, off ∉ buf.2.*2 →
       get_replicated_reuse_buffer_length st (t_name b) off
       = Raise (KeyError (pretty off))) ∧
    (∀ name off, name ∉ t_name <$> GetProducerTensors st →
       get_replicated_reuse_buffer_length st name off = Raise (KeyError name)).
Proof.
  intros Hnamed Hget Hb.
  destruct (replicated_buffers_fold st _ _ _ (producers_NoDup st Hnamed) Hget)
    as [Hfwd Hother].
  destruct (Hfwd b Hb) as (buf & len & Hbl & Hbuf & Hlen).
  unfold replicated_buffer_of in Hbl.
  apply rbind_Ok in Hbl as (children & Hch & Hbl).
  apply rbind_Ok in Hbl as (buf' & Hgb & Hbl).
  apply rbind_Ok in Hbl as (len' & Hlen' & [= <- <-]).
  apply replicated_buffer_inv in Hgb as (A & m & HA & HR & Hin & Hmax & ->).
  set (buf := (m + 1, concat (links_of_chain <$>
                                chains_of A (replication_factor st)))) in *.
  destruct (replicated_lengths A (replication_factor st) buf HR eq_refl)
    as (len'' & Hl & Hspec).
  rewrite Hlen' in Hl. injection Hl as <-.
  destruct (length_lookup_cases _ _ _ Hlen' Hspec) as [Hhit Hmiss].
  exists children, A, buf, (next_fifo_of buf).
  unfold get_replicated_next_fifo, get_replicated_reuse_buffer_length.
  rewrite Hget. simpl in *. split_and!; try done.
  - by rewrite lookup_fmap, Hbuf.
  - by apply next_fifo_chains.
  - intros start end_ Hlink. rewrite Hlen. simpl. by apply Hhit.
  - intros off Hoff. rewrite Hlen. simpl. by apply Hmiss.
  - intros name off Hname. destruct (Hother name Hname) as [_ ->].
    by rewrite lookup_empty.
Qed.

Lemma replicated_accessors_spec_witness :
  ∃ bufs lens b,
    tensors_named blur1 ∧
    get_replicated_reuse_buffers blur1 = Ok (bufs, lens) ∧
    b ∈ GetProducerTensors blur1 ∧
    ∃ children A buf fifo,
      children_of blur1 b = Ok children ∧
      replicated_A_dag (tile_size blur1) (t_name b) children = Ok A ∧
      bufs !! t_name b = Some buf ∧
      get_replicated_next_fifo blur1 = Ok (next_fifo_of <$> bufs) ∧
      (next_fifo_of <$> bufs) !! t_name b = Some fifo ∧
      (∀ x y, fifo !! x = Some y
              ↔ next_in_lane A (replication_factor blur1) x y) ∧
      (∀ start end_, (start, end_) ∈ buf.2 →
         get_replicated_reuse_buffer_length blur1 (t_name b) end_
         = Ok (expected_length (replication_factor blur1) (start, end_))) ∧
      (∀ off, off ∉ buf.2.*2 →
         get_replicated_reuse_buffer_length blur1 (t_name b) off
         = Raise (KeyError (pretty off))) ∧
      (∀ name off, name ∉ t_name <$> GetProducerTensors blur1 →
         get_replicated_reuse_buffer_length blur1 name off
         = Raise (KeyError name)).
Proof.
  destruct blur1_replicated_buffers as (bufs & lens & Hget).
  destruct blur1_tmp_producer as (b & Hin & _).
  exists bufs, lens, b.
  split; [exact tensors_named_blur|]. split; [exact Hget|]. split; [exact Hin|].
  exact (replicated_accessors_spec blur1 bufs lens b
           tensors_named_blur Hget Hin).
Defined.

(** ** The point map of [_GetPoints] *)

Lemma elem_of_point_rounds U offsets u idx x :
  (u, (idx, x)) ∈ point_rounds U offsets ↔ 0 ≤ u < U ∧ offsets !! idx = Some x.
Proof.
  unfold point_rounds. rewrite elem_of_concat. split.
  - intros (l & Hl & Hin). apply list_elem_of_fmap in Hl as (u' & -> & Hu').
    apply list_elem_of_fmap in Hin as ([i y] & [= -> -> ->] & Hio).
    apply elem_of_lookup_imap in Hio as (i' & y' & [= -> ->] & Hlk).
    apply elem_of_seqZ in Hu'. split; [lia|done].
  - intros [Hu Hlk]. exists (pair u <$> imap pair offsets). split.
    + apply list_elem_of_fmap. exists u. split; [done|].
      apply elem_of_seqZ. lia.
    + apply list_elem_of_fmap. exists (idx, x). split; [done|].
      by apply (elem_of_lookup_imap_2 pair).
Qed.

(** With the delay at hand the two loops are a plain fold. *)
Lemma stage_points_rounds d U m offsets (us : list Z) (P : Points) :
  rfold (λ m0 unroll_index,
           rfold (λ m1 io,
                    d ← Ok d;
                    let tap := m - io.2 + d + unroll_index in
                    Ok (<[tap := <[U - 1 - unroll_index := io.1]>
                                   (default ∅ (m1 !! tap))]> m1))
                 (imap pair offsets) m0) us P
  = Ok (foldl (record_point U m d) P
          (concat ((λ u, pair u <$> imap pair offsets) <$> us))).
Proof.
  revert P. induction us as [|u us IH]; intros P; simpl; [done|].
  rewrite foldl_app.
  assert (∀ (ios : list (nat * Z)) (P : Points),
            rfold (λ m1 io,
                     d ← Ok d;
                     let tap := m - io.2 + d + u in
                     Ok (<[tap := <[U - 1 - u := io.1]>
                                    (default ∅ (m1 !! tap))]> m1)) ios P
            = Ok (foldl (record_point U m d) P (pair u <$> ios))) as ->.
  { induction ios as [|io ios IHi]; intros P'; simpl; [done|]. apply IHi. }
  rstep. apply IH.
Qed.

(** Every entry of the map was written by one of the rounds. *)
Lemma record_points_sound U m d (Q : Z * (nat * Z) → Prop) rounds (P : Points) :
  (∀ tap lanes k idx, P !! tap = Some lanes → lanes !! k = Some idx →
     ∃ u x, Q (u, (idx, x)) ∧ k = U - 1 - u ∧ tap = m - x + d + u) →
  Forall Q rounds →
  ∀ tap lanes k idx,
    foldl (record_point U m d) P rounds !! tap = Some lanes →
    lanes !! k = Some idx →
    ∃ u x, Q (u, (idx, x)) ∧ k = U - 1 - u ∧ tap = m - x + d + u.
Proof.
  revert P. induction rounds as [|[u [i x]] rounds IH]; intros P HP HQ; simpl.
  - exact HP.
  - apply Forall_cons in HQ as [Hq HQ]. apply IH; [|done].
    intros tap lanes k idx. unfold record_point. simpl.
    destruct (decide (m - x + d + u = tap)) as [<-|Hne].
    + rewrite lookup_insert_eq. intros [= <-].
      destruct (decide (U - 1 - u = k)) as [<-|Hk].
      * rewrite lookup_insert_eq. intros [= <-]. by exists u, x.
      * rewrite lookup_insert_ne by done.
        destruct (P !! (m - x + d + u)) as [lanes|] eqn:Hl; simpl.
        -- by apply HP.
        -- by rewrite lookup_empty.
    + rewrite lookup_insert_ne by done. apply HP.
Qed.

(** What a round writes stays, up to the index of an equal offset. *)
Lemma record_points_keep U m d (offsets : list Z) rounds (P : Points) u x :
  Forall (λ t : Z * (nat * Z), offsets !! t.2.1 = Some t.2.2) rounds →
  (∃ lanes idx, P !! (m - x + d + u) = Some lanes ∧
                lanes !! (U - 1 - u) = Some idx ∧ offsets !! idx = Some x) →
  ∃ lanes idx,
    foldl (record_point U m d) P rounds !! (m - x + d + u) = Some lanes ∧
    lanes !! (U - 1 - u) = Some idx ∧ offsets !! idx = Some x.
Proof.
  revert P. induction rounds as [|[u' [i' x']] rounds IH]; intros P HR HP; simpl.
  - exact HP.
  - apply Forall_cons in HR as [Hr HR]. simpl in Hr. apply IH; [done|].
    destruct HP as (lanes & idx & Hl & Hk & Hx).
    unfold record_point. simpl.
    destruct (decide (m - x' + d + u' = m - x + d + u)) as [Heq|Hne].
    + rewrite Heq, lookup_insert_eq, Hl. simpl.
      destruct (decide (U - 1 - u' = U - 1 - u)) as [Hu|Hu].
      * exists (<[U - 1 - u' := i']> lanes), i'.
        rewrite Hu, lookup_insert_eq. split_and!; try done.
        rewrite Hr. f_equal. lia.
      * exists (<[U - 1 - u' := i']> lanes), idx.
        by rewrite lookup_insert_ne.
    + exists lanes, idx. by rewrite lookup_insert_ne.
Qed.

Lemma record_points_complete U m d (offsets : list Z) rounds (P : Points)
    u idx x :
  Forall (λ t : Z * (nat * Z), offsets !! t.2.1 = Some t.2.2) rounds →
  (u, (idx, x)) ∈ rounds →
  ∃ lanes idx',
    foldl (record_point U m d) P rounds !! (m - x + d + u) = Some lanes ∧
    lanes !! (U - 1 - u) = Some idx' ∧ offsets !! idx' = Some x.
Proof.
  revert P. induction rounds as [|t rounds IH]; intros P HR Hin; simpl.
  - by apply elem_of_nil in Hin.
  - apply Forall_cons in HR as [Hr HR].
    apply elem_of_cons in Hin as [<-|Hin]; [|by apply IH].
    apply record_points_keep; [done|]. unfold record_point. simpl in *.
    eexists _, idx. rewrite lookup_insert_eq. split; [done|].
    by rewrite lookup_insert_eq.
Qed.

Lemma rfold_insert_dom {A V} (F : A → result V) (key : A → string)
    (l : list A) (m0 m : gmap string V) :
  rfold (λ m a, v ← F a; Ok (<[key a := v]> m)) l m0 = Ok m →
  ∀ k, is_Some (m !! k) ↔ k ∈ key <$> l ∨ is_Some (m0 !! k).
Proof.
  revert m0. induction l as [|a l IH]; intros m0; simpl.
  - intros [= <-] k. split; [by right|]. by intros [?%elem_of_nil|?].
  - intros (m1 & (v & _ & [= <-])%rbind_Ok & Hrest)%rbind_Ok k.
    rewrite (IH _ Hrest k), elem_of_cons.
    destruct (decide (key a = k)) as [<-|Hne].
    + rewrite lookup_insert_eq. split; [intros _|intros _; right; by eauto].
      left. by left.
    + rewrite lookup_insert_ne by done. split.
      * intros [?|?]; [left; by right|by right].
      * intros [[?|?]|?]; [done|by left|by right].
Qed.

Lemma stage_points_spec tile b U s pd :
  stage_points tile b U s = Ok pd →
  ∃ w offsets m,
    s_window s !! b = Some w ∧ SerializeIterative w tile = Ok offsets ∧
    py_max offsets = Ok m ∧
    (U ≤ 0 → pd = ∅) ∧
    (1 ≤ U →
     ∃ d, s_delay s !! b = Some d ∧
       (∀ tap lanes k idx, pd !! tap = Some lanes → lanes !! k = Some idx →
          ∃ u x, 0 ≤ u < U ∧ k = U - 1 - u ∧ offsets !! idx = Some x ∧
                 tap = m - x + d + u) ∧
       (∀ u idx x, 0 ≤ u < U → offsets !! idx = Some x →
          ∃ lanes idx', pd !! (m - x + d + u) = Some lanes ∧
                        lanes !! (U - 1 - u) = Some idx' ∧
                        offsets !! idx' = Some x)).
Proof.
  unfold stage_points.
  intros (w & Hw%of_option_Ok & (offsets & Hoffs & (m & Hm & Hfold)%rbind_Ok)
            %rbind_Ok)%rbind_Ok.
  exists w, offsets, m. split_and!; try done.
  - intros HU. rewrite seqZ_nil in Hfold by lia. by injection Hfold as <-.
  - intros HU.
    destruct (stage_delay b s) as [d|e] eqn:Hd in Hfold.
    2:{ exfalso. destruct offsets as [|o os]; [done|].
        rewrite (seqZ_cons 0 U) in Hfold by lia. done. }
    rewrite (stage_points_rounds d U m offsets) in Hfold.
    injection Hfold as <-. fold (point_rounds U offsets).
    exists d. split; [by apply of_option_Ok in Hd|].
    assert (Forall (λ t : Z * (nat * Z), offsets !! t.2.1 = Some t.2.2)
                   (point_rounds U offsets)) as Hrounds.
    { apply Forall_forall. intros [u [i x]] Hin.
      by apply elem_of_point_rounds in Hin as [_ ?]. }
    split.
    + intros tap lanes k idx Hl Hk.
      assert (Forall (λ t, t ∈ point_rounds U offsets) (point_rounds U offsets))
        as Hself by (by apply Forall_forall).
      assert (∀ tap lanes k idx, (∅ : Points) !! tap = Some lanes →
                lanes !! k = Some idx →
                ∃ u x, (u, (idx, x)) ∈ point_rounds U offsets ∧
                       k = U - 1 - u ∧ tap = m - x + d + u) as Hempty.
      { intros ? ? ? ?. by rewrite lookup_empty. }
      destruct (record_points_sound U m d _ _ _ Hempty Hself _ _ _ _ Hl Hk)
        as (u & x & Hin & -> & ->).
      apply elem_of_point_rounds in Hin as [Hu Hx]. by exists u, x.
    + intros u idx x Hu Hx.
      apply record_points_complete with idx; [done|].
      by apply elem_of_point_rounds.
Qed.

(** X23 (_GetPoints).  The keys of [_GetPoints(tile_size, b, U)] are the
    names of the consuming stages of [b].  For [U <= 0] every entry is
    empty.  For [U >= 1] the stage [s] of an entry holds a delay for [b],
    and the entry records, for every lane [u] of [[0, U)] and every window
    point of serialized offset [x], under the tap
    [max_offset - x + delay + u] and the key [U - 1 - u] the index of a
    window point with that offset; it records nothing else. *)
Theorem GetPoints_spec tile b (children : list Stage) (U : Z)
    (dsts : gmap string Points) :
  _GetPoints tile b children U = Ok dsts →
  (∀ n, is_Some (dsts !! n) ↔ n ∈ s_name <$> children) ∧
  ∀ n pd, dsts !! n = Some pd →
    ∃ s w offsets m,
      s ∈ children ∧ s_name s = n ∧
      s_window s !! b = Some w ∧ SerializeIterative w tile = Ok offsets ∧
      py_max offsets = Ok m ∧
      (U ≤ 0 → pd = ∅) ∧
      (1 ≤ U →
       ∃ d, s_delay s !! b = Some d ∧
         (∀ tap lanes k idx, pd !! tap = Some lanes → lanes !! k = Some idx →
            ∃ u x, 0 ≤ u < U ∧ k = U - 1 - u ∧ offsets !! idx = Some x ∧
                   tap = m - x + d + u) ∧
         (∀ u idx x, 0 ≤ u < U → offsets !! idx = Some x →
            ∃ lanes idx', pd !! (m - x + d + u) = Some lanes ∧
                          lanes !! (U - 1 - u) = Some idx' ∧
                          offsets !! idx' = Some x)).
Proof.
  unfold _GetPoints. intros Hfold. split.
  - intros n. rewrite (rfold_insert_dom _ _ _ _ _ Hfold n), lookup_empty.
    split; [intros [?|[? ?]]; done|by left].
  - intros n pd Hn.
    destruct (rfold_insert_lookup_inv _ _ _ _ _ _ _ Hfold Hn)
      as [(s & Hs & Hname & Hpts)|Hl]; [|by rewrite lookup_empty in Hl].
    destruct (stage_points_spec _ _ _ _ _ Hpts) as (w & offsets & m & H).
    destruct H as (Hw & Hser & Hm & Hle & Hge).
    exists s, w, offsets, m. split_and!; assumption.
Qed.

Lemma GetPoints_spec_witness :
  let children := consumers blur1 "input" in
  ∃ dsts,
    _GetPoints [8; 0] "input" children 2 = Ok dsts ∧
    (∀ n, is_Some (dsts !! n) ↔ n ∈ s_name <$> children) ∧
    ∀ n pd, dsts !! n = Some pd →
      ∃ s w offsets m,
        s ∈ children ∧ s_name s = n ∧
        s_window s !! "input" = Some w ∧
        SerializeIterative w [8; 0] = Ok offsets ∧
        py_max offsets = Ok m ∧
        (2 ≤ 0 → pd = ∅) ∧
        (1 ≤ 2 →
         ∃ d, s_delay s !! "input" = Some d ∧
           (∀ tap lanes k idx, pd !! tap = Some lanes → lanes !! k = Some idx →
              ∃ u x, 0 ≤ u < 2 ∧ k = 2 - 1 - u ∧ offsets !! idx = Some x ∧
                     tap = m - x + d + u) ∧
           (∀ u idx x, 0 ≤ u < 2 → offsets !! idx = Some x →
              ∃ lanes idx', pd !! (m - x + d + u) = Some lanes ∧
                            lanes !! (2 - 1 - u) = Some idx' ∧
                            offsets !! idx' = Some x)).
Proof.
  intros children.
  destruct blur1_input_points as (dsts & Hpts).
  exists dsts. split; [exact Hpts|].
  exact (GetPoints_spec [8; 0] "input" children 2 dsts Hpts).
Defined.

(** ** Parents and consumer tensors *)

Lemma make_tensors_no_parent a locals output_node self :
  make_tensors a locals output_node = Ok self →
  ∀ n t, p_tensors self !! n = Some t → t_parent t = None.
Proof.
  unfold make_tensors.
  intros (ts & Hts & Hrest)%rbind_Ok.
  assert (∀ node t, Tensor_init node = Ok t → t_parent t = None) as Hinit.
  { intros node t. unfold Tensor_init. by intros (idx & _ & [= <-])%rbind_Ok. }
  assert (∀ n t, ts !! n = Some t → t_parent t = None) as Hts0.
  { intros n t Hn.
    destruct (rfold_insert_lookup_inv Tensor_init n_name _ _ _ _ _ Hts Hn)
      as [(i & _ & _ & Hi)|Hl].
    - by eapply Hinit.
    - by rewrite lookup_empty in Hl. }
  apply rbind_Ok in Hrest as (self1 & H1 & H2).
  assert (∀ n t, p_tensors self1 !! n = Some t → t_parent t = None) as H10.
  { destruct (decide (n_name (a_input a) ∈ n_name <$> a_locals a)) as [Hc|Hc];
      [rewrite bool_decide_eq_true_2 in H1 by done
      |rewrite bool_decide_eq_false_2 in H1 by done].
    - apply rbind_Ok in H1 as (? & _ & [=]).
    - apply rbind_Ok in H1 as (t1 & Ht1 & [= <-]). simpl.
      intros n t. destruct (decide (t_name t1 = n)) as [<-|Hne].
      + rewrite lookup_insert_eq. intros [= <-]. by eapply Hinit.
      + rewrite lookup_insert_ne by done. apply Hts0. }
  destruct (decide (n_name output_node ∈ n_name <$> a_locals a)) as [Hc|Hc];
    [rewrite bool_decide_eq_true_2 in H2 by done
    |rewrite bool_decide_eq_false_2 in H2 by done].
  - apply rbind_Ok in H2 as (? & _ & [=]).
  - apply rbind_Ok in H2 as (t2 & Ht2 & [= <-]). simpl.
    intros n t. destruct (decide (t_name t2 = n)) as [<-|Hne].
    + rewrite lookup_insert_eq. intros [= <-]. by eapply Hinit.
    + rewrite lookup_insert_ne by done. apply H10.
Qed.

Lemma add_children_parent (c : string) (names : list string)
    (ts : gmap string Tensor) b t' :
  foldl (λ ts b, alter (add_child c) b ts) ts names !! b = Some t' →
  ∃ t, ts !! b = Some t ∧ t_parent t' = t_parent t.
Proof.
  revert ts. induction names as [|x names IH]; intros ts; simpl.
  - intros Hb. by exists t'.
  - intros (t1 & Ht1 & Hp)%IH. destruct (decide (x = b)) as [->|Hne].
    + rewrite lookup_alter_eq in Ht1.
      destruct (ts !! b) as [t|] eqn:Ht; [|done]. injection Ht1 as <-.
      by exists t.
    + rewrite lookup_alter_ne in Ht1 by done. by exists t1.
Qed.

Lemma add_stage_parents tile extra g node g' :
  parents_wired g → add_stage tile extra g node = Ok g' → parents_wired g'.
Proof.
  intros Hg. unfold add_stage.
  intros (out & Hout%of_option_Ok & (s & _ & [= <-])%rbind_Ok)%rbind_Ok.
  intros n t' (t1 & Ht1 & Hp)%add_children_parent. simpl. rewrite Hp.
  destruct (decide (n_name node = n)) as [<-|Hne].
  - rewrite lookup_alter_eq, Hout in Ht1. injection Ht1 as <-.
    right. rewrite lookup_insert_eq. eauto.
  - rewrite lookup_alter_ne in Ht1 by done.
    rewrite lookup_insert_ne by done. by apply Hg.
Qed.

(** Rewriting a tensor and a stage that are already stored keeps the
    parents wired. *)
Lemma parents_wired_update g n t t' sn s s' :
  parents_wired g →
  g.1 !! n = Some t → t_parent t' = t_parent t →
  g.2 !! sn = Some s →
  parents_wired (<[n := t']> g.1, <[sn := s']> g.2).
Proof.
  intros Hg Ht Hp Hs x tx. simpl.
  assert (∀ y, is_Some (<[sn := s']> g.2 !! y) ↔ is_Some (g.2 !! y)) as Hdom.
  { intros y. destruct (decide (sn = y)) as [<-|Hne].
    - rewrite lookup_insert_eq, Hs. split; eauto.
    - by rewrite lookup_insert_ne. }
  assert (∀ y, <[sn := s']> g.2 !! y = None ↔ g.2 !! y = None) as Hnone.
  { intros y. rewrite !eq_None_not_Some. by rewrite Hdom. }
  rewrite Hdom, Hnone.
  destruct (decide (n = x)) as [<-|Hne].
  - rewrite lookup_insert_eq. intros [= <-]. rewrite Hp. by apply Hg.
  - rewrite lookup_insert_ne by done. apply Hg.
Qed.

Lemma resolve_borders_parents g borders g' :
  parents_wired g → resolve_borders g borders = Ok g' → parents_wired g'.
Proof.
  unfold resolve_borders. intros Hg Hfold.
  refine (rfold_inv parents_wired _ _ _ _ _ Hg Hfold).
  clear. intros g ds g' Hg.
  intros (src & _ & Hrest)%rbind_Ok.
  apply rbind_Ok in Hrest as (t & Ht0%of_option_Ok & Hrest).
  apply rbind_Ok in Hrest as (s & Hs0%of_option_Ok & [= <-]).
  by eapply parents_wired_update.
Qed.

Lemma Stencil_assemble_parents a bank self g :
  Stencil_assemble a = Ok (bank, self, g) → parents_wired g.
Proof.
  unfold Stencil_assemble.
  intros (bank' & _ & Hrest)%rbind_Ok.
  apply rbind_Ok in Hrest as (? & _ & Hrest).
  destruct (expand_iterations a) as [[locals output_node] borders].
  apply rbind_Ok in Hrest as (self' & Hself & Hrest).
  apply rbind_Ok in Hrest as (g0 & Hg0 & Hrest).
  apply rbind_Ok in Hrest as (g1 & Hg1 & [= <- <- <-]).
  eapply resolve_borders_parents; [|exact Hg1].
  eapply (rfold_inv parents_wired); [| |exact Hg0].
  - intros ? ? ?. apply add_stage_parents.
  - intros n t Hn. left. simpl in *. split; [|apply lookup_empty].
    by eapply make_tensors_no_parent.
Qed.

Lemma visit_stage_parents tile st sn st' :
  parents_wired (sc_tensors st, sc_stages st) →
  visit_stage tile st sn = Ok st' →
  parents_wired (sc_tensors st', sc_stages st').
Proof.
  intros Hg. unfold visit_stage.
  intros (s & Hs%of_option_Ok & Hrest)%rbind_Ok.
  destruct (_ && _); [|by injection Hrest as <-].
  apply rbind_Ok in Hrest as (so & _ & Hrest).
  apply rbind_Ok in Hrest as (out & Hout%of_option_Ok & Hrest).
  apply rbind_Ok in Hrest as (off & _ & Hrest).
  apply rbind_Ok in Hrest as (delay & _ & [= <-]). simpl.
  by apply (parents_wired_update (sc_tensors st, sc_stages st) sn out _ sn s).
Qed.

(** X24 (GetConsumerTensors, IsInput).  On the state the scheduling loop of
    the constructor leaves, [GetConsumerTensors()] lists exactly the
    tensors under whose name a stage is stored, and [tensor.IsInput()]
    returns without an exception: [True] exactly for the tensors without a
    stage and for those whose stage has no inputs. *)
Theorem consumer_tensors_are_stage_outputs (fuel : nat) (a : Args)
    (st : Stencil) :
  Stencil_init fuel a = Some (Ok st) →
  (∀ t, t ∈ GetConsumerTensors st ↔
        ∃ n, tensors st !! n = Some t ∧ is_Some (stages st !! n)) ∧
  (∀ n t, tensors st !! n = Some t →
     ∃ r, Tensor_IsInput (stages st) t = Ok r ∧
          (r = true ↔ match stages st !! n with
                      | None => True
                      | Some s => s_inputs s = []
                      end)).
Proof.
  intros Hinit.
  destruct (Stencil_init_sched _ _ _ Hinit)
    as (bank & self & g & sc & Hasm & Hsched & ->). simpl.
  assert (parents_wired (sc_tensors sc, sc_stages sc)) as Hg.
  { refine (schedule_inv2 (a_tile_size a) (n_name (a_input a))
              (λ st, parents_wired (sc_tensors st, sc_stages st))
              _ _ _ _ _ _ (Stencil_assemble_sorted _ _ _ _ Hasm) _ Hsched).
    - by intros ? ?.
    - intros ? ? ? _. apply visit_stage_parents.
    - simpl. destruct g. by eapply Stencil_assemble_parents. }
  split.
  - intros t. unfold GetConsumerTensors. simpl.
    rewrite list_elem_of_filter, list_elem_of_fmap. split.
    + intros [Hp ([n t'] & -> & Hin%elem_of_map_to_list)]. simpl in *.
      exists n. split; [done|].
      destruct (Hg n t' Hin) as [[Hnone _]|[_ Hs]]; [|done].
      rewrite Hnone in Hp. by destruct Hp.
    + intros (n & Hn & Hs). split.
      * destruct (Hg n t Hn) as [[_ Hnone]|[-> _]]; [|by eauto].
        simpl in Hnone. rewrite Hnone in Hs. by destruct Hs.
      * exists (n, t). split; [done|]. by apply elem_of_map_to_list.
  - intros n t Hn. unfold Tensor_IsInput.
    destruct (Hg n t Hn) as [[-> Hnone]|[-> [s Hs]]]; simpl in *.
    + exists true. by rewrite Hnone.
    + rewrite Hs. simpl. eexists. split; [done|].
      by rewrite bool_decide_eq_true.
Qed.

Lemma consumer_tensors_are_stage_outputs_witness :
  Stencil_init 20 (blur_args 1) = Some (Ok blur1) ∧
  (∀ t, t ∈ GetConsumerTensors blur1 ↔
        ∃ n, tensors blur1 !! n = Some t ∧ is_Some (stages blur1 !! n)) ∧
  (∀ n t, tensors blur1 !! n = Some t →
     ∃ r, Tensor_IsInput (stages blur1) t = Ok r ∧
          (r = true ↔ match stages blur1 !! n with
                      | None => True
                      | Some s => s_inputs s = []
                      end)).
Proof.
  split; [exact blur1_built|].
  exact (consumer_tensors_are_stage_outputs 20 (blur_args 1) blur1 blur1_built).
Defined.

(** ** The windows of a definition *)

Lemma sorted_by_Serialize_perm tile idxs w :
  sorted_by_Serialize tile idxs = Ok w →
  w ≡ₚ idxs ∧ ∃ offs, SerializeIterative w tile = Ok offs.
Proof.
  unfold sorted_by_Serialize.
  intros (keyed & Hkeyed%rmap_Ok & [= <-])%rbind_Ok.
  assert (keyed.*2 = idxs ∧
          Forall (λ x, ∃ k, Serialize x tile = Ok k) idxs) as [Hsnd Hall].
  { induction Hkeyed as [|x kx idxs keyed Hx _ [IH1 IH2]]; [done|].
    apply rbind_Ok in Hx as (k & Hk & [= <-]). csimpl. split.
    - by rewrite IH1.
    - constructor; [by exists k|done]. }
  assert ((merge_sort key_le keyed).*2 ≡ₚ idxs) as Hperm.
  { rewrite <-Hsnd. apply fmap_Permutation, merge_sort_Permutation. }
  split; [exact Hperm|].
  unfold SerializeIterative. apply rmap_total.
  by rewrite Hperm.
Qed.

Lemma GetWindowFor_lookup tile extra node window :
  GetWindowFor tile extra node = Ok window →
  (∀ name, name ∈ load_names extra node →
     ∃ w, sorted_by_Serialize tile
            (remove_dups (l_idx <$> filter (λ l, l_name l = name)
                                      (GetLoads node))) = Ok w ∧
          window !! name = Some w) ∧
  (∀ name, name ∉ load_names extra node → window !! name = None).
Proof.
  unfold GetWindowFor. intros Hwin.
  destruct (rfold_insert_lookup_fwd
              (λ name, sorted_by_Serialize tile
                         (remove_dups (l_idx <$> filter (λ l, l_name l = name)
                                                  (GetLoads node)))) id
              _ _ _ ltac:(rewrite list_fmap_id; apply NoDup_remove_dups) Hwin)
    as [Hall Hother].
  split.
  - intros name Hname. exact (Hall name Hname).
  - intros name Hname. rewrite Hother; [apply lookup_empty|].
    by rewrite list_fmap_id.
Qed.

Lemma elem_of_load_names extra node name :
  name ∈ load_names extra node ↔
  name ∉ extra ∧ ∃ l, l ∈ GetLoads node ∧ l_name l = name.
Proof.
  unfold load_names.
  rewrite elem_of_remove_dups, list_elem_of_filter, list_elem_of_fmap.
  split.
  - intros [Hex (l & -> & Hl)]. split; [done|]. by exists l.
  - intros [Hex (l & Hl & <-)]. split; [done|]. by exists l.
Qed.

(** X25 (GetWindowFor).  [GetWindowFor(node)] has a window for exactly the
    names the definition loads that are not extra parameters; the window of
    a name is not empty, lists each index the definition loads under that
    name once and nothing else, and is sorted: its serialized offsets
    ascend. *)
Theorem GetWindowFor_spec tile (extra : list string) (node : Node)
    (window : gmap string (list (list Z))) :
  GetWindowFor tile extra node = Ok window →
  (∀ name, is_Some (window !! name) ↔
           name ∉ extra ∧ ∃ l, l ∈ GetLoads node ∧ l_name l = name) ∧
  ∀ name w, window !! name = Some w →
    w ≠ [] ∧ NoDup w ∧
    (∀ idx, idx ∈ w ↔ ∃ l, l ∈ GetLoads node ∧ l_name l = name ∧ l_idx l = idx) ∧
    ∃ offs, SerializeIterative w tile = Ok offs ∧ Sorted Z.le offs.
Proof.
  intros Hwin. destruct (GetWindowFor_lookup _ _ _ _ Hwin) as [Hin Hout].
  assert (∀ name, is_Some (window !! name) ↔ name ∈ load_names extra node)
    as Hdom.
  { intros name. split.
    - intros [w Hw]. destruct (decide (name ∈ load_names extra node)); [done|].
      by rewrite Hout in Hw.
    - intros (w & _ & ->)%Hin. eauto. }
  split.
  { intros name. by rewrite Hdom, elem_of_load_names. }
  intros name w Hw.
  assert (name ∈ load_names extra node) as Hname by (apply Hdom; eauto).
  destruct (Hin name Hname) as (w' & Hsort & Hw').
  rewrite Hw in Hw'. injection Hw' as <-.
  destruct (sorted_by_Serialize_perm _ _ _ Hsort) as [Hperm [offs Hoffs]].
  assert (∀ idx, idx ∈ w ↔
                 ∃ l, l ∈ GetLoads node ∧ l_name l = name ∧ l_idx l = idx)
    as Hmem.
  { intros idx.
    rewrite Hperm, elem_of_remove_dups, list_elem_of_fmap. split.
    - intros (l & -> & [Hn Hl]%list_elem_of_filter). by exists l.
    - intros (l & Hl & Hn & <-). exists l. split; [done|].
      by apply list_elem_of_filter. }
  split_and!.
  - apply elem_of_load_names in Hname as [_ (l & Hl & Hn)].
    intros ->. assert (l_idx l ∈ @nil (list Z)) as Hnil; [|by apply elem_of_nil in Hnil].
    apply Hmem. by exists l.
  - rewrite Hperm. apply NoDup_remove_dups.
  - exact Hmem.
  - exists offs. split; [done|]. by eapply sorted_by_Serialize_sorted.
Qed.

Lemma ex_tmp_window : ∃ window, GetWindowFor [8; 0] [] ex_tmp = Ok window.
Proof.
  assert (match GetWindowFor [8; 0] [] ex_tmp with
          | Ok _ => True
          | Raise _ => False
          end) as H by (vm_compute; exact I).
  destruct (GetWindowFor [8; 0] [] ex_tmp) as [window|e];
    [by eauto|destruct H].
Qed.

Lemma GetWindowFor_spec_witness :
  ∃ window,
    GetWindowFor [8; 0] [] ex_tmp = Ok window ∧
    (∀ name, is_Some (window !! name) ↔
             name ∉ @nil string ∧ ∃ l, l ∈ GetLoads ex_tmp ∧ l_name l = name) ∧
    ∀ name w, window !! name = Some w →
      w ≠ [] ∧ NoDup w ∧
      (∀ idx, idx ∈ w ↔
              ∃ l, l ∈ GetLoads ex_tmp ∧ l_name l = name ∧ l_idx l = idx) ∧
      ∃ offs, SerializeIterative w [8; 0] = Ok offs ∧ Sorted Z.le offs.
Proof.
  destruct ex_tmp_window as (window & Hwin).
  exists window. split; [exact Hwin|].
  exact (GetWindowFor_spec [8; 0] [] ex_tmp window Hwin).
Defined.

(** ** The schedule is tight *)





(** ** The taps of a reuse buffer lie within the buffer *)

Lemma links_within A U start end_ :
  (start, end_) ∈ concat (links_of_chain <$> chains_of A U) →
  start ∈ A ∧ end_ ∈ A ∧ start ≤ end_.
Proof.
  intros (links & Hlinks & Hin)%elem_of_concat.
  apply list_elem_of_fmap in Hlinks as (chain & -> & Hchain).
  unfold chains_of in Hchain.
  apply elem_of_reverse, list_elem_of_fmap in Hchain as (r & -> & _).
  pose proof (chain_of_sorted A U r) as Hsorted.
  assert (∀ x, x ∈ chain_of A U r → x ∈ A) as Hsub.
  { intros x Hx. by apply chain_of_elem in Hx as [? _]. }
  unfold links_of_chain in Hin.
  destruct (chain_of A U r) as [|v c] eqn:Hc; [by apply elem_of_nil in Hin|].
  apply elem_of_cons in Hin as [[= -> ->]|Hin].
  - split_and!; [apply Hsub; left|apply Hsub; left|lia].
  - apply (chain_links_sorted _ _ _ Hsorted) in Hin as (H1 & H2 & Hlt).
    split_and!; [by apply Hsub|by apply Hsub|lia].
Qed.

Lemma expected_length_nonneg U link :
  1 ≤ U → 0 ≤ link.1 ≤ link.2 → 0 ≤ expected_length U link.
Proof.
  intros HU Hlink. unfold expected_length.
  case_bool_decide; apply Z.div_pos; lia.
Qed.

(** X27 (taps within the buffer).  On the state the scheduling loop of the
    constructor leaves, for every producer tensor the reuse buffer has a
    length of at least 1, every link [(start, end)] of it satisfies
    [0 <= start <= end < length], and no recorded tap length is negative. *)
Theorem reuse_buffer_taps_in_range (fuel : nat) (a : Args) (st : Stencil)
    bufs lens (b : Tensor) :
  Stencil_init fuel a = Some (Ok st) →
  tensors_named st →
  GetReuseBuffers st = Ok (bufs, lens) →
  b ∈ GetProducerTensors st →
  ∃ buf len,
    bufs !! t_name b = Some buf ∧ lens !! t_name b = Some len ∧
    1 ≤ buf.1 ∧
    (∀ start end_, (start, end_) ∈ buf.2 → 0 ≤ start ∧ start ≤ end_ ∧ end_ < buf.1) ∧
    (∀ tap l, len !! tap = Some l → 0 ≤ l).
Proof.
  intros Hinit Hnamed Hget Hb.
  destruct (Stencil_init_topo _ _ _ Hinit)
    as (sc & _ & _ & (_ & _ & Hdel) & _ & _ & _ & Hstages & _).
  rewrite <-Hstages in Hdel.
  destruct (GetReuseBuffers_lookup _ _ _ _ Hnamed Hget Hb)
    as (buf & len & Hbl & Hbuf & Hlen).
  exists buf, len. split; [done|]. split; [done|].
  unfold buffer_of in Hbl.
  apply rbind_Ok in Hbl as (children & Hch & Hbl).
  apply rbind_Ok in Hbl as (buf' & Hgb & Hbl).
  apply rbind_Ok in Hbl as (len' & Hlen' & [= <- <-]).
  destruct (GetBuffer_inv _ _ _ _ _ Hgb) as (A & HA & _ & Hlinks & Hmax).
  destruct (A_dag_inv _ _ _ _ _ HA) as (HU & _ & HAmem).
  destruct (py_max_concat_chains _ _ _ HU Hmax) as [Hin Hle].
  assert (∀ y, y ∈ A → 0 ≤ y) as Hpos.
  { intros y (s & offsets & m & d & u & x & Hs & Hview & Hu & Hx & ->)%HAmem.
    apply consumer_view_Some in Hview as (w & _ & _ & Hm & Hd).
    apply py_max_spec in Hm as [_ Hm]. pose proof (Hm x Hx).
    apply rmap_Ok in Hch.
    destruct (proj1 (list_elem_of_lookup _ _) Hs) as [i Hi].
    destruct (Forall2_lookup_r _ _ _ _ _ Hch Hi) as (sn & _ & Hsn%of_option_Ok).
    pose proof (Hdel _ _ _ _ Hsn Hd). lia. }
  assert (∀ start end_, (start, end_) ∈ buf'.2 → 0 ≤ start ∧ start ≤ end_ ∧ end_ < buf'.1)
    as Hrange.
  { intros start end_ Hlink. rewrite Hlinks in Hlink.
    apply links_within in Hlink as (Hs & He & Hse).
    pose proof (Hpos _ Hs). pose proof (Hle _ He). lia. }
  split_and!.
  - pose proof (Hpos _ Hin). lia.
  - exact Hrange.
  - intros tap l Hl.
    destruct (buffer_lengths_spec _ _ _ _ _ Hgb) as (len'' & Hl' & Hspec).
    rewrite Hlen' in Hl'. injection Hl' as <-.
    pose proof (buffer_lengths_keys _ _ _ Hlen' tap ltac:(eauto)) as Hkey.
    apply list_elem_of_fmap in Hkey as ([start end_] & -> & Hlink).
    rewrite (Hspec _ Hlink) in Hl. injection Hl as <-.
    apply expected_length_nonneg; [done|].
    pose proof (Hrange _ _ Hlink). simpl. lia.
Qed.

Lemma reuse_buffer_taps_in_range_witness :
  ∃ bufs lens b,
    Stencil_init 20 (blur_args 1) = Some (Ok blur1) ∧
    tensors_named blur1 ∧
    GetReuseBuffers blur1 = Ok (bufs, lens) ∧
    b ∈ GetProducerTensors blur1 ∧
    ∃ buf len,
      bufs !! t_name b = Some buf ∧ lens !! t_name b = Some len ∧
      1 ≤ buf.1 ∧
      (∀ start end_, (start, end_) ∈ buf.2 → 0 ≤ start ∧ start ≤ end_ ∧ end_ < buf.1) ∧
      (∀ tap l, len !! tap = Some l → 0 ≤ l).
Proof.
  destruct blur1_buffers as (bufs & lens & Hget).
  destruct blur1_tmp_producer as (b & Hin & _).
  exists bufs, lens, b.
  split; [exact blur1_built|]. split; [exact tensors_named_blur|].
  split; [exact Hget|]. split; [exact Hin|].
  exact (reuse_buffer_taps_in_range 20 (blur_args 1) blur1 bufs lens b
           blur1_built tensors_named_blur Hget Hin).
Defined.
